(** * A shallow embedding of the Wordle solver [Guesser] (src/guesser.py)

    The Python class is translated method by method.  The object's fields
    form the record [Guesser]; a method that mutates [self] takes the record
    and returns the updated one; an exception is a value of [res]; the only
    loop of the class that need not terminate (the anti-repeat [while] of
    [get_guess]) runs on fuel.

    Conventions of the embedding:
    - a Python [str] is a [list ascii] (type [str]); a one-character string,
      which is what the code calls a letter, is an [ascii], read as the
      code point of that number: the strings of the embedding are those
      whose characters lie below U+0100;
    - a list whose cells hold either [''] or a one-letter string
      ([_correct_positions], [chosen_word]) is a [list (option ascii)], with
      [None] for [''];
    - a [dict] is an association list with unique keys, kept in insertion
      order as Python dictionaries are;
    - a [set] whose elements are only tested for membership is a duplicate
      free list; where the code iterates over a set of letters, the order is
      the one induced by the interpreter's string hash, a parameter [hash];
    - [random.choice] reads an oracle [rnd : nat -> nat] at a cursor. *)

From Stdlib Require Import Ascii String.
From Stdlib Require Import List Arith Bool ZArith Lia Permutation Sorted.
Import ListNotations.

(** ** Python values and primitives *)

Module Py.

Definition str := list ascii.

Definition s (x : string) : str := list_ascii_of_string x.

Inductive exn : Type :=
| ValueError (msg : string)
| IndexError (msg : string)
| UnboundLocalError (name : string).

Inductive res (A : Type) : Type :=
| Ok (a : A)
| Raise (e : exn).

Arguments Ok {A} a.
Arguments Raise {A} e.

Definition bind {A B : Type} (m : res A) (k : A -> res B) : res B :=
  match m with
  | Ok a => k a
  | Raise e => Raise e
  end.

Definition str_index_error : exn := IndexError "string index out of range".
Definition list_index_error : exn := IndexError "list index out of range".
Definition list_assign_error : exn :=
  IndexError "list assignment index out of range".
Definition choice_empty_error : exn :=
  IndexError "Cannot choose from an empty sequence".

(** [c.isalpha()] for a one-character string.  Python answers by the
    Unicode category of the character: it is true of the letters (categories
    Lu, Ll, Lt, Lm, Lo).  An [ascii] is a code point below 256, and the
    letters there are A-Z, a-z, U+00AA, U+00B5, U+00BA, U+00C0 to U+00D6,
    U+00D8 to U+00F6 and U+00F8 to U+00FF (the signs U+00D7 and U+00F7 are
    not letters). *)
Definition isalpha (c : ascii) : bool :=
  let n := nat_of_ascii c in
  ((65 <=? n) && (n <=? 90)) || ((97 <=? n) && (n <=? 122))
  || (n =? 170) || (n =? 181) || (n =? 186)
  || ((192 <=? n) && (n <=? 214)) || ((216 <=? n) && (n <=? 246))
  || (248 <=? n).

(** [letter in word], [letter in some_set]. *)
Definition mem (c : ascii) (l : list ascii) : bool :=
  existsb (Ascii.eqb c) l.

Fixpoint str_eqb (a b : str) : bool :=
  match a, b with
  | [], [] => true
  | x :: a', y :: b' => Ascii.eqb x y && str_eqb a' b'
  | _, _ => false
  end.

(** [word in list_of_words]. *)
Definition str_mem (w : str) (l : list str) : bool := existsb (str_eqb w) l.

(** [word[i]]. *)
Definition str_get (w : str) (i : nat) : res ascii :=
  match nth_error w i with
  | Some c => Ok c
  | None => Raise str_index_error
  end.

(** [some_set.add(x)] and [some_set.remove(x)] on a set kept as a list. *)
Definition set_add (c : ascii) (l : list ascii) : list ascii :=
  if mem c l then l else l ++ [c].

Definition set_remove (c : ascii) (l : list ascii) : list ascii :=
  filter (fun d => negb (Ascii.eqb c d)) l.

Definition pos_add (i : nat) (l : list nat) : list nat :=
  if existsb (Nat.eqb i) l then l else l ++ [i].

(** [lst[i] = v] for [i] in range. *)
Fixpoint list_set {A : Type} (l : list A) (i : nat) (v : A) : list A :=
  match l, i with
  | [], _ => []
  | _ :: l', O => v :: l'
  | x :: l', S i' => x :: list_set l' i' v
  end.

(** Dictionaries keyed by letters. *)
Definition dict (V : Type) : Type := list (ascii * V).

Fixpoint dict_find {V : Type} (k : ascii) (d : dict V) : option V :=
  match d with
  | [] => None
  | (k', v) :: d' => if Ascii.eqb k k' then Some v else dict_find k d'
  end.

Definition dict_mem {V : Type} (k : ascii) (d : dict V) : bool :=
  match dict_find k d with Some _ => true | None => false end.

(** [d[k] = v]: an existing key keeps its place, a new one goes last. *)
Fixpoint dict_set {V : Type} (k : ascii) (v : V) (d : dict V) : dict V :=
  match d with
  | [] => [(k, v)]
  | (k', v') :: d' =>
      if Ascii.eqb k k' then (k', v) :: d' else (k', v') :: dict_set k v d'
  end.

Definition dict_keys {V : Type} (d : dict V) : list ascii := map fst d.

(** [d.get(k, 0)]. *)
Definition dict_get0 (k : ascii) (d : dict nat) : nat :=
  match dict_find k d with Some n => n | None => 0 end.

(** [sorted(l, key=key, reverse=True)]: descending and stable, elements with
    equal keys keep their relative order. *)
Fixpoint insert_desc {A : Type} (key : A -> nat) (x : A) (l : list A)
  : list A :=
  match l with
  | [] => [x]
  | y :: l' => if key x <? key y then y :: insert_desc key x l' else x :: l
  end.

Definition sorted_desc {A : Type} (key : A -> nat) (l : list A) : list A :=
  fold_right (insert_desc key) [] l.

(** First occurrences, in order: the keys of a dictionary comprehension. *)
Fixpoint dedup_str (l : list str) : list str :=
  match l with
  | [] => []
  | w :: l' => w :: filter (fun v => negb (str_eqb w v)) (dedup_str l')
  end.

Fixpoint dedup (l : list ascii) : list ascii :=
  match l with
  | [] => []
  | c :: l' => c :: filter (fun d => negb (Ascii.eqb c d)) (dedup l')
  end.

(** Iterating over [set(letters)]: the distinct letters, in the order fixed
    by the string hash of the running interpreter; the model orders them by
    the value of [hash], so every enumeration of the set is the image of some
    [hash]. *)
Definition set_iter (hash : ascii -> nat) (letters : list ascii) : list ascii :=
  sorted_desc hash (dedup letters).

(** [random.choice(seq)]: the oracle's value at the cursor picks the index. *)
Definition choice {A : Type} (rnd : nat -> nat) (cursor : nat) (seq : list A)
  : res A :=
  match seq with
  | [] => Raise choice_empty_error
  | x :: _ => Ok (nth (rnd cursor mod length seq) seq x)
  end.

End Py.

Import Py.

Notation "x <- m ;; k" := (bind m (fun x => k))
  (at level 61, m at next level, right associativity).

(** ** The object *)

Record Guesser : Type := mkGuesser {
  word_list : list str;
  _manual : str;
  _tried : list str;
  first_guess : str;
  _invalid_letters : list ascii;
  _correct_positions : list (option ascii);
  _misplaced_letters : dict (list nat);
  guess_count : nat;
  first_guess_letters : list ascii
}.

Definition set_invalid_letters (self : Guesser) (v : list ascii) : Guesser :=
  mkGuesser (word_list self) (_manual self) (_tried self) (first_guess self)
    v (_correct_positions self) (_misplaced_letters self)
    (guess_count self) (first_guess_letters self).

Definition set_correct_positions (self : Guesser) (v : list (option ascii))
  : Guesser :=
  mkGuesser (word_list self) (_manual self) (_tried self) (first_guess self)
    (_invalid_letters self) v (_misplaced_letters self)
    (guess_count self) (first_guess_letters self).

Definition set_misplaced_letters (self : Guesser) (v : dict (list nat))
  : Guesser :=
  mkGuesser (word_list self) (_manual self) (_tried self) (first_guess self)
    (_invalid_letters self) (_correct_positions self) v
    (guess_count self) (first_guess_letters self).

(** [self._tried.append(guess); self.guess_count += 1]. *)
Definition record_guess (self : Guesser) (guess : str) : Guesser :=
  mkGuesser (word_list self) (_manual self) (_tried self ++ [guess])
    (first_guess self) (_invalid_letters self) (_correct_positions self)
    (_misplaced_letters self) (guess_count self + 1)
    (first_guess_letters self).

(** ** Feedback processing (guesser.py, lines 117-129) *)

(** [x in self._correct_positions] for a one-letter string [x]. *)
Definition in_correct (c : ascii) (cp : list (option ascii)) : bool :=
  existsb (fun o => match o with Some d => Ascii.eqb c d | None => false end)
    cp.

(** [self._misplaced_letters[c].add(i)], creating the entry when missing. *)
Definition misplaced_add (c : ascii) (i : nat) (m : dict (list nat))
  : dict (list nat) :=
  match dict_find c m with
  | Some ps => dict_set c (pos_add i ps) m
  | None => dict_set c [i] m
  end.

(** One iteration of [for i, char in enumerate(result)]. *)
Definition feedback_char (last_guess : str) (self : Guesser) (i : nat)
    (char : ascii) : res Guesser :=
  if isalpha char then
    c <- str_get last_guess i ;;
    if i <? length (_correct_positions self) then
      let self1 :=
        set_correct_positions self
          (list_set (_correct_positions self) i (Some c)) in
      Ok (if mem c (_invalid_letters self1)
          then set_invalid_letters self1 (set_remove c (_invalid_letters self1))
          else self1)
    else Raise list_assign_error
  else if Ascii.eqb char "-" then
    c <- str_get last_guess i ;;
    Ok (set_misplaced_letters self (misplaced_add c i (_misplaced_letters self)))
  else if Ascii.eqb char "+" then
    c <- str_get last_guess i ;;
    Ok (if negb (dict_mem c (_misplaced_letters self))
           && negb (in_correct c (_correct_positions self))
        then set_invalid_letters self (set_add c (_invalid_letters self))
        else self)
  else Ok self.

(** The whole loop, from index [i] on.  An exception leaves the object as
    the completed iterations made it. *)
Fixpoint process_feedback (last_guess : str) (self : Guesser) (i : nat)
    (result : str) : Guesser * option exn :=
  match result with
  | [] => (self, None)
  | char :: rest =>
      match feedback_char last_guess self i char with
      | Raise e => (self, Some e)
      | Ok self' => process_feedback last_guess self' (S i) rest
      end
  end.

(** ** The candidate filter (guesser.py, lines 131-138) *)

(** [any(cp[i] and word[i] != cp[i] for i in positions)]. *)
Fixpoint contradicts_correct (cp : list (option ascii)) (word : str)
    (positions : list nat) : res bool :=
  match positions with
  | [] => Ok false
  | i :: rest =>
      match nth_error cp i with
      | None => Raise list_index_error
      | Some None => contradicts_correct cp word rest
      | Some (Some c) =>
          d <- str_get word i ;;
          if Ascii.eqb d c then contradicts_correct cp word rest else Ok true
      end
  end.

(** [any(letter in m and i in m[letter] for i, letter in enumerate(word))],
    the enumeration starting at [i]. *)
Fixpoint at_excluded_position (m : dict (list nat)) (i : nat) (word : str)
  : bool :=
  match word with
  | [] => false
  | letter :: rest =>
      match dict_find letter m with
      | Some ps => existsb (Nat.eqb i) ps
      | None => false
      end
      || at_excluded_position m (S i) rest
  end.

(** The condition of the comprehension, with the short circuits of [and]. *)
Definition keeps (self : Guesser) (word : str) : res bool :=
  if existsb (fun letter => mem letter word) (_invalid_letters self)
  then Ok false
  else
    bad <- contradicts_correct (_correct_positions self) word (seq 0 5) ;;
    if bad then Ok false
    else if at_excluded_position (_misplaced_letters self) 0 word then Ok false
    else Ok (forallb (fun letter => mem letter word)
               (dict_keys (_misplaced_letters self))).

Fixpoint filter_words (self : Guesser) (words : list str) : res (list str) :=
  match words with
  | [] => Ok []
  | word :: rest =>
      b <- keeps self word ;;
      l <- filter_words self rest ;;
      Ok (if b then word :: l else l)
  end.

Definition filtered_word_list (self : Guesser) : res (list str) :=
  filter_words self (word_list self).

(** ** The first guess: [analysis] (guesser.py, lines 37-94) *)

(** [d[letter] = d.get(letter, 0) + 1]. *)
Definition bump (letter : ascii) (d : dict nat) : dict nat :=
  dict_set letter (dict_get0 letter d + 1) d.

(** The body of [for i in range(5)] for one word. *)
Fixpoint tally_word (word : str) (positions : list nat)
    (letter_frequency : list (dict nat)) (overall_frequency : dict nat)
  : res (list (dict nat) * dict nat) :=
  match positions with
  | [] => Ok (letter_frequency, overall_frequency)
  | i :: rest =>
      letter <- str_get word i ;;
      tally_word word rest
        (list_set letter_frequency i (bump letter (nth i letter_frequency [])))
        (bump letter overall_frequency)
  end.

Fixpoint tally (words : list str) (letter_frequency : list (dict nat))
    (overall_frequency : dict nat) : res (list (dict nat) * dict nat) :=
  match words with
  | [] => Ok (letter_frequency, overall_frequency)
  | word :: rest =>
      p <- tally_word word (seq 0 5) letter_frequency overall_frequency ;;
      tally rest (fst p) (snd p)
  end.

(** The scan [for pos in range(5)] that looks for the free position where
    [letter] is most frequent; [highest_freq] starts at -1. *)
Fixpoint best_position_from (sorted_letter_frequency : list (dict nat))
    (chosen_word : list (option ascii)) (letter : ascii)
    (positions : list nat) (best_position : option nat) (highest_freq : Z)
  : option nat :=
  match positions with
  | [] => best_position
  | pos :: rest =>
      match dict_find letter (nth pos sorted_letter_frequency []),
            nth pos chosen_word None with
      | Some letter_freq, None =>
          if (highest_freq <? Z.of_nat letter_freq)%Z
          then best_position_from sorted_letter_frequency chosen_word letter
                 rest (Some pos) (Z.of_nat letter_freq)
          else best_position_from sorted_letter_frequency chosen_word letter
                 rest best_position highest_freq
      | _, _ =>
          best_position_from sorted_letter_frequency chosen_word letter
            rest best_position highest_freq
      end
  end.

(** [for letter in top_five_letters]: first pass. *)
Fixpoint place_letters (sorted_letter_frequency : list (dict nat))
    (letters : list ascii) (chosen_word : list (option ascii))
    (used_letters : list ascii) : list (option ascii) * list ascii :=
  match letters with
  | [] => (chosen_word, used_letters)
  | letter :: rest =>
      match best_position_from sorted_letter_frequency chosen_word letter
              (seq 0 5) None (-1)%Z with
      | Some best_position =>
          place_letters sorted_letter_frequency rest
            (list_set chosen_word best_position (Some letter))
            (set_add letter used_letters)
      | None =>
          place_letters sorted_letter_frequency rest chosen_word used_letters
      end
  end.

(** [for i in range(5)]: second pass, the first unused top letter goes to
    each position still empty. *)
Fixpoint fill_remaining (top_five_letters : list ascii) (positions : list nat)
    (chosen_word : list (option ascii)) (used_letters : list ascii)
  : list (option ascii) * list ascii :=
  match positions with
  | [] => (chosen_word, used_letters)
  | i :: rest =>
      match nth i chosen_word None with
      | Some _ => fill_remaining top_five_letters rest chosen_word used_letters
      | None =>
          match find (fun letter => negb (mem letter used_letters))
                  top_five_letters with
          | Some letter =>
              fill_remaining top_five_letters rest
                (list_set chosen_word i (Some letter))
                (set_add letter used_letters)
          | None =>
              fill_remaining top_five_letters rest chosen_word used_letters
          end
      end
  end.

(** ["".join(cells)]. *)
Fixpoint join (cells : list (option ascii)) : str :=
  match cells with
  | [] => []
  | None :: rest => join rest
  | Some c :: rest => c :: join rest
  end.

Definition top_five (overall_frequency : dict nat) : list ascii :=
  firstn 5
    (sorted_desc (fun l => dict_get0 l overall_frequency)
       (dict_keys overall_frequency)).

Definition analysis (word_list : list str) : res str :=
  p <- tally word_list (repeat [] 5) [] ;;
  let sorted_letter_frequency := map (sorted_desc snd) (fst p) in
  let top_five_letters := top_five (snd p) in
  let placed :=
    place_letters sorted_letter_frequency top_five_letters (repeat None 5) []
  in
  let filled :=
    fill_remaining top_five_letters (seq 0 5) (fst placed) (snd placed) in
  Ok (join (fst filled)).

(** ** Construction and restart (guesser.py, lines 13-35) *)

(** [__init__], given the list read from the word file. *)
Definition init (manual : str) (words : list str) : res Guesser :=
  first <- analysis words ;;
  Ok (mkGuesser words manual [] first [] (repeat None 5) [] 0 (dedup first)).

Definition restart_game (self : Guesser) : Guesser :=
  mkGuesser (word_list self) (_manual self) [] (first_guess self)
    [] (repeat None 5) [] 0 (dedup (first_guess self)).

(** ** Choosing the guess (guesser.py, lines 143-213) *)

(** [all(letter in word for letter in self._misplaced_letters)]. *)
Definition has_all_misplaced (m : dict (list nat)) (word : str) : bool :=
  forallb (fun letter => mem letter word) (dict_keys m).

(** [not any(letter in self.first_guess_letters for letter in word)]. *)
Definition avoids (letters : list ascii) (word : str) : bool :=
  negb (existsb (fun letter => mem letter letters) word).

(** The dictionary comprehension [letter_entropy]: for every letter of the
    candidates, the number of candidates that contain it. *)
Definition letter_entropy (hash : ascii -> nat) (filtered : list str)
  : dict nat :=
  map (fun letter =>
         (letter, length (filter (fun word => mem letter word) filtered)))
      (set_iter hash (concat filtered)).

Definition sorted_letters_of (hash : ascii -> nat) (filtered : list str)
  : list ascii :=
  let entropy := letter_entropy hash filtered in
  sorted_desc (fun l => dict_get0 l entropy) (dict_keys entropy).

(** [for letter in sorted_letters], with its [break] at five letters. *)
Fixpoint assemble_probe (avoid : list ascii) (letters : list ascii)
    (second_guess : list ascii) (used_letters : list ascii) : list ascii :=
  match letters with
  | [] => second_guess
  | letter :: rest =>
      let fresh := negb (mem letter avoid) && negb (mem letter used_letters) in
      let second_guess' :=
        if fresh then second_guess ++ [letter] else second_guess in
      let used_letters' :=
        if fresh then set_add letter used_letters else used_letters in
      if length second_guess' =? 5 then second_guess'
      else assemble_probe avoid rest second_guess' used_letters'
  end.

(** The branch [self.guess_count == 1].  [sorted_letters] is bound in the
    [else] part only: [None] stands for the unbound local.  The result pairs
    the guess with the cursor of the oracle after the call. *)
Definition second_guess (hash : ascii -> nat) (rnd : nat -> nat)
    (cursor : nat) (self : Guesser) (filtered : list str) : res (str * nat) :=
  let many := 2 <? length (_misplaced_letters self) in
  let sorted_letters :=
    if many then None else Some (sorted_letters_of hash filtered) in
  let second_guess_list :=
    if many
    then filter (has_all_misplaced (_misplaced_letters self)) filtered
    else filter (avoids (first_guess_letters self)) filtered in
  match second_guess_list with
  | guess :: _ => Ok (guess, cursor)
  | [] =>
      match sorted_letters with
      | None => Raise (UnboundLocalError "sorted_letters")
      | Some letters =>
          let probe :=
            assemble_probe (first_guess_letters self) letters [] [] in
          if length probe <? 5
          then word <- choice rnd cursor filtered ;; Ok (word, S cursor)
          else Ok (probe, cursor)
      end
  end.

(** [self._correct_positions.index('')]. *)
Fixpoint index_empty (cp : list (option ascii)) : option nat :=
  match cp with
  | [] => None
  | None :: _ => Some 0
  | Some _ :: rest => option_map S (index_empty rest)
  end.

(** [self._correct_positions.count('')]. *)
Definition count_empty (cp : list (option ascii)) : nat :=
  length (filter (fun o => match o with None => true | Some _ => false end) cp).

(** [word[i] for word in words]. *)
Fixpoint letters_at (i : nat) (words : list str) : res (list ascii) :=
  match words with
  | [] => Ok []
  | word :: rest =>
      c <- str_get word i ;;
      l <- letters_at i rest ;;
      Ok (c :: l)
  end.

Definition alphabet : str := s "abcdefghijklmnopqrstuvwxyz".

(** [while len(guessie) < 5: guessie.append(choice(alphabet))], entered with
    [n = 5 - len(guessie)]. *)
Fixpoint pad_random (rnd : nat -> nat) (cursor : nat) (n : nat)
    (guessie : list ascii) : res (list ascii * nat) :=
  match n with
  | O => Ok (guessie, cursor)
  | S n' =>
      c <- choice rnd cursor alphabet ;;
      pad_random rnd (S cursor) n' (guessie ++ [c])
  end.

(** The branch for a single unresolved position. *)
Definition single_missing (hash : ascii -> nat) (rnd : nat -> nat)
    (cursor : nat) (self : Guesser) (filtered : list str) : res (str * nat) :=
  match index_empty (_correct_positions self) with
  | None => Raise (ValueError "'' is not in list")
  | Some missing_position =>
      letters <- letters_at missing_position filtered ;;
      let guessie := set_iter hash letters in
      p <- pad_random rnd cursor (5 - length guessie) guessie ;;
      Ok (firstn 5 (fst p), snd p)
  end.

(** [sum(a != b for a, b in zip(word, other_word))]. *)
Fixpoint mismatches (a b : str) : nat :=
  match a, b with
  | x :: a', y :: b' => (if Ascii.eqb x y then 0 else 1) + mismatches a' b'
  | _, _ => 0
  end.

Definition word_score (filtered : list str) (word : str) : nat :=
  length (filter (fun other_word => mismatches word other_word =? 1) filtered).

(** [max(word_scores, key=word_scores.get)] continued from a current best:
    a later key wins only with a strictly larger score. *)
Fixpoint max_from (scores : list (str * nat)) (best : str) (best_score : nat)
  : str :=
  match scores with
  | [] => best
  | (word, score) :: rest =>
      if best_score <? score then max_from rest word score
      else max_from rest best best_score
  end.

Definition best_split (filtered : list str) : option str :=
  match map (fun word => (word, word_score filtered word)) (dedup_str filtered)
  with
  | [] => None
  | (word, score) :: rest => Some (max_from rest word score)
  end.

(** The dispatch on the turn, lines 144-213. *)
Definition select (hash : ascii -> nat) (rnd : nat -> nat) (cursor : nat)
    (self : Guesser) (filtered : list str) : res (str * nat) :=
  if guess_count self =? 1 then second_guess hash rnd cursor self filtered
  else if (count_empty (_correct_positions self) =? 1)
          && (3 <? length filtered) && (guess_count self <? 6)
  then single_missing hash rnd cursor self filtered
  else
    match best_split filtered with
    | Some guess => Ok (guess, cursor)
    | None => word <- choice rnd cursor filtered ;; Ok (word, S cursor)
    end.

(** ** The anti-repeat loop and [get_guess] (guesser.py, lines 97-227) *)

(** [while guess in self._tried: guess = choice(filtered_word_list)].  Each
    iteration costs one unit of fuel; [filtered] is [None] when the local
    [filtered_word_list] was never bound (the first call of a game). *)
Fixpoint anti_repeat (fuel : nat) (rnd : nat -> nat) (cursor : nat)
    (tried : list str) (filtered : option (list str)) (guess : str)
  : option (res str) :=
  if str_mem guess tried then
    match fuel with
    | O => None
    | S fuel' =>
        match filtered with
        | None => Some (Raise (UnboundLocalError "filtered_word_list"))
        | Some words =>
            match choice rnd cursor words with
            | Raise e => Some (Raise e)
            | Ok guess' =>
                anti_repeat fuel' rnd (S cursor) tried filtered guess'
            end
        end
    end
  else Some (Ok guess).

(** [self._tried[-1]]. *)
Fixpoint last_tried (tried : list str) : option str :=
  match tried with
  | [] => None
  | [w] => Some w
  | _ :: rest => last_tried rest
  end.

(** What a call leaves behind: its result and the object, or no answer within
    the fuel given. *)
Inductive outcome : Type :=
| Finished (r : res str) (self : Guesser)
| OutOfFuel.

(** Lines 107-213: the object after the feedback was processed, and either
    the exception raised or the guess picked, the oracle's cursor and the
    local [filtered_word_list] if bound. *)
Definition pick (hash : ascii -> nat) (rnd : nat -> nat) (self : Guesser)
    (result : str) : Guesser * res (str * nat * option (list str)) :=
  match last_tried (_tried self) with
  | None => (self, Ok (first_guess self, 0, None))
  | Some last_guess =>
      if negb (length last_guess =? 5)
      then (self, Raise (ValueError "Last guess must be a 5-letter word"))
      else
        match process_feedback last_guess self 0 result with
        | (self', Some e) => (self', Raise e)
        | (self', None) =>
            (self',
             filtered <- filtered_word_list self' ;;
             p <- select hash rnd 0 self' filtered ;;
             Ok (fst p, snd p, Some filtered))
        end
  end.

(** [get_guess(result)].  [input] is what the console returns in manual
    mode. *)
Definition get_guess (fuel : nat) (hash : ascii -> nat) (rnd : nat -> nat)
    (input : str) (self : Guesser) (result : str) : outcome :=
  if str_eqb (_manual self) (s "manual") then Finished (Ok input) self
  else
    match pick hash rnd self result with
    | (self', Raise e) => Finished (Raise e) self'
    | (self', Ok (guess, cursor, filtered)) =>
        match anti_repeat fuel rnd cursor (_tried self') filtered guess with
        | None => OutOfFuel
        | Some (Raise e) => Finished (Raise e) self'
        | Some (Ok guess') => Finished (Ok guess') (record_guess self' guess')
        end
    end.

(** ** Predicates used in the statements *)

(** The four conditions of the candidate filter, as the specification words
    them: no invalid letter, every confirmed position matched, no misplaced
    letter at a position recorded for it, every misplaced letter present. *)
Definition qualifies (self : Guesser) (w : str) : Prop :=
  (forall c, In c (_invalid_letters self) -> ~ In c w) /\
  (forall i c, nth_error (_correct_positions self) i = Some (Some c) ->
               nth_error w i = Some c) /\
  (forall L ps p, dict_find L (_misplaced_letters self) = Some ps ->
                  In p ps -> nth_error w p <> Some L) /\
  (forall L, In L (dict_keys (_misplaced_letters self)) -> In L w).

(** The filter without its exceptions, for words and positions in range. *)
Definition contradicts_b (cp : list (option ascii)) (w : str)
    (positions : list nat) : bool :=
  existsb (fun i =>
             match nth_error cp i, nth_error w i with
             | Some (Some c), Some d => negb (Ascii.eqb d c)
             | _, _ => false
             end) positions.

Definition keepsb (self : Guesser) (w : str) : bool :=
  negb (existsb (fun letter => mem letter w) (_invalid_letters self))
  && negb (contradicts_b (_correct_positions self) w (seq 0 5))
  && negb (at_excluded_position (_misplaced_letters self) 0 w)
  && has_all_misplaced (_misplaced_letters self) w.

(** The distinct letters of a word list. *)
Definition letters_of (words : list str) (letters : list ascii) : Prop :=
  NoDup letters /\
  forall c, In c letters <-> exists w, In w words /\ In c w.

(** The dictionary and the object as the data model has them. *)
Definition five_letter_words (words : list str) : Prop :=
  Forall (fun w => length w = 5) words.

Definition five_positions (self : Guesser) : Prop :=
  length (_correct_positions self) = 5.

(** The states an engine goes through: built by [__init__] from a word list,
    then any number of [restart_game] and [get_guess] calls; [ok g result]
    says which feedback [result] a call on the state [g] may be given.  A
    call that raises still leaves its object behind. *)
Inductive reachable (ok : Guesser -> str -> Prop) (manual : str)
    (words : list str) : Guesser -> Prop :=
| reach_init g :
    init manual words = Ok g -> reachable ok manual words g
| reach_restart g :
    reachable ok manual words g -> reachable ok manual words (restart_game g)
| reach_call g fuel hash rnd input result r g' :
    reachable ok manual words g -> ok g result ->
    get_guess fuel hash rnd input g result = Finished r g' ->
    reachable ok manual words g'.

Definition any_feedback (g : Guesser) (result : str) : Prop := True.

Definition five_symbols (g : Guesser) (result : str) : Prop :=
  length result = 5.

(** Modelled from the spec: the game that compares a guess with the hidden
    word and produces the feedback string is not part of the sources.
    [consistent target guess result] says that [result] is feedback on
    [guess] that a game with the hidden word [target] can give.
    A position carries a letter symbol (exact match) exactly when the guess
    has the target's letter there; "-" says the letter occurs in the target,
    elsewhere; "+" says the letter does not occur in the target, or, for a
    letter the guess repeats, that another occurrence of it in the guess is
    marked exact or "-", whether that occurrence comes before or after.
    Symbols of no kind, which the update does not read, may stand where the
    letters differ. *)
Definition consistent (target guess result : str) : Prop :=
  length result = length guess /\
  forall i char c,
    nth_error result i = Some char -> nth_error guess i = Some c ->
    (isalpha char = true <-> nth_error target i = Some c) /\
    (char = "-"%char -> In c target /\ nth_error target i <> Some c) /\
    (char = "+"%char ->
     In c target ->
     exists j char',
       nth_error guess j = Some c /\ nth_error result j = Some char' /\
       (isalpha char' = true \/ char' = "-"%char)).

(** Feedback consistent with [target] for the guess made last, if any. *)
Definition consistent_with (target : str) (g : Guesser) (result : str)
  : Prop :=
  forall last, last_tried (_tried g) = Some last ->
               consistent target last result.

(** A letter of [target] that the object holds both in [_invalid_letters]
    and as a key of [_misplaced_letters]: the filter then asks of a word
    both to contain the letter and not to contain it. *)
Definition blocked (target : str) (self : Guesser) : Prop :=
  exists c, In c target /\ In c (_invalid_letters self) /\
            In c (dict_keys (_misplaced_letters self)).

(** A letter of [target] found in [_invalid_letters] is one that the update
    cannot clear any more: it is also a key of [_misplaced_letters], and
    [guess] has it at no position where the target has it. *)
Definition invalid_but_present (target guess : str) (self : Guesser) : Prop :=
  forall c, In c (_invalid_letters self) -> In c target ->
            In c (dict_keys (_misplaced_letters self)) /\
            forall p, nth_error guess p = Some c ->
                      nth_error target p <> Some c.

(** What the object holds in a game on [target]: the confirmed letters are
    the target's, and a letter of the target is invalid only in the way of
    [invalid_but_present], for the guess made last. *)
Definition tracks (target : str) (self : Guesser) : Prop :=
  (forall c, In c (_invalid_letters self) -> In c target ->
             exists last, last_tried (_tried self) = Some last) /\
  (forall last, last_tried (_tried self) = Some last ->
                invalid_but_present target last self) /\
  (forall i c, nth_error (_correct_positions self) i = Some (Some c) ->
               nth_error target i = Some c) /\
  five_positions self.

(** [b] knows at least what [a] knows. *)
Definition knows_more (a b : Guesser) : Prop :=
  incl (_invalid_letters a) (_invalid_letters b) /\
  (forall i c, nth_error (_correct_positions a) i = Some (Some c) ->
               nth_error (_correct_positions b) i = Some (Some c)) /\
  (forall L ps p, dict_find L (_misplaced_letters a) = Some ps -> In p ps ->
                  exists ps', dict_find L (_misplaced_letters b) = Some ps' /\
                              In p ps') /\
  incl (dict_keys (_misplaced_letters a)) (dict_keys (_misplaced_letters b)).

(** A letter held by [_correct_positions] is not in [_invalid_letters]. *)
Definition correct_not_invalid (self : Guesser) : Prop :=
  forall c, in_correct c (_correct_positions self) = true ->
            ~ In c (_invalid_letters self).

(** Conditions (c) and (d) of the filter alone. *)
Definition misplaced_compatible (self : Guesser) (w : str) : Prop :=
  (forall L ps p, dict_find L (_misplaced_letters self) = Some ps ->
                  In p ps -> nth_error w p <> Some L) /\
  (forall L, In L (dict_keys (_misplaced_letters self)) -> In L w).

Definition auto_mode (self : Guesser) : Prop :=
  str_eqb (_manual self) (s "manual") = false.

(** What holds in the middle of a turn, when the symbols of [result] before
    index [k] have been processed from the state [st0]: an invalid letter
    that occurs in the target was marked exact at none of the positions
    read so far, and was invalid at [st0] or got a "+" since; the confirmed
    letters are the target's; nothing known at [st0] was lost; the symbols
    already read left their mark. *)
Definition turn_inv (target guess result : str) (st0 : Guesser) (k : nat)
    (st : Guesser) : Prop :=
  (forall c, In c (_invalid_letters st) -> In c target ->
             (forall j char, j < k -> nth_error guess j = Some c ->
                             nth_error result j = Some char ->
                             isalpha char = false) /\
             (In c (_invalid_letters st0) \/
              exists i, i < k /\ nth_error guess i = Some c /\
                        nth_error result i = Some "+"%char)) /\
  (forall i c, nth_error (_correct_positions st) i = Some (Some c) ->
               nth_error target i = Some c) /\
  five_positions st /\
  knows_more st0 st /\
  (forall j c, j < k -> nth_error guess j = Some c ->
               nth_error result j = Some "-"%char ->
               In c (dict_keys (_misplaced_letters st))) /\
  (forall j c char, j < k -> nth_error guess j = Some c ->
                    nth_error result j = Some char -> isalpha char = true ->
                    nth_error (_correct_positions st) j = Some (Some c)).

(** Two objects hold the same constraints. *)
Definition same_knowledge (a b : Guesser) : Prop :=
  _invalid_letters a = _invalid_letters b /\
  _correct_positions a = _correct_positions b /\
  _misplaced_letters a = _misplaced_letters b.

(** Fields that feedback processing never writes. *)
Definition same_frame (a b : Guesser) : Prop :=
  word_list a = word_list b /\ _manual a = _manual b /\
  _tried a = _tried b /\ first_guess a = first_guess b /\
  guess_count a = guess_count b /\
  first_guess_letters a = first_guess_letters b.

(** Feedback whose symbols are all letters: every position marked exact. *)
Definition all_exact (result : str) : Prop :=
  Forall (fun char => isalpha char = true) result.

(** The message of the only explicit [raise] of the class. *)
Definition last_guess_error : exn :=
  ValueError "Last guess must be a 5-letter word".

(** ** A small game used for the examples

    Five words; [analysis] gives "crate" on them.  [demo_fresh] is the
    engine as [__init__] builds it in auto mode, [demo_first] the engine
    after its first [get_guess] call, [demo_second] the engine after the
    feedback "+++++" was answered by the guess "fuzzy". *)
Definition demo_words : list str :=
  map s ["crane"; "crate"; "trace"; "caret"; "fuzzy"]%string.

Definition demo_fresh : Guesser :=
  mkGuesser demo_words (s "auto") [] (s "crate") [] (repeat None 5) [] 0
    (s "crate").

Definition demo_first : Guesser := record_guess demo_fresh (s "crate").

Definition demo_second : Guesser :=
  mkGuesser demo_words (s "auto") [s "crate"; s "fuzzy"] (s "crate")
    (s "crate") (repeat None 5) [] 2 (s "crate").

(** [demo_second] once the feedback "+++-+" on "fuzzy" was processed. *)
Definition demo_stuck : Guesser :=
  mkGuesser demo_words (s "auto") [s "crate"; s "fuzzy"] (s "crate")
    (s "cratefuzy") (repeat None 5) [("z"%char, [3])] 2 (s "crate").

(** A one-word game: [analysis] gives "a" on it. *)
Definition tiny_words : list str := [s "aaaaa"].

Definition tiny_fresh : Guesser :=
  mkGuesser tiny_words (s "auto") [] (s "a") [] (repeat None 5) [] 0 (s "a").

Definition tiny_first : Guesser := record_guess tiny_fresh (s "a").

(** A three-word game: [analysis] gives "anple", which is not a word of the
    list.  [probe_first] is the engine after returning it as first guess. *)
Definition probe_words : list str := map s ["apple"; "angle"; "ample"]%string.

Definition probe_fresh : Guesser :=
  mkGuesser probe_words (s "auto") [] (s "anple") [] (repeat None 5) [] 0
    (s "anple").

Definition probe_first : Guesser := record_guess probe_fresh (s "anple").


(** [demo_first] once the feedback "-----" was processed. *)
Definition demo_scrambled : Guesser :=
  mkGuesser demo_words (s "auto") [s "crate"] (s "crate") []
    (repeat None 5)
    [("c"%char, [0]); ("r"%char, [1]); ("a"%char, [2]); ("t"%char, [3]);
     ("e"%char, [4])]
    1 (s "crate").

Definition demo_hash (c : ascii) : nat := nat_of_ascii c.

Definition demo_rnd (n : nat) : nat := n.

(** A game with a repeated letter.  On these seven words [analysis] gives
    "craet".  [twin_second] is the engine after "craet" got the feedback
    "+++++" and was answered by "fuzzy"; [twin_blocked] is [twin_second]
    once the feedback "+++-+" on "fuzzy" was processed. *)
Definition twin_words : list str :=
  map s ["crate"; "trace"; "caret"; "react"; "fuzzy"; "zooms"; "gizmo"]%string.

Definition twin_fresh : Guesser :=
  mkGuesser twin_words (s "auto") [] (s "craet") [] (repeat None 5) [] 0
    (s "craet").

Definition twin_first : Guesser := record_guess twin_fresh (s "craet").

Definition twin_second : Guesser :=
  mkGuesser twin_words (s "auto") [s "craet"; s "fuzzy"] (s "craet")
    (s "craet") (repeat None 5) [] 2 (s "craet").

Definition twin_blocked : Guesser :=
  mkGuesser twin_words (s "auto") [s "craet"; s "fuzzy"] (s "craet")
    (s "craetfuzy") (repeat None 5) [("z"%char, [3])] 2 (s "craet").

(** ** Further predicates *)

(** A feedback symbol that no branch of the update reads. *)
Definition ignored_symbol (char : ascii) : Prop :=
  isalpha char = false /\ char <> "-"%char /\ char <> "+"%char.

(** A feedback symbol that makes the update index the previous guess. *)
Definition read_symbol (char : ascii) : Prop :=
  isalpha char = true \/ char = "-"%char \/ char = "+"%char.

(** Words on which [word[i]] is defined for the five positions. *)
Definition long_words (words : list str) : Prop :=
  Forall (fun w => 5 <= length w) words.

(** The fields set once by [__init__] and never written again. *)
Definition same_setup (a b : Guesser) : Prop :=
  word_list a = word_list b /\ _manual a = _manual b /\
  first_guess a = first_guess b /\
  first_guess_letters a = first_guess_letters b.

(** [demo_first] once the feedback "c++++" was processed. *)
Definition demo_confirmed : Guesser :=
  mkGuesser demo_words (s "auto") [s "crate"] (s "crate") (s "rate")
    [Some "c"%char; None; None; None; None] [] 1 (s "crate").

(** Position [p] is recorded for the letter [L] in a misplaced-letter
    dictionary. *)
Definition recorded (m : dict (list nat)) (L : ascii) (p : nat) : Prop :=
  exists ps, dict_find L m = Some ps /\ In p ps.

(** The example game after the feedback "-ra-e" (consistent with the hidden
    word "trace") was answered by the guess "trace". *)
Definition demo_traced : Guesser :=
  mkGuesser demo_words (s "auto") [s "crate"; s "trace"] (s "crate") []
    [None; Some "r"%char; Some "a"%char; None; Some "e"%char]
    [("c"%char, [0]); ("t"%char, [3])] 2 (s "crate").

(** Every constraint held by the object speaks of a letter of one of the
    guesses in [tried], at the position it names. *)
Definition from_guesses (tried : list str) (self : Guesser) : Prop :=
  (forall c, In c (_invalid_letters self) ->
             exists w, In w tried /\ In c w) /\
  (forall i c, nth_error (_correct_positions self) i = Some (Some c) ->
               exists w, In w tried /\ nth_error w i = Some c) /\
  (forall L p, recorded (_misplaced_letters self) L p ->
               exists w, In w tried /\ nth_error w p = Some L).

(** ** Basic facts about the primitives *)

Ltac frame_fields := unfold same_frame; simpl; repeat split; reflexivity.

(** [consistent] on given words of five letters, position by position; a "+"
    on a letter of the target is justified by the first position found. *)
Ltac justify_at j :=
  exists j; eexists;
  split; [reflexivity |];
  split; [reflexivity | first [left; reflexivity | right; reflexivity]].

Ltac consistent_symbol :=
  split;
  [split; intros H; vm_compute in H |- *;
   first [discriminate H | reflexivity]
  |split;
   [intros H; first [discriminate H
                    |split; [vm_compute; tauto | vm_compute; discriminate]]
   |intros H Hin;
    first [discriminate H
          |exfalso; vm_compute in Hin; intuition discriminate
          |justify_at 0 | justify_at 1 | justify_at 2 | justify_at 3
          |justify_at 4]]].

Ltac consistent_words :=
  split; [reflexivity |];
  let i := fresh "i" in
  let char := fresh "char" in
  let c := fresh "c" in
  let Hr := fresh "Hr" in
  let Hg := fresh "Hg" in
  intros i char c Hr Hg;
  do 5 (destruct i as [|i];
        [vm_compute in Hr, Hg; injection Hr as <-; injection Hg as <-;
         consistent_symbol
        |]);
  destruct i; discriminate.

(** The characters above U+007F that [isalpha] accepts, by code point. *)
Lemma isalpha_above_ascii :
  filter (fun n => isalpha (ascii_of_nat n)) (seq 128 128)
  = [170; 181; 186] ++ seq 192 23 ++ seq 216 31 ++ seq 248 8.
Proof. vm_compute. reflexivity. Qed.

Lemma mem_In (c : ascii) (l : list ascii) : mem c l = true <-> In c l.
Proof.
  unfold mem. rewrite existsb_exists. split.
  - intros [d [Hd He]]. apply Ascii.eqb_eq in He. now subst.
  - intros H. exists c. split; [assumption | apply Ascii.eqb_refl].
Qed.

Lemma mem_false (c : ascii) (l : list ascii) : mem c l = false <-> ~ In c l.
Proof.
  rewrite <- mem_In. destruct (mem c l); split; congruence.
Qed.

Lemma str_eqb_eq (a b : str) : str_eqb a b = true <-> a = b.
Proof.
  revert b. induction a as [|x a IH]; intros [|y b]; simpl;
    try (split; congruence).
  rewrite andb_true_iff, Ascii.eqb_eq, IH. split.
  - intros [-> ->]. reflexivity.
  - intros H. injection H. auto.
Qed.

Lemma str_eqb_refl (a : str) : str_eqb a a = true.
Proof. now apply str_eqb_eq. Qed.

Lemma str_mem_In (w : str) (l : list str) : str_mem w l = true <-> In w l.
Proof.
  unfold str_mem. rewrite existsb_exists. split.
  - intros [v [Hv He]]. apply str_eqb_eq in He. now subst.
  - intros H. exists w. split; [assumption | apply str_eqb_refl].
Qed.

Lemma in_pos (i : nat) (ps : list nat) :
  existsb (Nat.eqb i) ps = true <-> In i ps.
Proof.
  rewrite existsb_exists. split.
  - intros [j [Hj He]]. apply Nat.eqb_eq in He. now subst.
  - intros H. exists i. split; [assumption | apply Nat.eqb_refl].
Qed.

Lemma dict_mem_keys {V : Type} (k : ascii) (d : dict V) :
  dict_mem k d = true <-> In k (dict_keys d).
Proof.
  unfold dict_mem, dict_keys.
  induction d as [|[k' v] d IH]; simpl.
  - split; [discriminate | tauto].
  - destruct (Ascii.eqb k k') eqn:E.
    + apply Ascii.eqb_eq in E. subst. tauto.
    + rewrite IH. split; [tauto |].
      intros [H | H]; [| assumption].
      subst. rewrite Ascii.eqb_refl in E. discriminate.
Qed.

(** ** The candidate filter *)

Lemma contradicts_correct_total (cp : list (option ascii)) (w : str)
    (positions : list nat) :
  Forall (fun i => i < length cp /\ i < length w) positions ->
  contradicts_correct cp w positions = Ok (contradicts_b cp w positions).
Proof.
  induction 1 as [|i rest [Hc Hw] _ IH]; [reflexivity |].
  unfold contradicts_b in *. simpl.
  apply nth_error_Some in Hc. apply nth_error_Some in Hw.
  destruct (nth_error cp i) as [[c|]|] eqn:Ec; try congruence; [| exact IH].
  unfold str_get.
  destruct (nth_error w i) as [d|] eqn:Ew; try congruence. simpl.
  destruct (Ascii.eqb d c); simpl; [exact IH | reflexivity].
Qed.

Lemma contradicts_b_spec (cp : list (option ascii)) (w : str) :
  length cp = 5 -> length w = 5 ->
  contradicts_b cp w (seq 0 5) = false <->
  (forall i c, nth_error cp i = Some (Some c) -> nth_error w i = Some c).
Proof.
  intros Hcp Hw. unfold contradicts_b. split.
  - intros H i c Hi.
    assert (Hlt : i < 5).
    { rewrite <- Hcp. apply nth_error_Some. congruence. }
    assert (Hin : In i (seq 0 5)) by (apply in_seq; lia).
    destruct (nth_error w i) as [d|] eqn:Ew.
    + destruct (Ascii.eqb d c) eqn:E.
      * apply Ascii.eqb_eq in E. now subst.
      * exfalso.
        assert (Ht : existsb
                 (fun i => match nth_error cp i, nth_error w i with
                           | Some (Some c), Some d => negb (Ascii.eqb d c)
                           | _, _ => false
                           end) (seq 0 5) = true).
        { apply existsb_exists. exists i. split; [assumption |].
          rewrite Hi, Ew, E. reflexivity. }
        congruence.
    + exfalso. apply nth_error_None in Ew. lia.
  - intros H.
    destruct (existsb _ (seq 0 5)) eqn:E; [| reflexivity].
    apply existsb_exists in E. destruct E as [i [_ Hi]].
    destruct (nth_error cp i) as [[c|]|] eqn:Ec; try discriminate.
    rewrite (H i c Ec) in Hi. rewrite Ascii.eqb_refl in Hi. discriminate.
Qed.

Lemma at_excluded_position_spec (m : dict (list nat)) (w : str) (k : nat) :
  at_excluded_position m k w = true <->
  exists i L ps, nth_error w i = Some L /\ dict_find L m = Some ps /\
                 In (k + i) ps.
Proof.
  revert k. induction w as [|letter rest IH]; intros k; simpl.
  - split; [discriminate |].
    intros [i [L [ps [H _]]]]. destruct i; discriminate.
  - rewrite orb_true_iff, IH. split.
    + intros [H | [i [L [ps [H1 [H2 H3]]]]]].
      * destruct (dict_find letter m) as [ps|] eqn:E; [| discriminate].
        exists 0, letter, ps. rewrite Nat.add_0_r.
        repeat split; try assumption. now apply in_pos.
      * exists (S i), L, ps. repeat split; try assumption.
        now rewrite Nat.add_succ_r.
    + intros [[|i] [L [ps [H1 [H2 H3]]]]].
      * left. simpl in H1. injection H1 as ->. rewrite H2.
        apply in_pos. now rewrite Nat.add_0_r in H3.
      * right. exists i, L, ps. repeat split; try assumption.
        now rewrite Nat.add_succ_r in H3.
Qed.

Lemma keepsb_qualifies (self : Guesser) (w : str) :
  five_positions self -> length w = 5 ->
  keepsb self w = true <-> qualifies self w.
Proof.
  intros Hcp Hw. unfold keepsb, qualifies, has_all_misplaced.
  rewrite !andb_true_iff, !negb_true_iff, forallb_forall.
  rewrite (contradicts_b_spec _ _ Hcp Hw).
  split.
  - intros [[[Ha Hb] Hc] Hd]. repeat split.
    + intros c Hc1 Hc2.
      assert (Ht : existsb (fun letter => mem letter w)
                     (_invalid_letters self) = true).
      { apply existsb_exists. exists c. split; [assumption |].
        now apply mem_In. }
      congruence.
    + exact Hb.
    + intros L ps p HL Hp Hn.
      assert (Ht : at_excluded_position (_misplaced_letters self) 0 w = true).
      { apply at_excluded_position_spec. exists p, L, ps. auto. }
      congruence.
    + intros L HL. apply mem_In. now apply Hd.
  - intros [Ha [Hb [Hc Hd]]]. repeat split.
    + destruct (existsb _ (_invalid_letters self)) eqn:E; [| reflexivity].
      apply existsb_exists in E. destruct E as [c [Hc1 Hc2]].
      apply mem_In in Hc2. exfalso. exact (Ha c Hc1 Hc2).
    + exact Hb.
    + destruct (at_excluded_position _ 0 w) eqn:E; [| reflexivity].
      apply at_excluded_position_spec in E.
      destruct E as [i [L [ps [H1 [H2 H3]]]]].
      exfalso. exact (Hc L ps i H2 H3 H1).
    + intros L HL. apply mem_In. now apply Hd.
Qed.

Lemma keeps_total (self : Guesser) (w : str) :
  five_positions self -> length w = 5 ->
  keeps self w = Ok (keepsb self w).
Proof.
  intros Hcp Hw. unfold keeps, keepsb.
  destruct (existsb _ (_invalid_letters self)); [reflexivity |].
  rewrite contradicts_correct_total.
  - unfold bind.
    destruct (contradicts_b (_correct_positions self) w (seq 0 5));
      [reflexivity |].
    destruct (at_excluded_position (_misplaced_letters self) 0 w);
      reflexivity.
  - apply Forall_forall. intros i Hi. apply in_seq in Hi.
    unfold five_positions in Hcp. lia.
Qed.

Lemma filter_words_total (self : Guesser) (words : list str) :
  five_positions self -> five_letter_words words ->
  filter_words self words = Ok (filter (keepsb self) words).
Proof.
  intros Hcp Hws. induction Hws as [|w rest Hw _ IH]; [reflexivity |].
  simpl. rewrite (keeps_total _ _ Hcp Hw). unfold bind at 1.
  rewrite IH. reflexivity.
Qed.

(** C1: on a dictionary of five-letter words, the candidate list computed
    from an engine state is the dictionary filtered, in dictionary order, by
    a test that holds of a word exactly when the word has no invalid letter,
    agrees with every confirmed position, has no misplaced letter at a
    position recorded for it and contains every misplaced letter. *)
Theorem filtered_word_list_exact (self : Guesser) :
  five_positions self -> five_letter_words (word_list self) ->
  exists keep : str -> bool,
    filtered_word_list self = Ok (filter keep (word_list self)) /\
    (forall w, In w (word_list self) ->
               (keep w = true <-> qualifies self w)) /\
    (forall w, In w (filter keep (word_list self)) <->
               In w (word_list self) /\ qualifies self w).
Proof.
  intros Hcp Hws. exists (keepsb self).
  assert (Hk : forall w, In w (word_list self) ->
                         (keepsb self w = true <-> qualifies self w)).
  { intros w Hw. apply keepsb_qualifies; [assumption |].
    unfold five_letter_words in Hws. rewrite Forall_forall in Hws. auto. }
  split; [now apply filter_words_total |].
  split; [exact Hk |].
  intros w. rewrite filter_In. split.
  - intros [H1 H2]. split; [assumption | now apply Hk].
  - intros [H1 H2]. split; [assumption | now apply Hk].
Qed.

(** ** What a call changes *)

Lemma same_frame_refl (a : Guesser) : same_frame a a.
Proof. unfold same_frame. tauto. Qed.

Lemma same_frame_trans (a b c : Guesser) :
  same_frame a b -> same_frame b c -> same_frame a c.
Proof.
  unfold same_frame. intros H1 H2.
  decompose [and] H1. decompose [and] H2. repeat split; congruence.
Qed.

Lemma feedback_char_frame (last_guess : str) (self self' : Guesser) (i : nat)
    (char : ascii) :
  feedback_char last_guess self i char = Ok self' -> same_frame self self'.
Proof.
  unfold feedback_char, str_get, bind.
  destruct (isalpha char).
  - destruct (nth_error last_guess i); [| discriminate].
    destruct (i <? length (_correct_positions self)); [| discriminate].
    match goal with |- context [if ?b then _ else _] => destruct b end;
      intros H; injection H as <-; frame_fields.
  - destruct (Ascii.eqb char "-").
    + destruct (nth_error last_guess i); [| discriminate].
      intros H; injection H as <-; frame_fields.
    + destruct (Ascii.eqb char "+").
      * destruct (nth_error last_guess i); [| discriminate].
        match goal with |- context [if ?b then _ else _] => destruct b end;
          intros H; injection H as <-; frame_fields.
      * intros H; injection H as <-; frame_fields.
Qed.

Lemma process_feedback_frame (last_guess : str) (result : str) :
  forall (self : Guesser) (i : nat),
    same_frame self (fst (process_feedback last_guess self i result)).
Proof.
  induction result as [|char rest IH]; intros self i; simpl.
  - apply same_frame_refl.
  - destruct (feedback_char last_guess self i char) as [self'|e] eqn:E.
    + apply same_frame_trans with self'.
      * eapply feedback_char_frame; eassumption.
      * apply IH.
    + apply same_frame_refl.
Qed.

Lemma pick_frame (hash : ascii -> nat) (rnd : nat -> nat) (self : Guesser)
    (result : str) :
  same_frame self (fst (pick hash rnd self result)).
Proof.
  unfold pick.
  destruct (last_tried (_tried self)) as [last_guess|];
    [| apply same_frame_refl].
  destruct (negb (length last_guess =? 5)); [apply same_frame_refl |].
  pose proof (process_feedback_frame last_guess result self 0) as H.
  destruct (process_feedback last_guess self 0 result) as [self' [e|]];
    exact H.
Qed.

(** A call that returns in auto mode appends its guess and counts it. *)
Lemma get_guess_records (fuel : nat) (hash : ascii -> nat) (rnd : nat -> nat)
    (input : str) (self self' : Guesser) (result guess : str) :
  auto_mode self ->
  get_guess fuel hash rnd input self result = Finished (Ok guess) self' ->
  _tried self' = _tried self ++ [guess] /\
  guess_count self' = guess_count self + 1.
Proof.
  unfold auto_mode, get_guess. intros ->.
  pose proof (pick_frame hash rnd self result) as Hf.
  destruct (pick hash rnd self result) as [self1 [[[g cursor] filtered]|e]];
    [| discriminate].
  destruct (anti_repeat fuel rnd cursor (_tried self1) filtered g)
    as [[g'|e]|]; try discriminate.
  intros H. injection H as <- <-.
  destruct Hf as (_ & _ & Ht & _ & Hc & _). simpl in *.
  rewrite Ht, Hc. split; reflexivity.
Qed.

(** Whatever way a call ends, counter and history stay in step. *)
Lemma get_guess_in_step (fuel : nat) (hash : ascii -> nat) (rnd : nat -> nat)
    (input : str) (self self' : Guesser) (result : str) (r : res str) :
  guess_count self = length (_tried self) ->
  get_guess fuel hash rnd input self result = Finished r self' ->
  guess_count self' = length (_tried self').
Proof.
  unfold get_guess. intros Hinv.
  destruct (str_eqb (_manual self) (s "manual")).
  { intros H. injection H as _ <-. exact Hinv. }
  pose proof (pick_frame hash rnd self result) as Hf.
  destruct (pick hash rnd self result) as [self1 [[[g cursor] filtered]|e]].
  - destruct Hf as (_ & _ & Ht & _ & Hc & _). simpl in *.
    destruct (anti_repeat fuel rnd cursor (_tried self1) filtered g)
      as [[g'|e]|]; try discriminate; intros H; injection H as _ <-.
    + simpl. rewrite length_app. simpl. congruence.
    + congruence.
  - destruct Hf as (_ & _ & Ht & _ & Hc & _). simpl in *.
    intros H. injection H as _ <-. congruence.
Qed.

Lemma reachable_in_step (manual : str) (words : list str) (g : Guesser) :
  reachable any_feedback manual words g ->
  guess_count g = length (_tried g).
Proof.
  induction 1 as [g Hi | g _ _ | g fuel hash rnd input result r g' _ IH _ Hc].
  - unfold init, bind in Hi.
    destruct (analysis words); [| discriminate].
    injection Hi as <-. reflexivity.
  - reflexivity.
  - eapply get_guess_in_step; eassumption.
Qed.

(** C10: in every state an engine reaches (after construction, after each
    [get_guess] call, after each [restart_game]) [guess_count] is the length
    of [_tried].  They move together: [__init__] and [restart_game] leave
    the counter at 0 and the history empty, whatever they were, and a call
    in auto mode that returns a guess appends that one guess to the history
    as it was and adds one to the counter as it was. *)
Theorem guess_count_tracks_tried (manual : str) (words : list str)
    (g : Guesser) :
  reachable any_feedback manual words g ->
  guess_count g = length (_tried g) /\
  (forall g0, init manual words = Ok g0 ->
              guess_count g0 = 0 /\ _tried g0 = []) /\
  (guess_count (restart_game g) = 0 /\ _tried (restart_game g) = []) /\
  (forall fuel hash rnd input result guess g',
     auto_mode g ->
     get_guess fuel hash rnd input g result = Finished (Ok guess) g' ->
     _tried g' = _tried g ++ [guess] /\
     guess_count g' = guess_count g + 1 /\
     guess_count g' = length (_tried g')).
Proof.
  intros Hr. pose proof (reachable_in_step manual words g Hr) as Hstep.
  split; [exact Hstep |]. split.
  { intros g0 Hi. unfold init, bind in Hi.
    destruct (analysis words); [| discriminate].
    injection Hi as <-. split; reflexivity. }
  split; [split; reflexivity |].
  intros fuel hash rnd input result guess g' Hauto Hc.
  destruct (get_guess_records fuel hash rnd input g g' result guess Hauto Hc)
    as [Ht Hn].
  split; [exact Ht |]. split; [exact Hn |].
  rewrite Hn, Ht, length_app, Hstep. reflexivity.
Qed.

(** ** The example game *)

Lemma demo_fresh_init : init (s "auto") demo_words = Ok demo_fresh.
Proof. vm_compute. reflexivity. Qed.

Lemma demo_first_call (fuel : nat) (hash : ascii -> nat) (rnd : nat -> nat)
    (input result : str) :
  get_guess fuel hash rnd input demo_fresh result
  = Finished (Ok (s "crate")) demo_first.
Proof. destruct fuel; reflexivity. Qed.

Lemma demo_second_call (fuel : nat) (hash : ascii -> nat) (rnd : nat -> nat)
    (input : str) :
  get_guess fuel hash rnd input demo_first (s "+++++")
  = Finished (Ok (s "fuzzy")) demo_second.
Proof. destruct fuel; vm_compute; reflexivity. Qed.

Lemma demo_first_reachable (ok : Guesser -> str -> Prop) :
  ok demo_fresh [] -> reachable ok (s "auto") demo_words demo_first.
Proof.
  intros Hok.
  apply reach_call with (g := demo_fresh) (fuel := 0) (hash := demo_hash)
    (rnd := demo_rnd) (input := []) (result := []) (r := Ok (s "crate")).
  - apply reach_init. exact demo_fresh_init.
  - exact Hok.
  - apply demo_first_call.
Defined.

Lemma guess_count_tracks_tried_witness :
  reachable any_feedback (s "auto") demo_words demo_first /\
  _tried demo_first = [s "crate"] /\
  guess_count demo_first = length (_tried demo_first) /\
  (guess_count demo_fresh = 0 /\ _tried demo_fresh = []) /\
  (guess_count (restart_game demo_first) = 0 /\
   _tried (restart_game demo_first) = []) /\
  (_tried demo_second = _tried demo_first ++ [s "fuzzy"] /\
   guess_count demo_second = guess_count demo_first + 1 /\
   guess_count demo_second = length (_tried demo_second)).
Proof.
  assert (H : reachable any_feedback (s "auto") demo_words demo_first).
  { apply demo_first_reachable. exact I. }
  split; [exact H |]. split; [reflexivity |].
  destruct (guess_count_tracks_tried (s "auto") demo_words demo_first H)
    as (Hstep & Hinit & Hrestart & Hcall).
  split; [exact Hstep |].
  split; [exact (Hinit demo_fresh demo_fresh_init) |].
  split; [exact Hrestart |].
  exact (Hcall 0 demo_hash demo_rnd [] (s "+++++") (s "fuzzy") demo_second
           eq_refl (demo_second_call 0 demo_hash demo_rnd [])).
Defined.

Lemma filtered_word_list_exact_witness :
  five_positions demo_second /\ five_letter_words (word_list demo_second) /\
  exists keep : str -> bool,
    filtered_word_list demo_second
    = Ok (filter keep (word_list demo_second)) /\
    (forall w, In w (word_list demo_second) ->
               (keep w = true <-> qualifies demo_second w)) /\
    (forall w, In w (filter keep (word_list demo_second)) <->
               In w (word_list demo_second) /\ qualifies demo_second w).
Proof.
  assert (H1 : five_positions demo_second) by reflexivity.
  assert (H2 : five_letter_words (word_list demo_second)).
  { repeat constructor. }
  split; [exact H1 |]. split; [exact H2 |].
  exact (filtered_word_list_exact demo_second H1 H2).
Defined.

Lemma tiny_fresh_init : init (s "auto") tiny_words = Ok tiny_fresh.
Proof. vm_compute. reflexivity. Qed.

Lemma tiny_first_call (fuel : nat) (hash : ascii -> nat) (rnd : nat -> nat)
    (input result : str) :
  get_guess fuel hash rnd input tiny_fresh result
  = Finished (Ok (s "a")) tiny_first.
Proof. destruct fuel; reflexivity. Qed.

(** ** Malformed feedback *)

Lemma list_set_length {A : Type} (l : list A) (i : nat) (v : A) :
  length (list_set l i v) = length l.
Proof.
  revert i. induction l as [|x l IH]; intros [|i]; simpl; auto.
Qed.

Lemma feedback_char_in_range (last_guess : str) (self : Guesser) (i : nat)
    (char : ascii) :
  i < length last_guess -> i < length (_correct_positions self) ->
  exists self', feedback_char last_guess self i char = Ok self' /\
                length (_correct_positions self')
                = length (_correct_positions self).
Proof.
  intros Hl Hc. unfold feedback_char, str_get, bind.
  apply nth_error_Some in Hl.
  destruct (nth_error last_guess i) as [c|]; [| congruence].
  apply Nat.ltb_lt in Hc. rewrite Hc.
  destruct (isalpha char).
  - eexists. split; [reflexivity |].
    match goal with |- context [if ?b then _ else _] => destruct b end;
      simpl; apply list_set_length.
  - destruct (Ascii.eqb char "-").
    + eexists. split; reflexivity.
    + destruct (Ascii.eqb char "+").
      * eexists. split; [reflexivity |].
        match goal with |- context [if ?b then _ else _] => destruct b end;
          reflexivity.
      * eexists. split; reflexivity.
Qed.

(** Feedback that does not run past the previous guess is never rejected. *)
Lemma process_feedback_in_range (last_guess : str) (result : str) :
  forall (self : Guesser) (i : nat),
    i + length result <= length last_guess ->
    i + length result <= length (_correct_positions self) ->
    snd (process_feedback last_guess self i result) = None /\
    length (_correct_positions (fst (process_feedback last_guess self i result)))
    = length (_correct_positions self).
Proof.
  induction result as [|char rest IH]; intros self i Hl Hc; simpl in *.
  - split; reflexivity.
  - destruct (feedback_char_in_range last_guess self i char)
      as [self' [E Hlen]]; try lia.
    rewrite E. rewrite <- Hlen. apply IH; lia.
Qed.

(** C5, as the code has it: what [get_guess] checks on a later call in auto
    mode is the length of the previous guess, not of the feedback.  A previous
    guess whose length is not 5 makes the call raise [ValueError] with the
    object untouched; with a previous guess of length 5, a feedback string of
    at most 5 symbols is processed without any error. *)
Theorem previous_guess_length_checked (fuel : nat) (hash : ascii -> nat)
    (rnd : nat -> nat) (input : str) (self : Guesser) (result last_guess : str) :
  auto_mode self ->
  last_tried (_tried self) = Some last_guess ->
  five_positions self ->
  (length last_guess <> 5 ->
   get_guess fuel hash rnd input self result
   = Finished (Raise last_guess_error) self) /\
  (length last_guess = 5 -> length result <= 5 ->
   snd (process_feedback last_guess self 0 result) = None).
Proof.
  intros Hauto Hlast Hcp. split.
  - intros Hlen. unfold get_guess, pick. rewrite Hauto, Hlast.
    apply Nat.eqb_neq in Hlen. rewrite Hlen. reflexivity.
  - intros Hlen Hres.
    apply process_feedback_in_range; unfold five_positions in Hcp; lia.
Qed.

Lemma previous_guess_length_checked_witness :
  get_guess 0 demo_hash demo_rnd [] tiny_first (s "+++++")
  = Finished (Raise last_guess_error) tiny_first /\
  snd (process_feedback (s "crate") demo_first 0 (s "+")) = None.
Proof.
  split.
  - apply (previous_guess_length_checked 0 demo_hash demo_rnd []
             tiny_first (s "+++++") (s "a")).
    + reflexivity.
    + reflexivity.
    + reflexivity.
    + simpl. lia.
  - apply (previous_guess_length_checked 0 demo_hash demo_rnd []
             demo_first (s "+") (s "crate")).
    + reflexivity.
    + reflexivity.
    + reflexivity.
    + reflexivity.
    + simpl. lia.
Defined.

(** C5 fails as stated: after the first guess "crate", the one-symbol
    feedback "+" is accepted and answered with the guess "fuzzy". *)
Lemma short_feedback_accepted :
  length (s "+") <> 5 /\
  exists g' : Guesser,
    get_guess 0 demo_hash demo_rnd [] demo_first (s "+")
    = Finished (Ok (s "fuzzy")) g'.
Proof.
  split; [simpl; lia |].
  eexists. vm_compute. reflexivity.
Qed.

(** ** An empty candidate list *)

Lemma pick_later (hash : ascii -> nat) (rnd : nat -> nat)
    (self self' : Guesser) (result last_guess : str) :
  last_tried (_tried self) = Some last_guess ->
  length last_guess = 5 ->
  process_feedback last_guess self 0 result = (self', None) ->
  pick hash rnd self result
  = (self',
     filtered <- filtered_word_list self' ;;
     p <- select hash rnd 0 self' filtered ;;
     Ok (fst p, snd p, Some filtered)).
Proof.
  intros Hlast Hlen Hfb. unfold pick.
  rewrite Hlast, Hlen, Hfb. reflexivity.
Qed.

Lemma select_empty (hash : ascii -> nat) (rnd : nat -> nat) (cursor : nat)
    (self : Guesser) :
  ~ (guess_count self = 1 /\ 2 < length (_misplaced_letters self)) ->
  select hash rnd cursor self [] = Raise choice_empty_error.
Proof.
  intros Hno. unfold select.
  destruct (guess_count self =? 1) eqn:E1.
  - apply Nat.eqb_eq in E1. unfold second_guess.
    destruct (2 <? length (_misplaced_letters self)) eqn:E2.
    + apply Nat.ltb_lt in E2. exfalso. apply Hno. split; assumption.
    + reflexivity.
  - simpl. rewrite andb_false_r. reflexivity.
Qed.

(** C3, as the code has it: on a later call in auto mode, when the feedback
    was processed and no dictionary word passes the filter, the call ends
    with the [IndexError] that [random.choice] raises on an empty sequence;
    no guess is returned.  (The case of a second guess with more than two
    misplaced letters is left aside.) *)
Theorem empty_candidates_raise (fuel : nat) (hash : ascii -> nat)
    (rnd : nat -> nat) (input : str) (self self' : Guesser)
    (result last_guess : str) :
  auto_mode self ->
  last_tried (_tried self) = Some last_guess ->
  length last_guess = 5 ->
  process_feedback last_guess self 0 result = (self', None) ->
  filtered_word_list self' = Ok [] ->
  ~ (guess_count self' = 1 /\ 2 < length (_misplaced_letters self')) ->
  get_guess fuel hash rnd input self result
  = Finished (Raise choice_empty_error) self'.
Proof.
  intros Hauto Hlast Hlen Hfb Hempty Hno. unfold get_guess.
  rewrite Hauto.
  rewrite (pick_later hash rnd self self' result last_guess Hlast Hlen Hfb).
  rewrite Hempty.
  unfold bind at 1. rewrite (select_empty hash rnd 0 self' Hno).
  reflexivity.
Qed.

Lemma empty_candidates_raise_witness :
  get_guess 3 demo_hash demo_rnd [] demo_second (s "+++-+")
  = Finished (Raise choice_empty_error) demo_stuck.
Proof.
  apply (empty_candidates_raise 3 demo_hash demo_rnd [] demo_second
           demo_stuck (s "+++-+") (s "fuzzy")).
  - reflexivity.
  - reflexivity.
  - reflexivity.
  - vm_compute. reflexivity.
  - vm_compute. reflexivity.
  - simpl. lia.
Defined.

(** C3 fails as stated: with the feedback "+++-+" on "fuzzy" no word is left,
    and the call does attempt [random.choice] on the empty list. *)
Lemma empty_candidates_choice_attempted :
  filtered_word_list demo_stuck = Ok [] /\
  get_guess 0 demo_hash demo_rnd [] demo_second (s "+++-+")
  = Finished (Raise (IndexError "Cannot choose from an empty sequence"))
      demo_stuck.
Proof. split; vm_compute; reflexivity. Qed.

(** ** Sets and cells *)

Lemma set_add_In (c d : ascii) (l : list ascii) :
  In c (set_add d l) <-> In c l \/ c = d.
Proof.
  unfold set_add. destruct (mem d l) eqn:E.
  - apply mem_In in E. split; [tauto |]. intros [H | ->]; assumption.
  - rewrite in_app_iff. simpl. split; intros [H | H]; auto.
    + destruct H as [H | []]. auto.
Qed.

Lemma set_remove_In (c d : ascii) (l : list ascii) :
  In c (set_remove d l) <-> In c l /\ c <> d.
Proof.
  unfold set_remove. rewrite filter_In, negb_true_iff.
  split; intros [H1 H2]; split; try assumption.
  - intros ->. rewrite Ascii.eqb_refl in H2. discriminate.
  - destruct (Ascii.eqb d c) eqn:E; [| reflexivity].
    apply Ascii.eqb_eq in E. congruence.
Qed.

Lemma nth_error_list_set {A : Type} (l : list A) (i j : nat) (v : A) :
  i < length l ->
  nth_error (list_set l i v) j = if j =? i then Some v else nth_error l j.
Proof.
  revert i j. induction l as [|x l IH]; intros i j Hi; simpl in Hi; [lia |].
  destruct i as [|i]; destruct j as [|j]; simpl; try reflexivity.
  apply IH. lia.
Qed.

Lemma in_correct_spec (c : ascii) (cp : list (option ascii)) :
  in_correct c cp = true <-> In (Some c) cp.
Proof.
  unfold in_correct. rewrite existsb_exists. split.
  - intros [[d|] [H1 H2]]; [| discriminate].
    apply Ascii.eqb_eq in H2. now subst.
  - intros H. exists (Some c). split; [assumption | apply Ascii.eqb_refl].
Qed.

Lemma in_list_set {A : Type} (l : list A) (i : nat) (v x : A) :
  In x (list_set l i v) -> x = v \/ In x l.
Proof.
  revert i. induction l as [|y l IH]; intros [|i]; simpl; try tauto.
  - intros [H | H]; auto.
  - intros [H | H]; auto. destruct (IH i H); auto.
Qed.

(** ** Exact feedback overrides an absent marking *)

Lemma feedback_char_correct_not_invalid (last_guess : str)
    (self self' : Guesser) (i : nat) (char : ascii) :
  correct_not_invalid self ->
  feedback_char last_guess self i char = Ok self' ->
  correct_not_invalid self'.
Proof.
  unfold correct_not_invalid, feedback_char, str_get, bind. intros Hinv.
  destruct (isalpha char).
  - destruct (nth_error last_guess i) as [c|]; [| discriminate].
    destruct (i <? length (_correct_positions self)); [| discriminate].
    simpl. destruct (mem c (_invalid_letters self)) eqn:Em;
      intros H; injection H as <-; simpl; intros d Hd Hin;
      apply in_correct_spec in Hd; apply in_list_set in Hd.
    + apply set_remove_In in Hin. destruct Hin as [Hin Hne].
      destruct Hd as [Hd | Hd]; [congruence |].
      apply (Hinv d); [now apply in_correct_spec | assumption].
    + destruct Hd as [Hd | Hd].
      * injection Hd as ->. apply mem_false in Em. contradiction.
      * apply (Hinv d); [now apply in_correct_spec | assumption].
  - destruct (Ascii.eqb char "-").
    + destruct (nth_error last_guess i) as [c|]; [| discriminate].
      intros H; injection H as <-. exact Hinv.
    + destruct (Ascii.eqb char "+").
      * destruct (nth_error last_guess i) as [c|]; [| discriminate].
        destruct (negb (dict_mem c (_misplaced_letters self))
                  && negb (in_correct c (_correct_positions self))) eqn:E;
          intros H; injection H as <-; [| exact Hinv].
        simpl. intros d Hd Hin. apply set_add_In in Hin.
        destruct Hin as [Hin | ->]; [exact (Hinv d Hd Hin) |].
        apply andb_true_iff in E. destruct E as [_ E].
        rewrite Hd in E. discriminate.
      * intros H; injection H as <-. exact Hinv.
Qed.

Lemma process_feedback_correct_not_invalid (last_guess : str) (result : str) :
  forall (self : Guesser) (i : nat),
    correct_not_invalid self ->
    correct_not_invalid (fst (process_feedback last_guess self i result)).
Proof.
  induction result as [|char rest IH]; intros self i Hinv; simpl.
  - exact Hinv.
  - destruct (feedback_char last_guess self i char) as [self'|e] eqn:E.
    + apply IH. eapply feedback_char_correct_not_invalid; eassumption.
    + exact Hinv.
Qed.

(** The half of C2 that the code keeps: whatever the feedback, no letter
    held by [_correct_positions] is ever left in [_invalid_letters]. *)
Lemma reachable_correct_not_invalid (manual : str) (words : list str)
    (g : Guesser) :
  reachable any_feedback manual words g -> correct_not_invalid g.
Proof.
  induction 1 as [g Hi | g _ _ | g fuel hash rnd input result r g' _ IH _ Hc].
  - unfold init, bind in Hi. destruct (analysis words); [| discriminate].
    injection Hi as <-. intros c _ [].
  - intros c _ [].
  - unfold get_guess in Hc.
    destruct (str_eqb (_manual g) (s "manual")).
    { injection Hc as _ <-. exact IH. }
    assert (Hp : correct_not_invalid (fst (pick hash rnd g result))).
    { unfold pick. destruct (last_tried (_tried g)) as [lg|]; [| exact IH].
      destruct (negb (length lg =? 5)); [exact IH |].
      pose proof (process_feedback_correct_not_invalid lg result g 0 IH) as H.
      destruct (process_feedback lg g 0 result) as [g1 [e|]]; exact H. }
    destruct (pick hash rnd g result) as [g1 [[[w cursor] filtered]|e]].
    + destruct (anti_repeat fuel rnd cursor (_tried g1) filtered w)
        as [[w'|e]|]; try discriminate; injection Hc as _ <-; exact Hp.
    + injection Hc as _ <-. exact Hp.
Qed.

(** C2 at its failing input.  The engine of the example game guessed
    "crate", then "fuzzy"; every feedback string has five symbols.  The
    feedback "+++-+" marks the first "z" of "fuzzy" absent and the second
    one present elsewhere: afterwards "z" is a key of [_misplaced_letters]
    and still a member of [_invalid_letters]. *)
Theorem absent_then_present_stays_invalid :
  reachable five_symbols (s "auto") demo_words demo_second /\
  process_feedback (s "fuzzy") demo_second 0 (s "+++-+") = (demo_stuck, None) /\
  reachable five_symbols (s "auto") demo_words demo_stuck /\
  In "z"%char (dict_keys (_misplaced_letters demo_stuck)) /\
  In "z"%char (_invalid_letters demo_stuck).
Proof.
  assert (H1 : reachable five_symbols (s "auto") demo_words demo_first).
  { apply reach_call with (g := demo_fresh) (fuel := 0) (hash := demo_hash)
      (rnd := demo_rnd) (input := []) (result := s "+++++")
      (r := Ok (s "crate")).
    - apply reach_init. exact demo_fresh_init.
    - reflexivity.
    - apply demo_first_call. }
  assert (H2 : reachable five_symbols (s "auto") demo_words demo_second).
  { apply reach_call with (g := demo_first) (fuel := 0) (hash := demo_hash)
      (rnd := demo_rnd) (input := []) (result := s "+++++")
      (r := Ok (s "fuzzy")).
    - exact H1.
    - reflexivity.
    - apply demo_second_call. }
  split; [exact H2 |].
  split; [vm_compute; reflexivity |].
  split.
  - apply reach_call with (g := demo_second) (fuel := 0) (hash := demo_hash)
      (rnd := demo_rnd) (input := []) (result := s "+++-+")
      (r := Raise choice_empty_error).
    + exact H2.
    + reflexivity.
    + vm_compute. reflexivity.
  - split; vm_compute; tauto.
Qed.

(** ** Feedback that marks every position exact *)

Lemma feedback_char_exact (last_guess : str) (self : Guesser) (i : nat)
    (char c : ascii) :
  isalpha char = true -> nth_error last_guess i = Some c ->
  i < length (_correct_positions self) ->
  exists self1,
    feedback_char last_guess self i char = Ok self1 /\
    _misplaced_letters self1 = _misplaced_letters self /\
    _correct_positions self1 = list_set (_correct_positions self) i (Some c) /\
    (forall d, In d (_invalid_letters self1) <->
               In d (_invalid_letters self) /\ d <> c).
Proof.
  intros Ha Hc Hi. unfold feedback_char, str_get, bind.
  rewrite Ha, Hc. apply Nat.ltb_lt in Hi. rewrite Hi. simpl.
  destruct (mem c (_invalid_letters self)) eqn:E.
  - eexists. split; [reflexivity |]. simpl.
    split; [reflexivity |]. split; [reflexivity |].
    intros d. apply set_remove_In.
  - eexists. split; [reflexivity |]. simpl.
    split; [reflexivity |]. split; [reflexivity |].
    intros d. split; [| tauto].
    intros Hd. split; [assumption |]. intros ->.
    apply mem_false in E. contradiction.
Qed.

Lemma process_all_exact (last_guess : str) (result : str) :
  forall (self : Guesser) (i : nat),
    all_exact result ->
    i + length result <= length last_guess ->
    i + length result <= length (_correct_positions self) ->
    exists self',
      process_feedback last_guess self i result = (self', None) /\
      _misplaced_letters self' = _misplaced_letters self /\
      length (_correct_positions self') = length (_correct_positions self) /\
      (forall d, In d (_invalid_letters self') <->
                 In d (_invalid_letters self) /\
                 forall j, i <= j < i + length result ->
                           nth_error last_guess j <> Some d) /\
      (forall j, nth_error (_correct_positions self') j
                 = if (i <=? j) && (j <? i + length result)
                   then option_map Some (nth_error last_guess j)
                   else nth_error (_correct_positions self) j).
Proof.
  induction result as [|char rest IH]; intros self i Hall Hl Hc; simpl in *.
  - exists self. split; [reflexivity |]. split; [reflexivity |].
    split; [reflexivity |]. split.
    + intros d. split; [| tauto].
      intros Hd. split; [assumption |]. intros j Hj. lia.
    + intros j. destruct (i <=? j) eqn:E1; [| reflexivity].
      destruct (j <? i + 0) eqn:E2; [| reflexivity].
      apply Nat.leb_le in E1. apply Nat.ltb_lt in E2. lia.
  - inversion Hall as [|? ? Ha Hrest]; subst.
    destruct (nth_error last_guess i) as [c|] eqn:Ec.
    2:{ apply nth_error_None in Ec. lia. }
    destruct (feedback_char_exact last_guess self i char c Ha Ec)
      as [self1 [E [Hm [Hcp Hinv]]]]; [lia |].
    rewrite E.
    assert (Hlen1 : length (_correct_positions self1)
                    = length (_correct_positions self)).
    { rewrite Hcp. apply list_set_length. }
    destruct (IH self1 (S i) Hrest) as [self' [E' [Hm' [Hlen' [Hinv' Hcp']]]]];
      try lia.
    exists self'. split; [exact E' |].
    split; [congruence |]. split; [congruence |]. split.
    + intros d. rewrite Hinv', Hinv. split.
      * intros [[H1 H2] H3]. split; [assumption |].
        intros j Hj. destruct (Nat.eq_dec j i) as [-> | Hne].
        -- rewrite Ec. congruence.
        -- apply H3. lia.
      * intros [H1 H2]. repeat split; [assumption | |].
        -- intros ->. apply (H2 i); [lia | assumption].
        -- intros j Hj. apply H2. lia.
    + intros j. rewrite Hcp', Hcp.
      rewrite nth_error_list_set by lia.
      destruct (Nat.eq_dec j i) as [-> | Hne].
      * rewrite Nat.eqb_refl, Ec.
        replace (S i <=? i) with false by (symmetry; apply Nat.leb_gt; lia).
        replace (i <=? i) with true by (symmetry; apply Nat.leb_le; lia).
        replace (i <? i + S (length rest)) with true
          by (symmetry; apply Nat.ltb_lt; lia).
        reflexivity.
      * apply Nat.eqb_neq in Hne as Hne'. rewrite Hne'.
        destruct (Nat.leb_spec (S i) j), (Nat.leb_spec i j),
          (Nat.ltb_spec j (S i + length rest)),
          (Nat.ltb_spec j (i + S (length rest)));
          simpl; try reflexivity; lia.
Qed.

(** C7, as the code has it: when the feedback marks all five positions
    exact, every word of the candidate list is the previous guess, and the
    previous guess is a candidate exactly when it is a dictionary word that
    contains every misplaced letter of the state and has none of them at a
    position recorded for it.  The list is empty otherwise, as it is for a
    probe word that is not in the dictionary. *)
Theorem all_exact_candidates (self : Guesser) (result last_guess : str) :
  five_positions self -> five_letter_words (word_list self) ->
  length last_guess = 5 -> length result = 5 -> all_exact result ->
  exists (self' : Guesser) (candidates : list str),
    process_feedback last_guess self 0 result = (self', None) /\
    filtered_word_list self' = Ok candidates /\
    (forall w, In w candidates -> w = last_guess) /\
    (In last_guess candidates <->
     In last_guess (word_list self) /\ misplaced_compatible self last_guess).
Proof.
  intros Hcp Hws Hlg Hres Hall.
  destruct (process_all_exact last_guess result self 0 Hall)
    as [self' [E [Hm [Hlen [Hinv Hcp']]]]];
    [unfold five_positions in Hcp; lia .. |].
  assert (Hframe : word_list self' = word_list self).
  { pose proof (process_feedback_frame last_guess result self 0) as Hf.
    rewrite E in Hf. destruct Hf as [Hf _]. symmetry. exact Hf. }
  assert (Hcp5 : five_positions self').
  { unfold five_positions in *. congruence. }
  assert (Hws' : five_letter_words (word_list self')) by (rewrite Hframe; exact Hws).
  assert (Hcell : forall j, j < 5 ->
            nth_error (_correct_positions self') j
            = option_map Some (nth_error last_guess j)).
  { intros j Hj. rewrite Hcp', Hres. simpl.
    apply Nat.ltb_lt in Hj. rewrite Hj. reflexivity. }
  exists self', (filter (keepsb self') (word_list self')).
  split; [exact E |].
  split; [apply filter_words_total; assumption |].
  assert (Hlg_ok : forall w, length w = 5 ->
            (qualifies self' w <->
             w = last_guess /\ misplaced_compatible self last_guess)).
  { intros w Hw. unfold qualifies, misplaced_compatible. rewrite Hm. split.
    - intros [Ha [Hb [Hc Hd]]].
      assert (Heq : w = last_guess).
      { apply nth_error_ext. intros j.
        destruct (Nat.lt_ge_cases j 5) as [Hj | Hj].
        - specialize (Hcell j Hj).
          destruct (nth_error last_guess j) as [c|] eqn:Ec.
          + simpl in Hcell. exact (Hb j c Hcell).
          + apply nth_error_None in Ec. lia.
        - transitivity (@None ascii).
          + apply nth_error_None. lia.
          + symmetry. apply nth_error_None. lia. }
      subst w. split; [reflexivity |]. split; assumption.
    - intros [-> [Hc Hd]]. repeat split; try assumption.
      + intros c Hc1 Hc2. apply Hinv in Hc1. destruct Hc1 as [_ Hc1].
        apply In_nth_error in Hc2. destruct Hc2 as [j Hj].
        apply (Hc1 j); [| assumption].
        assert (j < length last_guess) by (apply nth_error_Some; congruence).
        lia.
      + intros j c Hj.
        assert (Hlt : j < 5).
        { unfold five_positions in Hcp5. rewrite <- Hcp5.
          apply nth_error_Some. congruence. }
        rewrite (Hcell j Hlt) in Hj.
        destruct (nth_error last_guess j); simpl in Hj; congruence. }
  assert (Hlen_w : forall w, In w (word_list self') -> length w = 5).
  { intros w Hw. unfold five_letter_words in Hws'.
    rewrite Forall_forall in Hws'. auto. }
  split.
  - intros w Hw. apply filter_In in Hw. destruct Hw as [Hw1 Hw2].
    apply (keepsb_qualifies self' w Hcp5 (Hlen_w w Hw1)) in Hw2.
    apply (Hlg_ok w (Hlen_w w Hw1)) in Hw2. tauto.
  - rewrite filter_In, Hframe. split.
    + intros [H1 H2]. split; [assumption |].
      rewrite <- Hframe in H1.
      apply (keepsb_qualifies self' last_guess Hcp5 Hlg) in H2.
      apply (Hlg_ok last_guess Hlg) in H2. tauto.
    + intros [H1 H2]. split; [assumption |].
      apply (keepsb_qualifies self' last_guess Hcp5 Hlg).
      apply (Hlg_ok last_guess Hlg). tauto.
Qed.

Lemma all_exact_candidates_witness :
  exists (self' : Guesser) (candidates : list str),
    process_feedback (s "crate") demo_first 0 (s "crate") = (self', None) /\
    filtered_word_list self' = Ok candidates /\
    (forall w, In w candidates -> w = s "crate") /\
    (In (s "crate") candidates <->
     In (s "crate") (word_list demo_first) /\
     misplaced_compatible demo_first (s "crate")).
Proof.
  apply (all_exact_candidates demo_first (s "crate") (s "crate")).
  - reflexivity.
  - repeat constructor.
  - reflexivity.
  - reflexivity.
  - repeat constructor.
Defined.

(** C7 fails as stated: the first guess "anple" of the three-word game is a
    probe outside the dictionary; feedback marking its five positions exact
    leaves no candidate at all, not the one-element list of the guess. *)
Lemma probe_all_exact_no_candidate :
  init (s "auto") probe_words = Ok probe_fresh /\
  get_guess 0 demo_hash demo_rnd [] probe_fresh []
  = Finished (Ok (s "anple")) probe_first /\
  all_exact (s "anple") /\
  exists self' : Guesser,
    process_feedback (s "anple") probe_first 0 (s "anple") = (self', None) /\
    filtered_word_list self' = Ok [].
Proof.
  split; [vm_compute; reflexivity |].
  split; [vm_compute; reflexivity |].
  split; [repeat constructor |].
  eexists. split; vm_compute; reflexivity.
Qed.

(** ** The anti-repeat loop *)

Lemma anti_repeat_fresh (fuel : nat) (rnd : nat -> nat) (tried : list str)
    (filtered : option (list str)) :
  forall (cursor : nat) (guess guess' : str),
    anti_repeat fuel rnd cursor tried filtered guess = Some (Ok guess') ->
    ~ In guess' tried.
Proof.
  induction fuel as [|fuel IH]; intros cursor guess guess'; simpl;
    destruct (str_mem guess tried) eqn:E.
  - discriminate.
  - intros H. injection H as <-. intros Hin.
    apply str_mem_In in Hin. congruence.
  - destruct filtered as [words|]; [| discriminate].
    destruct (choice rnd cursor words) as [g|e]; [| discriminate].
    apply IH.
  - intros H. injection H as <-. intros Hin.
    apply str_mem_In in Hin. congruence.
Qed.

Lemma get_guess_fresh (fuel : nat) (hash : ascii -> nat) (rnd : nat -> nat)
    (input : str) (self self' : Guesser) (result guess : str) :
  auto_mode self ->
  get_guess fuel hash rnd input self result = Finished (Ok guess) self' ->
  ~ In guess (_tried self).
Proof.
  unfold auto_mode, get_guess. intros ->.
  pose proof (pick_frame hash rnd self result) as Hf.
  destruct (pick hash rnd self result) as [self1 [[[g cursor] filtered]|e]];
    [| discriminate].
  destruct (anti_repeat fuel rnd cursor (_tried self1) filtered g)
    as [[g'|e]|] eqn:E; try discriminate.
  intros H. injection H as <- _.
  destruct Hf as (_ & _ & Ht & _). simpl in Ht. rewrite Ht.
  eapply anti_repeat_fresh. exact E.
Qed.

Lemma NoDup_snoc {A : Type} (l : list A) (x : A) :
  NoDup l -> ~ In x l -> NoDup (l ++ [x]).
Proof.
  intros Hl Hx. induction Hl as [|y l Hy Hl IH]; simpl.
  - constructor; [intros [] | constructor].
  - constructor.
    + rewrite in_app_iff. simpl. intros [H | [H | []]]; [contradiction |].
      subst. apply Hx. now left.
    + apply IH. intros H. apply Hx. now right.
Qed.




(** ** Sorting and deduplication *)

Lemma insert_desc_perm {A : Type} (key : A -> nat) (x : A) (l : list A) :
  Permutation (insert_desc key x l) (x :: l).
Proof.
  induction l as [|y l IH]; simpl; [apply Permutation_refl |].
  destruct (key x <? key y); [| apply Permutation_refl].
  apply perm_trans with (y :: x :: l).
  - apply perm_skip. exact IH.
  - apply perm_swap.
Qed.

Lemma sorted_desc_perm {A : Type} (key : A -> nat) (l : list A) :
  Permutation (sorted_desc key l) l.
Proof.
  induction l as [|x l IH]; simpl; [apply perm_nil |].
  apply perm_trans with (x :: sorted_desc key l).
  - apply insert_desc_perm.
  - apply perm_skip. exact IH.
Qed.

Lemma sorted_desc_In {A : Type} (key : A -> nat) (l : list A) (x : A) :
  In x (sorted_desc key l) <-> In x l.
Proof.
  split; apply Permutation_in;
    [apply sorted_desc_perm | apply Permutation_sym, sorted_desc_perm].
Qed.

Lemma dedup_In (l : list ascii) (c : ascii) : In c (dedup l) <-> In c l.
Proof.
  induction l as [|d l IH]; simpl; [tauto |].
  rewrite filter_In, IH, negb_true_iff. split.
  - intros [H | [H _]]; auto.
  - intros [H | H]; auto.
    destruct (Ascii.eqb d c) eqn:E.
    + apply Ascii.eqb_eq in E. auto.
    + auto.
Qed.

Lemma dedup_NoDup (l : list ascii) : NoDup (dedup l).
Proof.
  induction l as [|d l IH]; simpl; constructor.
  - rewrite filter_In, negb_true_iff, Ascii.eqb_refl.
    intros [_ H]. discriminate.
  - apply NoDup_filter. exact IH.
Qed.

Lemma letter_entropy_keys (hash : ascii -> nat) (filtered : list str) :
  dict_keys (letter_entropy hash filtered) = set_iter hash (concat filtered).
Proof.
  unfold dict_keys, letter_entropy. rewrite map_map. simpl. apply map_id.
Qed.

Lemma sorted_letters_of_In (hash : ascii -> nat) (filtered : list str)
    (c : ascii) :
  In c (sorted_letters_of hash filtered) <-> In c (concat filtered).
Proof.
  unfold sorted_letters_of. rewrite sorted_desc_In, letter_entropy_keys.
  unfold set_iter. rewrite sorted_desc_In. apply dedup_In.
Qed.

(** ** The second guess *)







(** C9 at its failing input.  After the first guess "crate" the feedback
    "-----" records five misplaced letters, so the sub-list is built by the
    branch for more than two misplaced letters; no word of the dictionary
    passes the filter, the sub-list is empty, and the shared fallback reads
    [sorted_letters], which only the other branch binds: the call raises
    [UnboundLocalError] instead of assembling a probe or drawing a
    candidate. *)
Theorem many_misplaced_fallback_unbound :
  guess_count demo_first = 1 /\
  process_feedback (s "crate") demo_first 0 (s "-----")
  = (demo_scrambled, None) /\
  2 < length (_misplaced_letters demo_scrambled) /\
  filtered_word_list demo_scrambled = Ok [] /\
  forall (fuel : nat) (hash : ascii -> nat) (rnd : nat -> nat),
    get_guess fuel hash rnd [] demo_first (s "-----")
    = Finished (Raise (UnboundLocalError "sorted_letters")) demo_scrambled.
Proof.
  split; [reflexivity |].
  split; [vm_compute; reflexivity |].
  split; [simpl; lia |].
  split; [vm_compute; reflexivity |].
  intros fuel hash rnd. unfold get_guess.
  replace (str_eqb (_manual demo_first) (s "manual")) with false
    by reflexivity.
  rewrite (pick_later hash rnd demo_first demo_scrambled (s "-----")
             (s "crate")); vm_compute; reflexivity.
Qed.

(** The other branch does what C9 says: with at most two misplaced letters
    and an empty sub-list, the guess is the probe when five letters were
    found and a candidate drawn by [random.choice] otherwise. *)
Lemma second_guess_probe_or_choice (hash : ascii -> nat) (rnd : nat -> nat)
    (cursor : nat) (self : Guesser) (filtered : list str) :
  length (_misplaced_letters self) <= 2 ->
  filter (avoids (first_guess_letters self)) filtered = [] ->
  second_guess hash rnd cursor self filtered
  = let probe :=
      assemble_probe (first_guess_letters self)
        (sorted_letters_of hash filtered) [] [] in
    if length probe <? 5
    then word <- choice rnd cursor filtered ;; Ok (word, S cursor)
    else Ok (probe, cursor).
Proof.
  intros Hm Hnone. unfold second_guess.
  replace (2 <? length (_misplaced_letters self)) with false
    by (symmetry; apply Nat.ltb_ge; exact Hm).
  rewrite Hnone. reflexivity.
Qed.

(** ** The first guess *)

Lemma dict_keys_set {V : Type} (k : ascii) (v : V) (d : dict V) :
  dict_keys (dict_set k v d)
  = if dict_mem k d then dict_keys d else dict_keys d ++ [k].
Proof.
  unfold dict_keys, dict_mem.
  induction d as [|[k' v'] d IH]; simpl; [reflexivity |].
  destruct (Ascii.eqb k k') eqn:E; simpl; [reflexivity |].
  rewrite IH. destruct (dict_find k d); reflexivity.
Qed.

Lemma bump_keys_In (c x : ascii) (d : dict nat) :
  In x (dict_keys (bump c d)) <-> In x (dict_keys d) \/ x = c.
Proof.
  unfold bump. rewrite dict_keys_set.
  destruct (dict_mem c d) eqn:E.
  - apply dict_mem_keys in E. split; [tauto |].
    intros [H | ->]; assumption.
  - rewrite in_app_iff. simpl. split; intros [H | H]; auto.
    destruct H as [H | []]. auto.
Qed.

Lemma bump_keys_NoDup (c : ascii) (d : dict nat) :
  NoDup (dict_keys d) -> NoDup (dict_keys (bump c d)).
Proof.
  intros H. unfold bump. rewrite dict_keys_set.
  destruct (dict_mem c d) eqn:E; [exact H |].
  apply NoDup_snoc; [exact H |].
  intros Hin. apply dict_mem_keys in Hin. congruence.
Qed.

Lemma tally_word_keys (word : str) (positions : list nat) :
  forall (lf : list (dict nat)) (ovr : dict nat),
    (forall i, In i positions -> i < length word) ->
    NoDup (dict_keys ovr) ->
    exists lf' ovr',
      tally_word word positions lf ovr = Ok (lf', ovr') /\
      NoDup (dict_keys ovr') /\
      (forall x, In x (dict_keys ovr') <->
                 In x (dict_keys ovr) \/
                 exists i, In i positions /\ nth_error word i = Some x).
Proof.
  induction positions as [|i rest IH]; intros lf ovr Hr Hnd; simpl.
  - exists lf, ovr. split; [reflexivity |]. split; [exact Hnd |].
    intros x. split; [tauto |]. intros [H | [i [[] _]]]. exact H.
  - unfold str_get.
    destruct (nth_error word i) as [c|] eqn:Ec.
    2:{ apply nth_error_None in Ec.
        specialize (Hr i (or_introl eq_refl)). lia. }
    simpl.
    destruct (IH (list_set lf i (bump c (nth i lf []))) (bump c ovr))
      as [lf' [ovr' [E [Hnd' Hk]]]].
    + intros j Hj. apply Hr. now right.
    + now apply bump_keys_NoDup.
    + exists lf', ovr'. split; [exact E |]. split; [exact Hnd' |].
      intros x. rewrite Hk, bump_keys_In. split.
      * intros [[H | ->] | [j [Hj1 Hj2]]].
        -- now left.
        -- right. exists i. split; [now left | exact Ec].
        -- right. exists j. split; [now right | exact Hj2].
      * intros [H | [j [[<- | Hj1] Hj2]]].
        -- left. now left.
        -- left. right. congruence.
        -- right. exists j. split; assumption.
Qed.

Lemma five_letters_positions (w : str) (x : ascii) :
  length w = 5 ->
  (exists i, In i (seq 0 5) /\ nth_error w i = Some x) <-> In x w.
Proof.
  intros Hw. split.
  - intros [i [_ Hi]]. eapply nth_error_In. exact Hi.
  - intros H. apply In_nth_error in H. destruct H as [i Hi].
    exists i. split; [| exact Hi].
    apply in_seq. assert (i < length w) by (apply nth_error_Some; congruence).
    lia.
Qed.

Lemma tally_keys (words : list str) :
  forall (lf : list (dict nat)) (ovr : dict nat),
    five_letter_words words ->
    NoDup (dict_keys ovr) ->
    exists lf' ovr',
      tally words lf ovr = Ok (lf', ovr') /\
      NoDup (dict_keys ovr') /\
      (forall x, In x (dict_keys ovr') <->
                 In x (dict_keys ovr) \/ exists w, In w words /\ In x w).
Proof.
  induction words as [|w rest IH]; intros lf ovr Hws Hnd; cbn [tally].
  - exists lf, ovr. split; [reflexivity |]. split; [exact Hnd |].
    intros x. split; [tauto |]. intros [H | [w [[] _]]]. exact H.
  - inversion Hws as [|? ? Hw Hrest]; subst.
    destruct (tally_word_keys w (seq 0 5) lf ovr) as [lf1 [ovr1 [E1 [Hnd1 Hk1]]]].
    + intros i Hi. apply in_seq in Hi. lia.
    + exact Hnd.
    + rewrite E1. cbn [bind fst snd].
      destruct (IH lf1 ovr1 Hrest Hnd1) as [lf' [ovr' [E [Hnd' Hk]]]].
      exists lf', ovr'. split; [exact E |]. split; [exact Hnd' |].
      intros x. rewrite Hk, Hk1, (five_letters_positions w x Hw). split.
      * intros [[H | H] | [v [Hv1 Hv2]]].
        -- now left.
        -- right. exists w. split; [now left | exact H].
        -- right. exists v. split; [now right | exact Hv2].
      * intros [H | [v [[<- | Hv1] Hv2]]].
        -- left. now left.
        -- left. now right.
        -- right. exists v. split; assumption.
Qed.

(** The number of cells of [chosen_word] that hold a letter is the length
    of the joined string. *)
Lemma join_set_empty_cell (cw : list (option ascii)) (p : nat) (c : ascii) :
  nth_error cw p = Some None ->
  length (join (list_set cw p (Some c))) = S (length (join cw)).
Proof.
  revert p. induction cw as [|o cw IH]; intros [|p]; simpl; try discriminate.
  - intros H. injection H as ->. reflexivity.
  - intros H. destruct o; simpl; rewrite (IH p H); reflexivity.
Qed.

Lemma join_full (cw : list (option ascii)) :
  (forall i, i < length cw -> nth i cw None <> None) ->
  length (join cw) = length cw.
Proof.
  induction cw as [|o cw IH]; intros H; simpl; [reflexivity |].
  destruct o as [c|].
  - simpl. f_equal. apply IH. intros i Hi. apply (H (S i)). simpl. lia.
  - exfalso. apply (H 0); [simpl; lia | reflexivity].
Qed.

Lemma nth_list_set_filled (cw : list (option ascii)) (p i : nat) (c : ascii) :
  nth i cw None <> None -> nth i (list_set cw p (Some c)) None <> None.
Proof.
  revert p i. induction cw as [|o cw IH]; intros [|p] [|i]; simpl;
    try tauto; try discriminate.
  apply IH.
Qed.

Lemma nth_list_set_same (cw : list (option ascii)) (p : nat) (c : ascii) :
  p < length cw -> nth p (list_set cw p (Some c)) None = Some c.
Proof.
  revert p. induction cw as [|o cw IH]; intros [|p]; simpl; try lia.
  - reflexivity.
  - intros H. apply IH. lia.
Qed.

Lemma empty_cell (cw : list (option ascii)) (p : nat) :
  p < length cw -> nth p cw None = None -> nth_error cw p = Some None.
Proof.
  intros Hp Hn. rewrite (nth_error_nth' cw None Hp). now rewrite Hn.
Qed.

Lemma best_position_from_free (slf : list (dict nat))
    (cw : list (option ascii)) (letter : ascii) (positions : list nat) :
  forall (best : option nat) (highest : Z) (p : nat),
    best_position_from slf cw letter positions best highest = Some p ->
    best = Some p \/ (In p positions /\ nth p cw None = None).
Proof.
  induction positions as [|pos rest IH]; intros best highest p; simpl.
  - auto.
  - destruct (dict_find letter (nth pos slf [])) as [freq|].
    + destruct (nth pos cw None) as [c|] eqn:En.
      * intros H. apply IH in H. tauto.
      * destruct (highest <? Z.of_nat freq)%Z; intros H; apply IH in H.
        -- destruct H as [H | H]; [| tauto].
           injection H as ->. right. split; [now left | exact En].
        -- tauto.
    + destruct (nth pos cw None); intros H; apply IH in H; tauto.
Qed.

Lemma set_add_fresh (c : ascii) (used : list ascii) :
  ~ In c used -> set_add c used = used ++ [c].
Proof.
  intros H. unfold set_add. apply mem_false in H. now rewrite H.
Qed.

(** First pass: every letter placed fills one empty cell. *)
Lemma place_letters_inv (slf : list (dict nat)) (letters : list ascii) :
  forall (cw : list (option ascii)) (used : list ascii),
    NoDup letters -> NoDup used ->
    (forall c, In c used -> ~ In c letters) ->
    length cw = 5 -> length used = length (join cw) ->
    NoDup (snd (place_letters slf letters cw used)) /\
    length (fst (place_letters slf letters cw used)) = 5 /\
    length (snd (place_letters slf letters cw used))
    = length (join (fst (place_letters slf letters cw used))) /\
    (forall c, In c (snd (place_letters slf letters cw used)) ->
               In c used \/ In c letters).
Proof.
  induction letters as [|letter rest IH]; intros cw used Hl Hu Hd Hcw Hn;
    cbn [place_letters].
  - simpl. repeat split; auto.
  - inversion Hl as [|? ? Hnot Hrest]; subst.
    destruct (best_position_from slf cw letter (seq 0 5) None (-1)%Z)
      as [p|] eqn:E.
    + apply best_position_from_free in E.
      destruct E as [E | [Hp Hfree]]; [discriminate |].
      apply in_seq in Hp.
      assert (Hfresh : ~ In letter used).
      { intros H. apply (Hd letter H). now left. }
      destruct (IH (list_set cw p (Some letter)) (set_add letter used))
        as (H1 & H2 & H3 & H4).
      * exact Hrest.
      * rewrite set_add_fresh by exact Hfresh. now apply NoDup_snoc.
      * intros c Hc. apply set_add_In in Hc. destruct Hc as [Hc | ->].
        -- intros H. apply (Hd c Hc). now right.
        -- exact Hnot.
      * rewrite list_set_length. exact Hcw.
      * rewrite set_add_fresh by exact Hfresh.
        rewrite length_app, join_set_empty_cell.
        -- simpl. lia.
        -- apply empty_cell; [lia | exact Hfree].
      * split; [exact H1 |]. split; [exact H2 |]. split; [exact H3 |].
        intros c Hc. apply H4 in Hc. rewrite set_add_In in Hc.
        destruct Hc as [[Hc | ->] | Hc]; simpl; auto.
    + destruct (IH cw used) as (H1 & H2 & H3 & H4); try assumption.
      * intros c Hc H. apply (Hd c Hc). now right.
      * split; [exact H1 |]. split; [exact H2 |]. split; [exact H3 |].
        intros c Hc. apply H4 in Hc. simpl. tauto.
Qed.

(** Second pass: cells filled stay filled, and at the end either every
    top letter is used or every position visited holds a letter. *)
Lemma fill_remaining_inv (top : list ascii) (positions : list nat) :
  forall (cw : list (option ascii)) (used : list ascii),
    (forall i, In i positions -> i < length cw) ->
    NoDup used -> length used = length (join cw) -> incl used top ->
    NoDup (snd (fill_remaining top positions cw used)) /\
    length (snd (fill_remaining top positions cw used))
    = length (join (fst (fill_remaining top positions cw used))) /\
    incl (snd (fill_remaining top positions cw used)) top /\
    length (fst (fill_remaining top positions cw used)) = length cw /\
    incl used (snd (fill_remaining top positions cw used)) /\
    (forall i, nth i cw None <> None ->
               nth i (fst (fill_remaining top positions cw used)) None
               <> None) /\
    ((forall c, In c top ->
                In c (snd (fill_remaining top positions cw used))) \/
     (forall i, In i positions ->
                nth i (fst (fill_remaining top positions cw used)) None
                <> None)).
Proof.
  induction positions as [|i rest IH]; intros cw used Hr Hu Hn Hi;
    cbn [fill_remaining].
  - simpl. split; [exact Hu |]. split; [exact Hn |]. split; [exact Hi |].
    split; [reflexivity |]. split; [apply incl_refl |].
    split; [auto |]. right. intros j [].
  - assert (Hrest : forall j, In j rest -> j < length cw).
    { intros j Hj. apply Hr. now right. }
    destruct (nth i cw None) as [c|] eqn:En.
    + destruct (IH cw used Hrest Hu Hn Hi)
        as (H1 & H2 & H3 & H4 & H5 & H6 & H7).
      split; [exact H1 |]. split; [exact H2 |]. split; [exact H3 |].
      split; [exact H4 |]. split; [exact H5 |]. split; [exact H6 |].
      destruct H7 as [H7 | H7]; [now left | right].
      intros j [<- | Hj]; [| now apply H7].
      apply H6. rewrite En. discriminate.
    + destruct (find (fun letter => negb (mem letter used)) top)
        as [letter|] eqn:Ef.
      * apply find_some in Ef. destruct Ef as [Htop Hfresh].
        apply negb_true_iff, mem_false in Hfresh.
        assert (Hlt : i < length cw) by (apply Hr; now left).
        destruct (IH (list_set cw i (Some letter)) (set_add letter used))
          as (H1 & H2 & H3 & H4 & H5 & H6 & H7).
        -- intros j Hj. rewrite list_set_length. now apply Hrest.
        -- rewrite set_add_fresh by exact Hfresh. now apply NoDup_snoc.
        -- rewrite set_add_fresh by exact Hfresh.
           rewrite length_app, join_set_empty_cell.
           ++ simpl. lia.
           ++ now apply empty_cell.
        -- intros c Hc. apply set_add_In in Hc.
           destruct Hc as [Hc | ->]; [now apply Hi | exact Htop].
        -- split; [exact H1 |]. split; [exact H2 |]. split; [exact H3 |].
           split; [now rewrite H4, list_set_length |].
           split.
           { intros c Hc. apply H5. apply set_add_In. now left. }
           split.
           { intros j Hj. apply H6. now apply nth_list_set_filled. }
           destruct H7 as [H7 | H7]; [now left | right].
           intros j [<- | Hj]; [| now apply H7].
           apply H6. rewrite nth_list_set_same by exact Hlt. discriminate.
      * destruct (IH cw used Hrest Hu Hn Hi)
          as (H1 & H2 & H3 & H4 & H5 & H6 & H7).
        split; [exact H1 |]. split; [exact H2 |]. split; [exact H3 |].
        split; [exact H4 |]. split; [exact H5 |]. split; [exact H6 |].
        left. intros c Hc. apply H5.
        pose proof (find_none _ _ Ef c Hc) as Hf.
        apply negb_false_iff in Hf. now apply mem_In.
Qed.

Lemma NoDup_firstn {A : Type} (n : nat) (l : list A) :
  NoDup l -> NoDup (firstn n l).
Proof.
  intros H. rewrite <- (firstn_skipn n l) in H.
  eapply NoDup_app_remove_r. exact H.
Qed.

Lemma top_five_facts (ovr : dict nat) :
  NoDup (dict_keys ovr) ->
  NoDup (top_five ovr) /\
  length (top_five ovr) = Nat.min 5 (length (dict_keys ovr)).
Proof.
  intros H. unfold top_five. split.
  - apply NoDup_firstn.
    eapply Permutation_NoDup; [| exact H].
    apply Permutation_sym, sorted_desc_perm.
  - rewrite length_firstn. f_equal.
    apply Permutation_length, sorted_desc_perm.
Qed.

(** C6, as the code has it: on a list of five-letter words [analysis]
    raises nothing and is a function of the list alone; its result has as
    many characters as the list has distinct letters, up to five.  It is a
    five-character string exactly when the words use five distinct letters
    or more. *)
Theorem analysis_length (words : list str) (letters : list ascii) :
  five_letter_words words -> letters_of words letters ->
  exists guess : str,
    analysis words = Ok guess /\
    (forall guess', analysis words = Ok guess' -> guess' = guess) /\
    length guess = Nat.min 5 (length letters).
Proof.
  intros Hws [Hnd Hletters]. unfold analysis.
  destruct (tally_keys words (repeat [] 5) [] Hws)
    as [lf [ovr [E [Hk1 Hk2]]]]; [constructor |].
  rewrite E. cbn [bind fst snd].
  eexists. split; [reflexivity |].
  split; [intros guess' H; injection H as <-; reflexivity |].
  destruct (top_five_facts ovr Hk1) as [Htop Hlen].
  assert (Hsame : length (dict_keys ovr) = length letters).
  { apply Permutation_length, NoDup_Permutation; try assumption.
    intros c. rewrite Hk2, Hletters. simpl. tauto. }
  rewrite Hsame in Hlen.
  set (slf := map (sorted_desc snd) lf).
  destruct (place_letters_inv slf (top_five ovr) (repeat None 5) [])
    as (P1 & P2 & P3 & P4); try (reflexivity || assumption || constructor).
  { intros c []. }
  set (placed := place_letters slf (top_five ovr) (repeat None 5) []) in *.
  destruct (fill_remaining_inv (top_five ovr) (seq 0 5) (fst placed)
              (snd placed))
    as (F1 & F2 & F3 & F4 & F5 & F6 & F7); try assumption.
  { intros i Hi. apply in_seq in Hi. lia. }
  { intros c Hc. apply P4 in Hc. destruct Hc as [[] | Hc]. exact Hc. }
  set (filled := fill_remaining (top_five ovr) (seq 0 5) (fst placed)
                   (snd placed)) in *.
  rewrite <- F2, <- Hlen.
  apply Nat.le_antisymm.
  - apply NoDup_incl_length; assumption.
  - destruct F7 as [F7 | F7].
    + apply NoDup_incl_length; [exact Htop | exact F7].
    + rewrite F2, join_full.
      * rewrite F4, P2. rewrite Hlen. apply Nat.le_min_l.
      * intros i Hi. apply F7. apply in_seq. rewrite F4, P2 in Hi. lia.
Qed.

Lemma letters_of_dedup (words : list str) :
  letters_of words (dedup (concat words)).
Proof.
  split; [apply dedup_NoDup |].
  intros c. rewrite dedup_In, in_concat. split.
  - intros [w [H1 H2]]. exists w. split; assumption.
  - intros [w [H1 H2]]. exists w. split; assumption.
Qed.

Lemma analysis_length_witness :
  five_letter_words demo_words /\
  letters_of demo_words (dedup (concat demo_words)) /\
  exists guess : str,
    analysis demo_words = Ok guess /\
    (forall guess', analysis demo_words = Ok guess' -> guess' = guess) /\
    length guess = Nat.min 5 (length (dedup (concat demo_words))).
Proof.
  assert (H1 : five_letter_words demo_words) by (repeat constructor).
  assert (H2 : letters_of demo_words (dedup (concat demo_words)))
    by apply letters_of_dedup.
  split; [exact H1 |]. split; [exact H2 |].
  exact (analysis_length demo_words (dedup (concat demo_words)) H1 H2).
Defined.

(** C6 fails as stated: on the one-word dictionary "aaaaa" the analysis
    returns the one-character string "a". *)
Lemma analysis_single_letter_short :
  tiny_words <> [] /\ five_letter_words tiny_words /\
  analysis tiny_words = Ok (s "a") /\ length (s "a") <> 5.
Proof.
  split; [discriminate |].
  split; [repeat constructor |].
  split; [vm_compute; reflexivity | simpl; lia].
Qed.

(** ** Consistent feedback only adds knowledge *)

Lemma dict_find_set {V : Type} (k k' : ascii) (v : V) (d : dict V) :
  dict_find k (dict_set k' v d)
  = if Ascii.eqb k k' then Some v else dict_find k d.
Proof.
  induction d as [|[k0 v0] d IH]; simpl; [reflexivity |].
  destruct (Ascii.eqb k' k0) eqn:E0; simpl.
  - apply Ascii.eqb_eq in E0. subst k0.
    destruct (Ascii.eqb k k'); reflexivity.
  - rewrite IH. destruct (Ascii.eqb k k0) eqn:E1; [| reflexivity].
    apply Ascii.eqb_eq in E1. subst k0.
    rewrite Ascii.eqb_sym, E0. reflexivity.
Qed.

Lemma pos_add_In (p i : nat) (ps : list nat) :
  In p (pos_add i ps) <-> In p ps \/ p = i.
Proof.
  unfold pos_add. destruct (existsb (Nat.eqb i) ps) eqn:E.
  - apply in_pos in E. split; [tauto |]. intros [H | ->]; assumption.
  - rewrite in_app_iff. simpl. split; intros [H | H]; auto.
    destruct H as [H | []]. auto.
Qed.

Lemma misplaced_add_grows (c : ascii) (i : nat) (m : dict (list nat))
    (L : ascii) (ps : list nat) (p : nat) :
  dict_find L m = Some ps -> In p ps ->
  exists ps', dict_find L (misplaced_add c i m) = Some ps' /\ In p ps'.
Proof.
  intros Hf Hp. unfold misplaced_add.
  destruct (Ascii.eqb L c) eqn:E.
  - apply Ascii.eqb_eq in E. subst L. rewrite Hf, dict_find_set.
    rewrite Ascii.eqb_refl. eexists. split; [reflexivity |].
    apply pos_add_In. now left.
  - destruct (dict_find c m); rewrite dict_find_set, E; eauto.
Qed.

Lemma misplaced_add_keys (c L : ascii) (i : nat) (m : dict (list nat)) :
  In L (dict_keys (misplaced_add c i m)) <-> In L (dict_keys m) \/ L = c.
Proof.
  unfold misplaced_add.
  assert (H : forall v, In L (dict_keys (dict_set c v m))
                        <-> In L (dict_keys m) \/ L = c).
  { intros v. rewrite dict_keys_set. destruct (dict_mem c m) eqn:E.
    - apply dict_mem_keys in E. split; [tauto |].
      intros [H | ->]; assumption.
    - rewrite in_app_iff. simpl. split; intros [H | H]; auto.
      destruct H as [H | []]. auto. }
  destruct (dict_find c m); apply H.
Qed.

Lemma knows_more_refl (a : Guesser) : knows_more a a.
Proof.
  unfold knows_more. split; [apply incl_refl |]. split; [auto |].
  split; [eauto | apply incl_refl].
Qed.

Section Turn.

Variables target guess result : str.
Variable st0 : Guesser.
Hypothesis Hcons : consistent target guess result.
Hypothesis Hpresent : invalid_but_present target guess st0.
Hypothesis Hcorrect :
  forall i c, nth_error (_correct_positions st0) i = Some (Some c) ->
              nth_error target i = Some c.
Hypothesis Hcells : five_positions st0.
Hypothesis Hlen : length guess = 5.

Lemma turn_inv_start : turn_inv target guess result st0 0 st0.
Proof.
  unfold turn_inv. split.
  { intros c Hc Ht. split; [intros j char Hj; lia | now left]. }
  split; [exact Hcorrect |]. split; [exact Hcells |].
  split; [apply knows_more_refl |].
  split; intros; lia.
Qed.

Lemma turn_inv_end (st : Guesser) :
  turn_inv target guess result st0 (length result) st ->
  invalid_but_present target guess st /\
  (forall i c, nth_error (_correct_positions st) i = Some (Some c) ->
               nth_error target i = Some c) /\
  five_positions st /\ knows_more st0 st.
Proof.
  intros (J1 & J2 & J3 & J4 & J5 & _).
  split; [| split; [exact J2 | split; [exact J3 | exact J4]]].
  intros c Hc Ht. destruct (J1 c Hc Ht) as [Hno Hwhy].
  destruct Hcons as [Hl Hsym]. split.
  - destruct Hwhy as [H0 | (i & Hi & Hg & Hr)].
    + destruct J4 as (_ & _ & _ & K4). apply K4.
      now apply (Hpresent c H0 Ht).
    + destruct (Hsym i "+"%char c Hr Hg) as (_ & _ & Hab).
      destruct (Hab eq_refl Ht) as (j & ch & Hgj & Hrj & [Ha | ->]).
      * assert (Hj : j < length result) by (apply nth_error_Some; congruence).
        rewrite (Hno j ch Hj Hgj Hrj) in Ha. discriminate.
      * apply (J5 j c); [apply nth_error_Some; congruence | assumption ..].
  - intros p Hp Htp.
    assert (Hlt : p < length result).
    { rewrite Hl. apply nth_error_Some. congruence. }
    destruct (nth_error result p) as [char|] eqn:Hr.
    2:{ apply nth_error_None in Hr. lia. }
    destruct (Hsym p char c Hr Hp) as [Hex _].
    apply Hex in Htp. rewrite (Hno p char Hlt Hp Hr) in Htp. discriminate.
Qed.

(** A symbol that is neither a letter nor "-" leaves the marks in place. *)
Lemma turn_inv_skip (k : nat) (st : Guesser) (char : ascii) :
  nth_error result k = Some char ->
  isalpha char = false -> char <> "-"%char ->
  turn_inv target guess result st0 k st ->
  turn_inv target guess result st0 (S k) st.
Proof.
  intros Hr Ha Hd (J1 & J2 & J3 & J4 & J5 & J6). unfold turn_inv.
  split.
  { intros c Hc Ht. destruct (J1 c Hc Ht) as [Hno Hwhy]. split.
    - intros j ch Hj Hg Hrj.
      destruct (Nat.eq_dec j k) as [-> | Hne]; [congruence |].
      apply (Hno j ch); [lia | assumption ..].
    - destruct Hwhy as [H0 | (i & Hi & Hg & Hri)]; [now left | right].
      exists i. split; [lia | split; assumption]. }
  split; [exact J2 |]. split; [exact J3 |]. split; [exact J4 |].
  split.
  - intros j c Hj Hg Hrj.
    destruct (Nat.eq_dec j k) as [-> | Hne]; [congruence |].
    apply (J5 j c); [lia | assumption | assumption].
  - intros j c ch Hj Hg Hrj Haj.
    destruct (Nat.eq_dec j k) as [-> | Hne]; [congruence |].
    apply (J6 j c ch); [lia | assumption ..].
Qed.

Lemma turn_inv_exact (k : nat) (st : Guesser) (char c : ascii) :
  nth_error result k = Some char -> nth_error guess k = Some c ->
  isalpha char = true ->
  turn_inv target guess result st0 k st ->
  exists st', feedback_char guess st k char = Ok st' /\
              turn_inv target guess result st0 (S k) st'.
Proof.
  intros Hr Hg Ha (J1 & J2 & J3 & J4 & J5 & J6).
  destruct Hcons as [_ Hc]. destruct (Hc k char c Hr Hg) as [Hex _].
  pose proof (proj1 Hex Ha) as Htk.
  assert (Hk : k < length (_correct_positions st)).
  { unfold five_positions in J3. rewrite J3, <- Hlen.
    apply nth_error_Some. congruence. }
  destruct (feedback_char_exact guess st k char c Ha Hg Hk)
    as (st' & E & Hm & Hcp & Hinv).
  exists st'. split; [exact E |].
  destruct J4 as (K1 & K2 & K3 & K4).
  assert (Hcell : forall i,
            nth_error (_correct_positions st') i
            = if i =? k then Some (Some c)
              else nth_error (_correct_positions st) i).
  { intros i. rewrite Hcp. now apply nth_error_list_set. }
  unfold turn_inv. split.
  { intros d Hd Ht. apply Hinv in Hd. destruct Hd as [Hd Hne].
    destruct (J1 d Hd Ht) as [Hno Hwhy]. split.
    - intros j ch Hj Hgj Hrj.
      destruct (Nat.eq_dec j k) as [-> | Hjk]; [congruence |].
      apply (Hno j ch); [lia | assumption ..].
    - destruct Hwhy as [H0 | (i & Hi & Hgi & Hri)]; [now left | right].
      exists i. split; [lia | split; assumption]. }
  split.
  { intros i x. rewrite Hcell. destruct (i =? k) eqn:Eik.
    - apply Nat.eqb_eq in Eik. subst i. intros H. injection H as <-.
      exact Htk.
    - apply J2. }
  split; [unfold five_positions; rewrite Hcp, list_set_length; exact J3 |].
  split.
  { unfold knows_more. rewrite Hm. split.
    - intros d Hd. apply Hinv. split; [now apply K1 |].
      intros ->.
      assert (Hin : In c target) by (eapply nth_error_In; exact Htk).
      destruct (Hpresent c Hd Hin) as [_ Hp]. exact (Hp k Hg Htk).
    - split; [| split; assumption].
      intros i x Hi. rewrite Hcell. destruct (i =? k) eqn:Eik.
      + apply Nat.eqb_eq in Eik. subst i.
        pose proof (J2 k x (K2 k x Hi)) as Hx. congruence.
      + now apply K2. }
  split.
  - intros j x Hj Hgj Hrj. rewrite Hm.
    destruct (Nat.eq_dec j k) as [-> | Hjk].
    + rewrite Hr in Hrj. injection Hrj as ->. discriminate.
    + apply (J5 j x); [lia | assumption | assumption].
  - intros j x ch Hj Hgj Hrj Haj. rewrite Hcell.
    destruct (j =? k) eqn:Ejk.
    + apply Nat.eqb_eq in Ejk. subst j. congruence.
    + apply Nat.eqb_neq in Ejk. apply (J6 j x ch); [lia | assumption ..].
Qed.

Lemma turn_inv_present (k : nat) (st : Guesser) (c : ascii) :
  nth_error result k = Some "-"%char -> nth_error guess k = Some c ->
  turn_inv target guess result st0 k st ->
  exists st', feedback_char guess st k "-" = Ok st' /\
              turn_inv target guess result st0 (S k) st'.
Proof.
  intros Hr Hg (J1 & J2 & J3 & J4 & J5 & J6).
  eexists. split.
  { unfold feedback_char, str_get, bind. rewrite Hg. reflexivity. }
  destruct J4 as (K1 & K2 & K3 & K4).
  unfold turn_inv. simpl. split.
  { intros d Hd Ht. destruct (J1 d Hd Ht) as [Hno Hwhy]. split.
    - intros j ch Hj Hgj Hrj.
      destruct (Nat.eq_dec j k) as [-> | Hjk].
      + rewrite Hr in Hrj. injection Hrj as <-. reflexivity.
      + apply (Hno j ch); [lia | assumption ..].
    - destruct Hwhy as [H0 | (i & Hi & Hgi & Hri)]; [now left | right].
      exists i. split; [lia | split; assumption]. }
  split; [exact J2 |]. split; [exact J3 |].
  split.
  { unfold knows_more. simpl. split; [exact K1 |]. split; [exact K2 |].
    split.
    - intros L ps p HL Hp. destruct (K3 L ps p HL Hp) as (ps' & H1 & H2).
      eapply misplaced_add_grows; eassumption.
    - intros L HL. apply misplaced_add_keys. left. now apply K4. }
  split.
  - intros j x Hj Hgj Hrj. apply misplaced_add_keys.
    destruct (Nat.eq_dec j k) as [-> | Hjk].
    + right. congruence.
    + left. apply (J5 j x); [lia | assumption | assumption].
  - intros j x ch Hj Hgj Hrj Haj.
    destruct (Nat.eq_dec j k) as [-> | Hjk].
    + rewrite Hr in Hrj. injection Hrj as <-. discriminate.
    + apply (J6 j x ch); [lia | assumption ..].
Qed.

Lemma turn_inv_absent (k : nat) (st : Guesser) (c : ascii) :
  nth_error result k = Some "+"%char -> nth_error guess k = Some c ->
  turn_inv target guess result st0 k st ->
  exists st', feedback_char guess st k "+" = Ok st' /\
              turn_inv target guess result st0 (S k) st'.
Proof.
  intros Hr Hg Hinv.
  assert (Hskip : turn_inv target guess result st0 (S k) st).
  { apply (turn_inv_skip k st "+"); try assumption;
      [reflexivity | discriminate]. }
  eexists. split.
  { unfold feedback_char, str_get, bind. rewrite Hg. reflexivity. }
  simpl.
  destruct (negb (dict_mem c (_misplaced_letters st))
            && negb (in_correct c (_correct_positions st))) eqn:E;
    [| exact Hskip].
  apply andb_true_iff in E. destruct E as [_ E2].
  apply negb_true_iff in E2.
  destruct Hinv as (_ & _ & _ & _ & _ & J6).
  destruct Hskip as (J1 & J2 & J3 & J4 & J5' & J6').
  destruct J4 as (K1 & K2 & K3 & K4).
  unfold turn_inv. simpl. split.
  { intros d Hd Ht. apply set_add_In in Hd. destruct Hd as [Hd | ->];
      [now apply J1 |].
    split.
    - intros j ch Hj Hgj Hrj.
      destruct (Nat.eq_dec j k) as [-> | Hjk].
      + rewrite Hr in Hrj. injection Hrj as <-. reflexivity.
      + destruct (isalpha ch) eqn:Haj; [exfalso | reflexivity].
        assert (Hcell : nth_error (_correct_positions st) j = Some (Some c))
          by (apply (J6 j c ch); [lia | assumption ..]).
        apply nth_error_In in Hcell. apply in_correct_spec in Hcell.
        congruence.
    - right. exists k. split; [lia | split; assumption]. }
  split; [exact J2 |]. split; [exact J3 |].
  split.
  { unfold knows_more. simpl. split; [| split; [| split]]; try assumption.
    intros d Hd. apply set_add_In. left. now apply K1. }
  split; assumption.
Qed.

Lemma feedback_char_turn_inv (k : nat) (st : Guesser) (char : ascii) :
  nth_error result k = Some char ->
  turn_inv target guess result st0 k st ->
  exists st', feedback_char guess st k char = Ok st' /\
              turn_inv target guess result st0 (S k) st'.
Proof.
  intros Hr Hinv.
  assert (Hk : k < length guess).
  { destruct Hcons as [Hl _]. rewrite <- Hl.
    apply nth_error_Some. congruence. }
  destruct (nth_error guess k) as [c|] eqn:Hg.
  2:{ apply nth_error_None in Hg. lia. }
  destruct (isalpha char) eqn:Ha.
  - now apply (turn_inv_exact k st char c).
  - destruct (Ascii.eqb char "-") eqn:E1.
    + apply Ascii.eqb_eq in E1. subst char.
      now apply (turn_inv_present k st c).
    + destruct (Ascii.eqb char "+") eqn:E2.
      * apply Ascii.eqb_eq in E2. subst char.
        now apply (turn_inv_absent k st c).
      * exists st. split.
        -- unfold feedback_char. rewrite Ha, E1, E2. reflexivity.
        -- apply (turn_inv_skip k st char); try assumption.
           intros ->. rewrite Ascii.eqb_refl in E1. discriminate.
Qed.

Lemma process_feedback_turn_inv (rest : str) :
  forall (k : nat) (st : Guesser),
    (forall n, nth_error rest n = nth_error result (k + n)) ->
    k + length rest = length result ->
    turn_inv target guess result st0 k st ->
    exists st', process_feedback guess st k rest = (st', None) /\
                turn_inv target guess result st0 (length result) st'.
Proof.
  induction rest as [|char rest IH]; intros k st Hn Hl Hinv; simpl in *.
  - exists st. split; [reflexivity |]. rewrite <- Hl, Nat.add_0_r.
    exact Hinv.
  - assert (Hr : nth_error result k = Some char).
    { specialize (Hn 0). rewrite Nat.add_0_r in Hn. now rewrite <- Hn. }
    destruct (feedback_char_turn_inv k st char Hr Hinv) as (st1 & E & H1).
    rewrite E. apply IH; [| lia | exact H1].
    intros n. specialize (Hn (S n)). simpl in Hn.
    now rewrite Nat.add_succ_r in Hn.
Qed.

(** One turn of consistent feedback: the update completes, the confirmed
    letters stay the target's, nothing known before is lost, and a letter of
    the target is invalid afterwards only if it is a misplaced letter too
    that the guess has at no position of the target. *)
Lemma consistent_turn :
  exists st', process_feedback guess st0 0 result = (st', None) /\
              invalid_but_present target guess st' /\
              (forall i c,
                 nth_error (_correct_positions st') i = Some (Some c) ->
                 nth_error target i = Some c) /\
              five_positions st' /\ knows_more st0 st'.
Proof.
  destruct (process_feedback_turn_inv result 0 st0) as (st' & E & H).
  - intros n. reflexivity.
  - reflexivity.
  - exact turn_inv_start.
  - exists st'. split; [exact E |]. now apply turn_inv_end.
Qed.

End Turn.

(** ** Candidate lists across turns *)

Lemma qualifies_mono (a b : Guesser) (w : str) :
  knows_more a b -> qualifies b w -> qualifies a w.
Proof.
  intros (K1 & K2 & K3 & K4) (Q1 & Q2 & Q3 & Q4). unfold qualifies.
  split; [intros c Hc; apply Q1; now apply K1 |].
  split; [intros i c Hi; apply Q2; now apply K2 |].
  split.
  - intros L ps p HL Hp. destruct (K3 L ps p HL Hp) as (ps' & H1 & H2).
    exact (Q3 L ps' p H1 H2).
  - intros L HL. apply Q4. now apply K4.
Qed.

(** The constraints after a call are those before it, or those left by
    processing the feedback against a five-letter previous guess. *)
Lemma get_guess_knowledge (fuel : nat) (hash : ascii -> nat)
    (rnd : nat -> nat) (input : str) (g g' : Guesser) (result : str)
    (r : res str) :
  get_guess fuel hash rnd input g result = Finished r g' ->
  same_knowledge g g' \/
  exists last, last_tried (_tried g) = Some last /\ length last = 5 /\
               same_knowledge (fst (process_feedback last g 0 result)) g'.
Proof.
  unfold get_guess.
  destruct (str_eqb (_manual g) (s "manual")).
  { intros H. injection H as _ <-. left. repeat split. }
  assert (Hp : same_knowledge g (fst (pick hash rnd g result)) \/
               exists last, last_tried (_tried g) = Some last /\
                            length last = 5 /\
                            same_knowledge
                              (fst (process_feedback last g 0 result))
                              (fst (pick hash rnd g result))).
  { unfold pick. destruct (last_tried (_tried g)) as [last|];
      [| left; repeat split].
    destruct (length last =? 5) eqn:E5; simpl; [| left; repeat split].
    apply Nat.eqb_eq in E5. right. exists last.
    split; [reflexivity |]. split; [exact E5 |].
    destruct (process_feedback last g 0 result) as [g1 [e|]];
      repeat split. }
  destruct (pick hash rnd g result) as [g1 [[[w cursor] filtered]|e]];
    simpl in Hp.
  - destruct (anti_repeat fuel rnd cursor (_tried g1) filtered w)
      as [[w'|e]|]; try discriminate; intros H; injection H as _ <-;
      exact Hp.
  - intros H. injection H as _ <-. exact Hp.
Qed.

Lemma get_guess_word_list (fuel : nat) (hash : ascii -> nat)
    (rnd : nat -> nat) (input : str) (g g' : Guesser) (result : str)
    (r : res str) :
  get_guess fuel hash rnd input g result = Finished r g' ->
  word_list g' = word_list g.
Proof.
  unfold get_guess.
  destruct (str_eqb (_manual g) (s "manual")).
  { intros H. injection H as _ <-. reflexivity. }
  pose proof (pick_frame hash rnd g result) as (Hw & _).
  destruct (pick hash rnd g result) as [g1 [[[w cursor] filtered]|e]];
    simpl in Hw.
  - destruct (anti_repeat fuel rnd cursor (_tried g1) filtered w)
      as [[w'|e]|]; try discriminate; intros H; injection H as _ <-;
      simpl; congruence.
  - intros H. injection H as _ <-. congruence.
Qed.

(** No guess is selected from an empty candidate list. *)
Lemma select_nothing (hash : ascii -> nat) (rnd : nat -> nat) (cursor : nat)
    (self : Guesser) :
  exists e, select hash rnd cursor self [] = Raise e.
Proof.
  unfold select. destruct (guess_count self =? 1).
  - unfold second_guess.
    destruct (2 <? length (_misplaced_letters self)); eexists; reflexivity.
  - simpl. rewrite andb_false_r. eexists. reflexivity.
Qed.

(** The ways a call ends: the object untouched; the first guess recorded;
    or, after a five-letter guess, the feedback processed and then either
    nothing recorded, or a guess recorded, which takes a candidate. *)
Lemma get_guess_step (fuel : nat) (hash : ascii -> nat) (rnd : nat -> nat)
    (input : str) (g g' : Guesser) (result : str) (r : res str) :
  get_guess fuel hash rnd input g result = Finished r g' ->
  g' = g \/
  (last_tried (_tried g) = None /\ exists guess, g' = record_guess g guess) \/
  exists last st oe,
    last_tried (_tried g) = Some last /\ length last = 5 /\
    process_feedback last g 0 result = (st, oe) /\
    (g' = st \/
     exists guess candidates,
       filtered_word_list st = Ok candidates /\ candidates <> [] /\
       g' = record_guess st guess).
Proof.
  unfold get_guess.
  destruct (str_eqb (_manual g) (s "manual")).
  { intros H. injection H as _ <-. now left. }
  unfold pick.
  destruct (last_tried (_tried g)) as [last|].
  2:{ destruct (anti_repeat fuel rnd 0 (_tried g) None (first_guess g))
        as [[w|e]|]; try discriminate; intros H; injection H as _ <-.
      - right. left. split; [reflexivity |]. eexists. reflexivity.
      - now left. }
  destruct (length last =? 5) eqn:E5; cbn [negb].
  2:{ intros H. injection H as _ <-. now left. }
  apply Nat.eqb_eq in E5.
  destruct (process_feedback last g 0 result) as [st [e|]] eqn:Ep.
  { intros H. injection H as _ <-. right. right.
    exists last, st, (Some e). split; [reflexivity |].
    split; [exact E5 |]. split; [exact Ep | now left]. }
  intros H. right. right. exists last, st, None.
  split; [reflexivity |]. split; [exact E5 |]. split; [exact Ep |].
  destruct (filtered_word_list st) as [candidates|e] eqn:Ef; cbn [bind] in H.
  2:{ injection H as _ <-. now left. }
  destruct (select hash rnd 0 st candidates) as [p|e] eqn:Es;
    cbn [bind fst snd] in H.
  2:{ injection H as _ <-. now left. }
  destruct (anti_repeat fuel rnd (snd p) (_tried st) (Some candidates) (fst p))
    as [[w|e]|]; try discriminate; injection H as _ <-.
  - right. exists w, candidates. split; [reflexivity |].
    split; [| reflexivity].
    intros ->. destruct (select_nothing hash rnd 0 st) as [e He]. congruence.
  - now left.
Qed.

(** A letter both invalid and misplaced lets no word through the filter. *)
Lemma keeps_blocked (self : Guesser) (w : str) (c : ascii) (b : bool) :
  In c (_invalid_letters self) ->
  In c (dict_keys (_misplaced_letters self)) ->
  keeps self w = Ok b -> b = false.
Proof.
  intros Hi Hk. unfold keeps.
  destruct (existsb (fun letter => mem letter w) (_invalid_letters self))
    eqn:E.
  { intros H. now injection H as <-. }
  destruct (contradicts_correct (_correct_positions self) w (seq 0 5))
    as [bad|e]; cbn [bind]; [| discriminate].
  destruct bad; [intros H; now injection H as <- |].
  destruct (at_excluded_position (_misplaced_letters self) 0 w);
    [intros H; now injection H as <- |].
  intros H. injection H as <-.
  apply not_true_is_false. intros Hall. rewrite forallb_forall in Hall.
  specialize (Hall c Hk).
  assert (Hex : existsb (fun letter => mem letter w) (_invalid_letters self)
                = true).
  { apply existsb_exists. exists c. split; assumption. }
  congruence.
Qed.

Lemma filter_words_blocked (self : Guesser) (c : ascii) (words : list str) :
  In c (_invalid_letters self) ->
  In c (dict_keys (_misplaced_letters self)) ->
  forall l, filter_words self words = Ok l -> l = [].
Proof.
  intros Hi Hk. induction words as [|w rest IH]; intros l; simpl.
  - intros H. now injection H as <-.
  - destruct (keeps self w) as [b|e] eqn:Ek; cbn [bind]; [| discriminate].
    destruct (filter_words self rest) as [l'|e]; cbn [bind];
      [| discriminate].
    rewrite (keeps_blocked self w c b Hi Hk Ek).
    intros H. injection H as <-. now apply IH.
Qed.

Lemma tracks_fresh (target : str) (words : list str) (manual first : str)
    (letters : list ascii) :
  tracks target
    (mkGuesser words manual [] first [] (repeat None 5) [] 0 letters).
Proof.
  unfold tracks, invalid_but_present. simpl.
  split; [intros c [] |]. split; [intros last H; discriminate H |].
  split; [| reflexivity].
  intros i c Hi. exfalso.
  do 5 (destruct i as [|i]; [discriminate |]).
  destruct i; discriminate.
Qed.

(** In a game with consistent feedback the object tracks the target. *)
Lemma reachable_tracks (target manual : str) (words : list str) (g : Guesser) :
  reachable (consistent_with target) manual words g ->
  tracks target g /\ word_list g = words.
Proof.
  induction 1 as [g Hi | g _ [_ IHw]
                 | g fuel hash rnd input result r g' _ [IHt IHw] Hok Hc].
  - unfold init, bind in Hi. destruct (analysis words); [| discriminate].
    injection Hi as <-. split; [apply tracks_fresh | reflexivity].
  - split; [apply tracks_fresh | exact IHw].
  - split.
    2:{ rewrite (get_guess_word_list fuel hash rnd input g g' result r Hc).
        exact IHw. }
    destruct IHt as (T1 & T2 & T3 & T4).
    destruct (get_guess_step fuel hash rnd input g g' result r Hc)
      as [-> | [(Hn & guess & ->)
               | (last & st & oe & Hl & H5 & Ep & Hg')]].
    + split; [exact T1 | split; [exact T2 | split; [exact T3 | exact T4]]].
    + assert (Hnone : forall c, In c (_invalid_letters g) -> ~ In c target).
      { intros c Hc1 Hc2. destruct (T1 c Hc1 Hc2) as [last E]. congruence. }
      unfold tracks, invalid_but_present. simpl.
      split; [intros c Hc1 Hc2; destruct (Hnone c Hc1 Hc2) |].
      split; [intros last _ c Hc1 Hc2; destruct (Hnone c Hc1 Hc2) |].
      split; assumption.
    + destruct (consistent_turn target last result g (Hok last Hl)
                  (T2 last Hl) T3 T4 H5) as (st' & E & P & C & F & _).
      rewrite Ep in E. injection E as <- _.
      pose proof (process_feedback_frame last result g 0) as Hf.
      rewrite Ep in Hf. destruct Hf as (_ & _ & Ht & _). simpl in Ht.
      destruct Hg' as [-> | (guess & candidates & Hfw & Hne & ->)].
      * split; [intros c _ _; exists last; congruence |].
        split; [| split; assumption].
        intros last' Hl'. rewrite <- Ht, Hl in Hl'. injection Hl' as <-.
        exact P.
      * assert (Hnone : forall c, In c (_invalid_letters st) ->
                                  ~ In c target).
        { intros c Hc1 Hc2. destruct (P c Hc1 Hc2) as [Hk _].
          apply Hne.
          exact (filter_words_blocked st c (word_list st) Hc1 Hk
                   candidates Hfw). }
        unfold tracks, invalid_but_present. simpl.
        split; [intros c Hc1 Hc2; destruct (Hnone c Hc1 Hc2) |].
        split; [intros last' _ c Hc1 Hc2; destruct (Hnone c Hc1 Hc2) |].
        split; assumption.
Qed.

(** C4: in a game whose feedback is consistent with a hidden target, the
    feedback of the next turn is processed without error, and every word of
    the candidate list computed from the updated state is a word of the
    candidate list of the state before.  The feedback may mark the
    occurrences of a repeated letter in any order. *)
Theorem candidates_shrink (target manual : str) (words : list str)
    (g : Guesser) (last result : str) :
  five_letter_words words ->
  reachable (consistent_with target) manual words g ->
  last_tried (_tried g) = Some last -> length last = 5 ->
  consistent target last result ->
  exists (g' : Guesser) (before after : list str),
    process_feedback last g 0 result = (g', None) /\
    filtered_word_list g = Ok before /\
    filtered_word_list g' = Ok after /\
    incl after before.
Proof.
  intros Hws Hr Hlast H5 Hcons.
  destruct (reachable_tracks target manual words g Hr)
    as [(_ & T2 & T3 & Hp) Hw].
  destruct (consistent_turn target last result g Hcons (T2 last Hlast) T3
              Hp H5) as (g' & E & _ & _ & Hp' & Hk).
  assert (Hw' : word_list g' = words).
  { pose proof (process_feedback_frame last result g 0) as (Hf & _).
    rewrite E in Hf. simpl in Hf. congruence. }
  exists g', (filter (keepsb g) words), (filter (keepsb g') words).
  split; [exact E |].
  split.
  { unfold filtered_word_list. rewrite Hw.
    now apply filter_words_total. }
  split.
  { unfold filtered_word_list. rewrite Hw'.
    now apply filter_words_total. }
  intros w Hin. apply filter_In in Hin. destruct Hin as [Hin Hkeep].
  apply filter_In. split; [exact Hin |].
  assert (Hlen : length w = 5).
  { unfold five_letter_words in Hws. rewrite Forall_forall in Hws. auto. }
  apply (keepsb_qualifies g w Hp Hlen).
  apply (qualifies_mono g g' w Hk).
  now apply (keepsb_qualifies g' w Hp' Hlen).
Qed.

Lemma demo_consistent_feedback :
  consistent (s "trace") (s "crate") (s "-ra-e").
Proof. consistent_words. Defined.

(** The game on "zooms": the second guess "fuzzy" repeats a letter that the
    hidden word has once.  Both ways of marking the two occurrences are
    consistent feedback. *)
Lemma twin_first_feedback :
  consistent (s "zooms") (s "craet") (s "+++++").
Proof. consistent_words. Defined.

Lemma twin_present_then_absent :
  consistent (s "zooms") (s "fuzzy") (s "++-++").
Proof. consistent_words. Defined.

Lemma twin_absent_then_present :
  consistent (s "zooms") (s "fuzzy") (s "+++-+").
Proof. consistent_words. Defined.

Lemma twin_second_reachable :
  reachable (consistent_with (s "zooms")) (s "auto") twin_words twin_second.
Proof.
  apply reach_call with (g := twin_first) (fuel := 0) (hash := demo_hash)
    (rnd := demo_rnd) (input := []) (result := s "+++++")
    (r := Ok (s "fuzzy")).
  - apply reach_call with (g := twin_fresh) (fuel := 0) (hash := demo_hash)
      (rnd := demo_rnd) (input := []) (result := [])
      (r := Ok (s "craet")).
    + apply reach_init. vm_compute. reflexivity.
    + intros last H. discriminate H.
    + reflexivity.
  - intros last H. injection H as <-. exact twin_first_feedback.
  - vm_compute. reflexivity.
Defined.

Lemma twin_blocked_reachable :
  reachable (consistent_with (s "zooms")) (s "auto") twin_words twin_blocked.
Proof.
  apply reach_call with (g := twin_second) (fuel := 0) (hash := demo_hash)
    (rnd := demo_rnd) (input := []) (result := s "+++-+")
    (r := Raise choice_empty_error).
  - exact twin_second_reachable.
  - intros last H. injection H as <-. exact twin_absent_then_present.
  - vm_compute. reflexivity.
Defined.

(** Two turns of the game on "zooms".  From [twin_second] the feedback
    "++-++" leaves "zooms" alone of the three candidates; from
    [twin_blocked], where no candidate is left, it leaves none. *)
Lemma candidates_shrink_witness :
  filtered_word_list twin_second = Ok (map s ["fuzzy"; "zooms"; "gizmo"]%string)
  /\ filtered_word_list twin_blocked = Ok [] /\
  (exists (g' : Guesser) (before after : list str),
     process_feedback (s "fuzzy") twin_second 0 (s "++-++") = (g', None) /\
     filtered_word_list twin_second = Ok before /\
     filtered_word_list g' = Ok after /\
     incl after before) /\
  (exists (g' : Guesser) (before after : list str),
     process_feedback (s "fuzzy") twin_blocked 0 (s "++-++") = (g', None) /\
     filtered_word_list twin_blocked = Ok before /\
     filtered_word_list g' = Ok after /\
     incl after before).
Proof.
  split; [vm_compute; reflexivity |].
  split; [vm_compute; reflexivity |].
  split.
  - apply (candidates_shrink (s "zooms") (s "auto") twin_words twin_second
             (s "fuzzy") (s "++-++")).
    + repeat constructor.
    + exact twin_second_reachable.
    + reflexivity.
    + reflexivity.
    + exact twin_present_then_absent.
  - apply (candidates_shrink (s "zooms") (s "auto") twin_words twin_blocked
             (s "fuzzy") (s "++-++")).
    + repeat constructor.
    + exact twin_blocked_reachable.
    + reflexivity.
    + reflexivity.
    + exact twin_present_then_absent.
Defined.

(** The hypothesis on the feedback is needed: from [twin_blocked] the
    feedback "++z++", which no game on "zooms" gives for "fuzzy", is
    processed too, and lets "gizmo" through where no word passed before. *)
Lemma inconsistent_feedback_adds_candidate :
  ~ consistent (s "zooms") (s "fuzzy") (s "++z++") /\
  filtered_word_list twin_blocked = Ok [] /\
  exists g' : Guesser,
    process_feedback (s "fuzzy") twin_blocked 0 (s "++z++") = (g', None) /\
    filtered_word_list g' = Ok [s "gizmo"].
Proof.
  split.
  { intros [_ H].
    destruct (H 2 "z"%char "z"%char eq_refl eq_refl) as [[Hex _] _].
    specialize (Hex eq_refl). discriminate Hex. }
  split; [vm_compute; reflexivity |].
  eexists. split; vm_compute; reflexivity.
Qed.

(** ** The probe of the second guess *)

Lemma sorted_letters_of_NoDup (hash : ascii -> nat) (filtered : list str) :
  NoDup (sorted_letters_of hash filtered).
Proof.
  unfold sorted_letters_of. rewrite letter_entropy_keys. unfold set_iter.
  eapply Permutation_NoDup; [apply Permutation_sym, sorted_desc_perm |].
  eapply Permutation_NoDup; [apply Permutation_sym, sorted_desc_perm |].
  apply dedup_NoDup.
Qed.

Lemma firstn_exact {A : Type} (l l' : list A) (n : nat) :
  length l = n -> firstn n (l ++ l') = l.
Proof.
  intros <-. rewrite firstn_app, Nat.sub_diag, firstn_all. simpl.
  apply app_nil_r.
Qed.

(** The probe is made of the first five letters of the ranking that are not
    letters of the first guess. *)
Lemma assemble_probe_firstn (avoid letters : list ascii) :
  forall second_guess used : list ascii,
    NoDup letters -> (forall c, In c used -> ~ In c letters) ->
    length second_guess < 5 ->
    assemble_probe avoid letters second_guess used
    = firstn 5 (second_guess
                ++ filter (fun c => negb (mem c avoid)) letters).
Proof.
  induction letters as [|c rest IH]; intros sg used Hnd Hused Hlen;
    cbn [assemble_probe filter].
  - rewrite app_nil_r. symmetry. apply firstn_all2. lia.
  - inversion Hnd as [|? ? Hc Hrest]; subst.
    assert (Hfresh : mem c used = false).
    { apply mem_false. intros H. apply (Hused c H). now left. }
    rewrite Hfresh, andb_true_r.
    destruct (mem c avoid) eqn:Ea; cbn [negb].
    + replace (length sg =? 5) with false
        by (symmetry; apply Nat.eqb_neq; lia).
      apply IH; [exact Hrest | | exact Hlen].
      intros x Hx H. apply (Hused x Hx). now right.
    + destruct (length (sg ++ [c]) =? 5) eqn:E5.
      * apply Nat.eqb_eq in E5.
        change (sg ++ c :: filter (fun c0 => negb (mem c0 avoid)) rest)
          with (sg ++ [c] ++ filter (fun c0 => negb (mem c0 avoid)) rest).
        rewrite app_assoc. symmetry. now apply firstn_exact.
      * apply Nat.eqb_neq in E5. rewrite length_app in E5.
        cbn [length] in E5.
        rewrite IH.
        -- rewrite <- app_assoc. reflexivity.
        -- exact Hrest.
        -- intros x Hx. apply set_add_In in Hx.
           destruct Hx as [Hx | ->]; [| exact Hc].
           intros H. apply (Hused x Hx). now right.
        -- rewrite length_app. cbn [length]. lia.
Qed.

Lemma second_guess_probe (hash : ascii -> nat) (rnd : nat -> nat)
    (cursor : nat) (self : Guesser) (filtered : list str) :
  length (_misplaced_letters self) <= 2 ->
  filter (avoids (first_guess_letters self)) filtered = [] ->
  second_guess hash rnd cursor self filtered
  = let probe :=
      firstn 5 (filter (fun c => negb (mem c (first_guess_letters self)))
                  (sorted_letters_of hash filtered)) in
    if length probe <? 5
    then word <- choice rnd cursor filtered ;; Ok (word, S cursor)
    else Ok (probe, cursor).
Proof.
  intros Hm Hnone.
  rewrite (second_guess_probe_or_choice hash rnd cursor self filtered Hm Hnone).
  rewrite assemble_probe_firstn.
  - reflexivity.
  - apply sorted_letters_of_NoDup.
  - intros c [].
  - cbn [length]. lia.
Qed.

(** The ranking goes from the highest key down. *)
Lemma insert_desc_sorted {A : Type} (key : A -> nat) (x : A) (l : list A) :
  Sorted (fun a b => key b <= key a) l ->
  Sorted (fun a b => key b <= key a) (insert_desc key x l).
Proof.
  induction l as [|y l IH]; intros Hs; simpl.
  - constructor; constructor.
  - destruct (key x <? key y) eqn:E.
    + apply Nat.ltb_lt in E. apply Sorted_inv in Hs. destruct Hs as [Hs Hh].
      constructor; [now apply IH |].
      destruct l as [|z l]; simpl.
      * constructor. lia.
      * destruct (key x <? key z); constructor.
        -- now apply HdRel_inv in Hh.
        -- lia.
    + apply Nat.ltb_ge in E. constructor; [exact Hs |]. now constructor.
Qed.

Lemma sorted_desc_sorted {A : Type} (key : A -> nat) (l : list A) :
  Sorted (fun a b => key b <= key a) (sorted_desc key l).
Proof.
  induction l as [|x l IH]; simpl; [constructor |].
  now apply insert_desc_sorted.
Qed.

(** * Further properties of the class *)

(** ** What every call preserves *)

Lemma feedback_char_cells (last_guess : str) (self self' : Guesser) (i : nat)
    (char : ascii) :
  feedback_char last_guess self i char = Ok self' ->
  _correct_positions self'
  = if isalpha char
    then match nth_error last_guess i with
         | Some c => list_set (_correct_positions self) i (Some c)
         | None => _correct_positions self
         end
    else _correct_positions self.
Proof.
  unfold feedback_char, str_get, bind.
  destruct (isalpha char).
  - destruct (nth_error last_guess i) as [c|]; [| discriminate].
    destruct (i <? length (_correct_positions self)); [| discriminate].
    match goal with |- context [if ?b then _ else _] => destruct b end;
      intros H; injection H as <-; reflexivity.
  - destruct (Ascii.eqb char "-").
    + destruct (nth_error last_guess i); [| discriminate].
      intros H; injection H as <-; reflexivity.
    + destruct (Ascii.eqb char "+").
      * destruct (nth_error last_guess i); [| discriminate].
        match goal with |- context [if ?b then _ else _] => destruct b end;
          intros H; injection H as <-; reflexivity.
      * intros H; injection H as <-; reflexivity.
Qed.

Lemma feedback_char_five (last_guess : str) (self self' : Guesser) (i : nat)
    (char : ascii) :
  feedback_char last_guess self i char = Ok self' ->
  length (_correct_positions self') = length (_correct_positions self).
Proof.
  intros H. rewrite (feedback_char_cells _ _ _ _ _ H).
  destruct (isalpha char); [| reflexivity].
  destruct (nth_error last_guess i); [apply list_set_length | reflexivity].
Qed.

Lemma process_feedback_five (last_guess : str) (result : str) :
  forall (self : Guesser) (i : nat),
    length (_correct_positions (fst (process_feedback last_guess self i result)))
    = length (_correct_positions self).
Proof.
  induction result as [|char rest IH]; intros self i; simpl; [reflexivity |].
  destruct (feedback_char last_guess self i char) as [self'|e] eqn:E;
    [| reflexivity].
  rewrite IH. eapply feedback_char_five. exact E.
Qed.

Lemma get_guess_five (fuel : nat) (hash : ascii -> nat) (rnd : nat -> nat)
    (input : str) (g g' : Guesser) (result : str) (r : res str) :
  get_guess fuel hash rnd input g result = Finished r g' ->
  length (_correct_positions g') = length (_correct_positions g).
Proof.
  intros Hc.
  destruct (get_guess_knowledge fuel hash rnd input g g' result r Hc)
    as [(_ & E & _) | (last & _ & _ & (_ & E & _))].
  - now rewrite E.
  - rewrite <- E. apply process_feedback_five.
Qed.

Lemma init_fields (manual : str) (words : list str) (g : Guesser) :
  init manual words = Ok g ->
  exists first,
    analysis words = Ok first /\
    g = mkGuesser words manual [] first [] (repeat None 5) [] 0 (dedup first).
Proof.
  unfold init, bind. destruct (analysis words) as [first|]; [| discriminate].
  intros H. injection H as <-. exists first. split; reflexivity.
Qed.

Lemma reachable_five_positions (ok : Guesser -> str -> Prop) (manual : str)
    (words : list str) (g : Guesser) :
  reachable ok manual words g -> five_positions g.
Proof.
  induction 1 as [g Hi | g _ _ | g fuel hash rnd input result r g' _ IH _ Hc].
  - destruct (init_fields manual words g Hi) as (first & _ & ->).
    reflexivity.
  - reflexivity.
  - unfold five_positions in *.
    rewrite (get_guess_five fuel hash rnd input g g' result r Hc). exact IH.
Qed.

Lemma get_guess_setup (fuel : nat) (hash : ascii -> nat) (rnd : nat -> nat)
    (input : str) (g g' : Guesser) (result : str) (r : res str) :
  get_guess fuel hash rnd input g result = Finished r g' ->
  same_setup g g'.
Proof.
  unfold get_guess, same_setup.
  destruct (str_eqb (_manual g) (s "manual")).
  { intros H. injection H as _ <-. repeat split. }
  pose proof (pick_frame hash rnd g result) as (H1 & H2 & _ & H4 & _ & H6).
  destruct (pick hash rnd g result) as [g1 [[[w cursor] filtered]|e]];
    simpl in *.
  - destruct (anti_repeat fuel rnd cursor (_tried g1) filtered w)
      as [[w'|e]|]; try discriminate; intros H; injection H as _ <-;
      simpl; repeat split; assumption.
  - intros H. injection H as _ <-. repeat split; assumption.
Qed.

Lemma reachable_setup (ok : Guesser -> str -> Prop) (manual : str)
    (words : list str) (g0 g : Guesser) :
  init manual words = Ok g0 -> reachable ok manual words g ->
  same_setup g0 g.
Proof.
  intros H0.
  induction 1 as [g Hi | g _ IH | g fuel hash rnd input result r g' _ IH _ Hc].
  - rewrite H0 in Hi. injection Hi as <-. repeat split.
  - destruct IH as (E1 & E2 & E3 & E4).
    destruct (init_fields manual words g0 H0) as (first & _ & ->).
    unfold same_setup in *. simpl in *. rewrite <- E3.
    repeat split; assumption.
  - destruct IH as (E1 & E2 & E3 & E4).
    destruct (get_guess_setup fuel hash rnd input g g' result r Hc)
      as (F1 & F2 & F3 & F4).
    unfold same_setup. repeat split; congruence.
Qed.

(** X1: [restart_game] brings an engine back to the very state [__init__]
    built, whatever happened since; the next call in auto mode then returns
    the first guess again, whatever feedback it is given. *)
Theorem restart_game_is_fresh (ok : Guesser -> str -> Prop) (manual : str)
    (words : list str) (g0 g : Guesser) :
  init manual words = Ok g0 -> reachable ok manual words g ->
  restart_game g = g0 /\
  (auto_mode g ->
   forall fuel hash rnd input result,
     get_guess fuel hash rnd input (restart_game g) result
     = Finished (Ok (first_guess g0)) (record_guess g0 (first_guess g0))).
Proof.
  intros H0 Hr.
  destruct (reachable_setup ok manual words g0 g H0 Hr) as (E1 & E2 & E3 & E4).
  destruct (init_fields manual words g0 H0) as (first & _ & Hg0).
  assert (Hrestart : restart_game g = g0).
  { unfold restart_game. rewrite <- E1, <- E2, <- E3.
    rewrite Hg0. reflexivity. }
  split; [exact Hrestart |].
  intros Hauto fuel hash rnd input result. rewrite Hrestart.
  unfold auto_mode in Hauto. rewrite <- E2 in Hauto.
  unfold get_guess. rewrite Hauto.
  rewrite Hg0. unfold pick. simpl. destruct fuel; reflexivity.
Qed.

Lemma restart_game_is_fresh_witness :
  restart_game demo_second = demo_fresh /\
  get_guess 0 demo_hash demo_rnd [] (restart_game demo_second) (s "+-+-+")
  = Finished (Ok (s "crate")) demo_first.
Proof.
  assert (H1 : reachable any_feedback (s "auto") demo_words demo_first).
  { apply demo_first_reachable. exact I. }
  assert (H2 : reachable any_feedback (s "auto") demo_words demo_second).
  { apply reach_call with (g := demo_first) (fuel := 0) (hash := demo_hash)
      (rnd := demo_rnd) (input := []) (result := s "+++++")
      (r := Ok (s "fuzzy")); [exact H1 | exact I | apply demo_second_call]. }
  destruct (restart_game_is_fresh any_feedback (s "auto") demo_words
              demo_fresh demo_second demo_fresh_init H2) as [E F].
  split; [exact E |].
  exact (F eq_refl 0 demo_hash demo_rnd [] (s "+-+-+")).
Defined.

(** X2: a call that raises records no guess: the history, the counter and
    the fields set at construction are as before the call (the constraints
    may have been updated). *)
Theorem raising_call_keeps_history (fuel : nat) (hash : ascii -> nat)
    (rnd : nat -> nat) (input : str) (g g' : Guesser) (result : str)
    (e : exn) :
  get_guess fuel hash rnd input g result = Finished (Raise e) g' ->
  _tried g' = _tried g /\ guess_count g' = guess_count g /\ same_setup g g'.
Proof.
  intros Hc.
  split; [| split;
            [| exact (get_guess_setup fuel hash rnd input g g' result
                        (Raise e) Hc)]];
    unfold get_guess in Hc;
    (destruct (str_eqb (_manual g) (s "manual")); [discriminate |]);
    pose proof (pick_frame hash rnd g result) as (_ & _ & Ht & _ & Hn & _);
    (destruct (pick hash rnd g result) as [g1 [[[w cursor] filtered]|e']];
     simpl in Ht, Hn;
     [destruct (anti_repeat fuel rnd cursor (_tried g1) filtered w)
        as [[w'|e'']|]; try discriminate |]);
    injection Hc as _ <-; congruence.
Qed.

Lemma raising_call_keeps_history_witness :
  _tried demo_stuck = _tried demo_second /\
  guess_count demo_stuck = guess_count demo_second /\
  same_setup demo_second demo_stuck.
Proof.
  apply (raising_call_keeps_history 0 demo_hash demo_rnd [] demo_second
           demo_stuck (s "+++-+") choice_empty_error).
  vm_compute. reflexivity.
Defined.

(** ** The filter in reachable states *)

Lemma keeps_total_long (self : Guesser) (w : str) :
  five_positions self -> 5 <= length w ->
  keeps self w = Ok (keepsb self w).
Proof.
  intros Hcp Hw. unfold keeps, keepsb.
  destruct (existsb _ (_invalid_letters self)); [reflexivity |].
  rewrite contradicts_correct_total.
  - unfold bind.
    destruct (contradicts_b (_correct_positions self) w (seq 0 5));
      [reflexivity |].
    destruct (at_excluded_position (_misplaced_letters self) 0 w);
      reflexivity.
  - apply Forall_forall. intros i Hi. apply in_seq in Hi.
    unfold five_positions in Hcp. lia.
Qed.

Lemma filter_words_total_long (self : Guesser) (words : list str) :
  five_positions self -> long_words words ->
  filter_words self words = Ok (filter (keepsb self) words).
Proof.
  intros Hcp Hws. induction Hws as [|w rest Hw _ IH]; [reflexivity |].
  simpl. rewrite (keeps_total_long _ _ Hcp Hw). unfold bind at 1.
  rewrite IH. reflexivity.
Qed.

(** X3: over a word list whose words have at least five characters, no
    sequence of calls and restarts, whatever the feedback, brings the engine
    to a state on which the candidate filter raises: it always yields a
    list of dictionary words. *)
Theorem filter_never_raises (ok : Guesser -> str -> Prop) (manual : str)
    (words : list str) (g : Guesser) :
  long_words words -> reachable ok manual words g ->
  exists candidates,
    filtered_word_list g = Ok candidates /\ incl candidates words.
Proof.
  intros Hws Hr.
  assert (Hw : word_list g = words).
  { clear Hws.
    induction Hr as [g Hi | g _ IH
                    | g fuel hash rnd input result r g' _ IH _ Hc].
    - destruct (init_fields manual words g Hi) as (first & _ & ->).
      reflexivity.
    - exact IH.
    - rewrite (get_guess_word_list fuel hash rnd input g g' result r Hc).
      exact IH. }
  exists (filter (keepsb g) words). split.
  - unfold filtered_word_list. rewrite Hw.
    apply filter_words_total_long; [| exact Hws].
    exact (reachable_five_positions ok manual words g Hr).
  - intros w Hin. apply filter_In in Hin. tauto.
Qed.

Lemma filter_never_raises_witness :
  exists candidates,
    filtered_word_list demo_first = Ok candidates /\
    incl candidates demo_words.
Proof.
  apply (filter_never_raises any_feedback (s "auto") demo_words demo_first).
  - repeat constructor.
  - apply demo_first_reachable. exact I.
Defined.

(** X4: in every state an engine reaches, whatever the feedback strings, a
    letter confirmed at some position is not a member of
    [_invalid_letters]. *)
Theorem confirmed_letter_never_invalid (manual : str) (words : list str)
    (g : Guesser) (i : nat) (c : ascii) :
  reachable any_feedback manual words g ->
  nth_error (_correct_positions g) i = Some (Some c) ->
  ~ In c (_invalid_letters g).
Proof.
  intros Hr Hi.
  apply (reachable_correct_not_invalid manual words g Hr).
  apply in_correct_spec. eapply nth_error_In. exact Hi.
Qed.

Lemma confirmed_letter_never_invalid_witness :
  ~ In "c"%char (_invalid_letters demo_confirmed).
Proof.
  apply (confirmed_letter_never_invalid (s "auto") demo_words demo_confirmed
           0).
  - apply reach_call with (g := demo_first) (fuel := 0) (hash := demo_hash)
      (rnd := demo_rnd) (input := []) (result := s "c++++")
      (r := Raise choice_empty_error).
    + apply demo_first_reachable. exact I.
    + exact I.
    + vm_compute. reflexivity.
  - reflexivity.
Defined.

(** ** Feedback symbols *)

Lemma feedback_char_ignored (last_guess : str) (self : Guesser) (i : nat)
    (char : ascii) :
  ignored_symbol char -> feedback_char last_guess self i char = Ok self.
Proof.
  intros (Ha & Hm & Hp). unfold feedback_char. rewrite Ha.
  destruct (Ascii.eqb char "-") eqn:E1.
  { apply Ascii.eqb_eq in E1. contradiction. }
  destruct (Ascii.eqb char "+") eqn:E2.
  { apply Ascii.eqb_eq in E2. contradiction. }
  reflexivity.
Qed.

Lemma process_feedback_ignored (last_guess : str) (result : str) :
  forall (self : Guesser) (i : nat),
    Forall ignored_symbol result ->
    process_feedback last_guess self i result = (self, None).
Proof.
  induction result as [|char rest IH]; intros self i H; simpl;
    [reflexivity |].
  inversion H as [|? ? Hc Hrest]; subst.
  rewrite (feedback_char_ignored last_guess self i char Hc).
  now apply IH.
Qed.

(** X5: a feedback string made only of symbols other than letters, "-" and
    "+", of any length, is not rejected: the call behaves exactly as on the
    empty feedback string, and no constraint is changed by it.  A letter is
    any character [isalpha] accepts, the accented letters included: those
    are read as exact marks, not ignored. *)
Theorem ignored_feedback_is_empty (fuel : nat) (hash : ascii -> nat)
    (rnd : nat -> nat) (input : str) (self : Guesser) (result : str) :
  Forall ignored_symbol result ->
  get_guess fuel hash rnd input self result
  = get_guess fuel hash rnd input self [] /\
  forall last_guess,
    process_feedback last_guess self 0 result = (self, None).
Proof.
  intros H. split.
  - unfold get_guess, pick.
    destruct (last_tried (_tried self)) as [last|]; [| reflexivity].
    rewrite (process_feedback_ignored last result self 0 H). reflexivity.
  - intros last_guess. now apply process_feedback_ignored.
Qed.

Lemma ignored_feedback_is_empty_witness :
  get_guess 2 demo_hash demo_rnd [] demo_first
    (s "?? 12345 ??" ++ ["215"%char; "247"%char])
  = get_guess 2 demo_hash demo_rnd [] demo_first [].
Proof.
  apply (ignored_feedback_is_empty 2 demo_hash demo_rnd [] demo_first
           (s "?? 12345 ??" ++ ["215"%char; "247"%char])).
  repeat (constructor;
          [split; [reflexivity | split; discriminate] |]).
  constructor.
Defined.

Lemma process_feedback_app (last_guess : str) (a b : str) :
  forall (self : Guesser) (i : nat),
    process_feedback last_guess self i (a ++ b)
    = match process_feedback last_guess self i a with
      | (self', None) => process_feedback last_guess self' (i + length a) b
      | (self', Some e) => (self', Some e)
      end.
Proof.
  induction a as [|char a IH]; intros self i; simpl.
  - now rewrite Nat.add_0_r.
  - destruct (feedback_char last_guess self i char) as [self'|e];
      [| reflexivity].
    rewrite IH. now rewrite Nat.add_succ_r.
Qed.

Lemma feedback_char_out_of_range (last_guess : str) (self : Guesser)
    (i : nat) (char : ascii) :
  length last_guess <= i -> read_symbol char ->
  feedback_char last_guess self i char = Raise str_index_error.
Proof.
  intros Hi Hr. unfold feedback_char, str_get, bind.
  apply nth_error_None in Hi. rewrite Hi.
  destruct (isalpha char) eqn:Ha; [reflexivity |].
  destruct Hr as [Hr | [-> | ->]]; [congruence | reflexivity | reflexivity].
Qed.

(** X6: feedback longer than the previous guess is rejected late.  When the
    sixth symbol is a letter, "-" or "+", the call raises [IndexError], but
    only after the first five symbols were processed: the object is left
    with the constraints they added, and no guess is recorded. *)
Theorem overlong_feedback_raises_late (fuel : nat) (hash : ascii -> nat)
    (rnd : nat -> nat) (input : str) (self : Guesser)
    (last_guess prefix rest : str) (char : ascii) :
  auto_mode self -> last_tried (_tried self) = Some last_guess ->
  length last_guess = 5 -> five_positions self ->
  length prefix = 5 -> read_symbol char ->
  get_guess fuel hash rnd input self (prefix ++ char :: rest)
  = Finished (Raise str_index_error)
      (fst (process_feedback last_guess self 0 prefix)).
Proof.
  intros Hauto Hlast Hlen Hcp Hpre Hread.
  unfold get_guess, pick. rewrite Hauto, Hlast, Hlen. simpl negb. cbv iota.
  rewrite process_feedback_app.
  destruct (process_feedback_in_range last_guess prefix self 0) as [Hn _];
    [unfold five_positions in Hcp; lia .. |].
  destruct (process_feedback last_guess self 0 prefix) as [self' oe].
  simpl in Hn. subst oe. simpl.
  rewrite feedback_char_out_of_range; [reflexivity | lia | exact Hread].
Qed.

Lemma overlong_feedback_raises_late_witness :
  get_guess 0 demo_hash demo_rnd [] demo_first (s "+++++" ++ "a"%char :: [])
  = Finished (Raise str_index_error)
      (fst (process_feedback (s "crate") demo_first 0 (s "+++++"))) /\
  _invalid_letters (fst (process_feedback (s "crate") demo_first 0 (s "+++++")))
  = s "crate".
Proof.
  split; [| reflexivity].
  apply (overlong_feedback_raises_late 0 demo_hash demo_rnd [] demo_first
           (s "crate") (s "+++++") [] "a"%char).
  - reflexivity.
  - reflexivity.
  - reflexivity.
  - reflexivity.
  - reflexivity.
  - left. reflexivity.
Defined.

(** ** What the update writes *)

Lemma process_feedback_cells (last_guess : str) (result : str) :
  forall (self : Guesser) (i : nat),
    i + length result <= length last_guess ->
    i + length result <= length (_correct_positions self) ->
    forall j,
      nth_error
        (_correct_positions (fst (process_feedback last_guess self i result)))
        j
      = if j <? i then nth_error (_correct_positions self) j
        else match nth_error result (j - i) with
             | Some char =>
                 if isalpha char
                 then option_map Some (nth_error last_guess j)
                 else nth_error (_correct_positions self) j
             | None => nth_error (_correct_positions self) j
             end.
Proof.
  induction result as [|char rest IH]; intros self i Hl Hc j; simpl in Hl, Hc.
  - simpl. destruct (j <? i); [reflexivity |].
    destruct (j - i); reflexivity.
  - cbn [process_feedback].
    destruct (feedback_char_in_range last_guess self i char)
      as (self1 & E & Hlen); try lia.
    rewrite E. rewrite IH by lia.
    pose proof (feedback_char_cells last_guess self self1 i char E) as Hcells.
    destruct (nth_error last_guess i) as [c|] eqn:Ec.
    2:{ apply nth_error_None in Ec. lia. }
    assert (Hcell : forall k,
              nth_error (_correct_positions self1) k
              = if isalpha char
                then if k =? i then Some (Some c)
                     else nth_error (_correct_positions self) k
                else nth_error (_correct_positions self) k).
    { intros k. rewrite Hcells. destruct (isalpha char); [| reflexivity].
      apply nth_error_list_set. lia. }
    destruct (Nat.ltb_spec j (S i)) as [H1 | H1];
      destruct (Nat.ltb_spec j i) as [H2 | H2]; try lia.
    + rewrite Hcell. destruct (isalpha char); [| reflexivity].
      replace (j =? i) with false by (symmetry; apply Nat.eqb_neq; lia).
      reflexivity.
    + assert (j = i) by lia. subst j. rewrite Nat.sub_diag. simpl.
      rewrite Hcell, Nat.eqb_refl, Ec. reflexivity.
    + replace (j - i) with (S (j - S i)) by lia. simpl.
      destruct (nth_error rest (j - S i)) as [ch|]; rewrite ?Hcell.
      * destruct (isalpha ch); [reflexivity |].
        destruct (isalpha char); [| reflexivity].
        replace (j =? i) with false by (symmetry; apply Nat.eqb_neq; lia).
        reflexivity.
      * destruct (isalpha char); [| reflexivity].
        replace (j =? i) with false by (symmetry; apply Nat.eqb_neq; lia).
        reflexivity.
Qed.

(** X7: feedback of at most five symbols on a five-letter guess is processed
    without error, and afterwards cell [j] of [_correct_positions] holds the
    guess's letter at [j] when symbol [j] is a letter (whichever letter the
    symbol is, an accented one included) and is unchanged otherwise. *)
Theorem update_of_correct_positions (self : Guesser)
    (last_guess result : str) :
  length last_guess = 5 -> five_positions self -> length result <= 5 ->
  exists self',
    process_feedback last_guess self 0 result = (self', None) /\
    forall j,
      nth_error (_correct_positions self') j
      = match nth_error result j with
        | Some char =>
            if isalpha char then option_map Some (nth_error last_guess j)
            else nth_error (_correct_positions self) j
        | None => nth_error (_correct_positions self) j
        end.
Proof.
  intros Hl Hcp Hr. unfold five_positions in Hcp.
  destruct (process_feedback_in_range last_guess result self 0) as [Hn _];
    try lia.
  pose proof (process_feedback_cells last_guess result self 0) as Hcells.
  destruct (process_feedback last_guess self 0 result) as [self' oe].
  simpl in Hn, Hcells. subst oe. exists self'. split; [reflexivity |].
  intros j. rewrite Hcells by lia. now rewrite Nat.sub_0_r.
Qed.

Lemma update_of_correct_positions_witness :
  exists self',
    process_feedback (s "crate") demo_first 0 ("233"%char :: s "-+z")
    = (self', None) /\
    forall j,
      nth_error (_correct_positions self') j
      = match nth_error ("233"%char :: s "-+z") j with
        | Some char =>
            if isalpha char then option_map Some (nth_error (s "crate") j)
            else nth_error (_correct_positions demo_first) j
        | None => nth_error (_correct_positions demo_first) j
        end.
Proof.
  apply (update_of_correct_positions demo_first (s "crate")
           ("233"%char :: s "-+z")).
  - reflexivity.
  - reflexivity.
  - simpl. lia.
Defined.

Lemma misplaced_add_recorded (c L : ascii) (i p : nat) (m : dict (list nat)) :
  recorded (misplaced_add c i m) L p <-> recorded m L p \/ (L = c /\ p = i).
Proof.
  unfold recorded, misplaced_add. split.
  - intros (ps' & Hf & Hp).
    destruct (dict_find c m) as [ps|] eqn:Ec; rewrite dict_find_set in Hf;
      destruct (Ascii.eqb L c) eqn:E.
    + apply Ascii.eqb_eq in E. subst L. injection Hf as <-.
      apply pos_add_In in Hp. destruct Hp as [Hp | ->]; [| now right].
      left. exists ps. split; assumption.
    + left. exists ps'. split; assumption.
    + apply Ascii.eqb_eq in E. subst L. injection Hf as <-.
      destruct Hp as [<- | []]. now right.
    + left. exists ps'. split; assumption.
  - intros [(ps & Hf & Hp) | [-> ->]].
    + destruct (misplaced_add_grows c i m L ps p Hf Hp) as (ps' & H1 & H2).
      exists ps'. split; assumption.
    + destruct (dict_find c m) as [ps|]; rewrite dict_find_set,
        Ascii.eqb_refl; eexists; (split; [reflexivity |]).
      * apply pos_add_In. now right.
      * now left.
Qed.

Lemma feedback_char_misplaced (last_guess : str) (self self' : Guesser)
    (i : nat) (char : ascii) :
  feedback_char last_guess self i char = Ok self' ->
  _misplaced_letters self'
  = if Ascii.eqb char "-"
    then match nth_error last_guess i with
         | Some c => misplaced_add c i (_misplaced_letters self)
         | None => _misplaced_letters self
         end
    else _misplaced_letters self.
Proof.
  unfold feedback_char, str_get, bind.
  destruct (isalpha char) eqn:Ha.
  - assert (E : Ascii.eqb char "-" = false).
    { destruct (Ascii.eqb char "-") eqn:E; [| reflexivity].
      apply Ascii.eqb_eq in E. subst. discriminate. }
    rewrite E.
    destruct (nth_error last_guess i) as [c|]; [| discriminate].
    destruct (i <? length (_correct_positions self)); [| discriminate].
    match goal with |- context [if ?b then _ else _] => destruct b end;
      intros H; injection H as <-; reflexivity.
  - destruct (Ascii.eqb char "-").
    + destruct (nth_error last_guess i); [| discriminate].
      intros H; injection H as <-; reflexivity.
    + destruct (Ascii.eqb char "+").
      * destruct (nth_error last_guess i); [| discriminate].
        match goal with |- context [if ?b then _ else _] => destruct b end;
          intros H; injection H as <-; reflexivity.
      * intros H; injection H as <-; reflexivity.
Qed.

Lemma process_feedback_recorded (last_guess : str) (result : str) :
  forall (self : Guesser) (i : nat) (L : ascii) (p : nat),
    i + length result <= length last_guess ->
    i + length result <= length (_correct_positions self) ->
    (recorded
       (_misplaced_letters (fst (process_feedback last_guess self i result)))
       L p
     <-> recorded (_misplaced_letters self) L p \/
         (i <= p /\ nth_error result (p - i) = Some "-"%char /\
          nth_error last_guess p = Some L)) /\
    (In L (dict_keys
             (_misplaced_letters
                (fst (process_feedback last_guess self i result))))
     <-> In L (dict_keys (_misplaced_letters self)) \/
         exists q, i <= q /\ nth_error result (q - i) = Some "-"%char /\
                   nth_error last_guess q = Some L).
Proof.
  induction result as [|char rest IH]; intros self i L p Hl Hc;
    simpl in Hl, Hc.
  - simpl. split.
    + split; [tauto |]. intros [H | (_ & H & _)]; [exact H |].
      destruct (p - i); discriminate.
    + split; [tauto |]. intros [H | (q & _ & H & _)]; [exact H |].
      destruct (q - i); discriminate.
  - cbn [process_feedback].
    destruct (feedback_char_in_range last_guess self i char)
      as (self1 & E & Hlen); try lia.
    rewrite E.
    destruct (IH self1 (S i) L p) as [IH1 IH2]; try lia.
    pose proof (feedback_char_misplaced last_guess self self1 i char E) as Hm.
    destruct (nth_error last_guess i) as [c|] eqn:Ec.
    2:{ apply nth_error_None in Ec. lia. }
    assert (Hshift : forall q, S i <= q ->
              nth_error (char :: rest) (q - i) = nth_error rest (q - S i)).
    { intros q Hq. replace (q - i) with (S (q - S i)) by lia. reflexivity. }
    split.
    + rewrite IH1, Hm. destruct (Ascii.eqb char "-") eqn:Ed.
      * apply Ascii.eqb_eq in Ed. subst char.
        rewrite misplaced_add_recorded. split.
        -- intros [[H | [-> ->]] | (Hq & H1 & H2)].
           ++ now left.
           ++ right. rewrite Nat.sub_diag. simpl. auto.
           ++ right. rewrite Hshift by exact Hq. split; [lia | auto].
        -- intros [H | (Hq & H1 & H2)]; [now left; left |].
           destruct (Nat.eq_dec p i) as [-> | Hne].
           ++ left. right. split; [congruence | reflexivity].
           ++ right. rewrite Hshift in H1 by lia. split; [lia | auto].
      * split.
        -- intros [H | (Hq & H1 & H2)]; [now left |].
           right. rewrite Hshift by exact Hq. split; [lia | auto].
        -- intros [H | (Hq & H1 & H2)]; [now left |].
           destruct (Nat.eq_dec p i) as [-> | Hne].
           ++ rewrite Nat.sub_diag in H1. simpl in H1. injection H1 as ->.
              discriminate.
           ++ right. rewrite Hshift in H1 by lia. split; [lia | auto].
    + rewrite IH2, Hm. destruct (Ascii.eqb char "-") eqn:Ed.
      * apply Ascii.eqb_eq in Ed. subst char.
        rewrite misplaced_add_keys. split.
        -- intros [[H | ->] | (q & Hq & H1 & H2)].
           ++ now left.
           ++ right. exists i. rewrite Nat.sub_diag. simpl. auto.
           ++ right. exists q. rewrite Hshift by exact Hq.
              split; [lia | auto].
        -- intros [H | (q & Hq & H1 & H2)]; [now left; left |].
           destruct (Nat.eq_dec q i) as [-> | Hne].
           ++ left. right. congruence.
           ++ right. exists q. rewrite Hshift in H1 by lia.
              split; [lia | auto].
      * split.
        -- intros [H | (q & Hq & H1 & H2)]; [now left |].
           right. exists q. rewrite Hshift by exact Hq. split; [lia | auto].
        -- intros [H | (q & Hq & H1 & H2)]; [now left |].
           destruct (Nat.eq_dec q i) as [-> | Hne].
           ++ rewrite Nat.sub_diag in H1. simpl in H1. injection H1 as ->.
              discriminate.
           ++ right. exists q. rewrite Hshift in H1 by lia.
              split; [lia | auto].
Qed.

(** X8: after feedback of at most five symbols on a five-letter guess, the
    positions recorded for a letter in [_misplaced_letters] are those
    recorded before together with every position marked "-" where the guess
    has that letter; nothing is ever removed. *)
Theorem update_of_misplaced_letters (self : Guesser)
    (last_guess result : str) (L : ascii) (p : nat) :
  length last_guess = 5 -> five_positions self -> length result <= 5 ->
  recorded
    (_misplaced_letters (fst (process_feedback last_guess self 0 result))) L p
  <-> recorded (_misplaced_letters self) L p \/
      (nth_error result p = Some "-"%char /\ nth_error last_guess p = Some L).
Proof.
  intros Hl Hcp Hr. unfold five_positions in Hcp.
  destruct (process_feedback_recorded last_guess result self 0 L p)
    as [H _]; try lia.
  rewrite H, Nat.sub_0_r. split.
  - intros [H1 | (_ & H1 & H2)]; auto.
  - intros [H1 | (H1 & H2)]; [now left |]. right. split; [lia | auto].
Qed.

Lemma update_of_misplaced_letters_witness :
  recorded
    (_misplaced_letters (fst (process_feedback (s "crate") demo_first 0
                                (s "-+-")))) "a"%char 2
  <-> recorded (_misplaced_letters demo_first) "a"%char 2 \/
      (nth_error (s "-+-") 2 = Some "-"%char /\
       nth_error (s "crate") 2 = Some "a"%char).
Proof.
  apply (update_of_misplaced_letters demo_first (s "crate") (s "-+-")).
  - reflexivity.
  - reflexivity.
  - simpl. lia.
Defined.

(** ** How the hidden word can be eliminated *)

Lemma recorded_compatible (m : dict (list nat)) (w : str) :
  (forall L ps p, dict_find L m = Some ps -> In p ps ->
                  nth_error w p <> Some L)
  <-> (forall L p, recorded m L p -> nth_error w p <> Some L).
Proof.
  unfold recorded. split.
  - intros H L p (ps & H1 & H2). exact (H L ps p H1 H2).
  - intros H L ps p H1 H2. apply H. exists ps. split; assumption.
Qed.

Lemma consistent_turn_misplaced (target last_guess result : str)
    (st : Guesser) :
  consistent target last_guess result -> length last_guess = 5 ->
  five_positions st ->
  misplaced_compatible st target ->
  misplaced_compatible (fst (process_feedback last_guess st 0 result)) target.
Proof.
  intros [Hlen Hcons] Hl Hcp [Hc Hd]. unfold five_positions in Hcp.
  unfold misplaced_compatible. split.
  - apply recorded_compatible. intros L p Hrec.
    destruct (process_feedback_recorded last_guess result st 0 L p)
      as [H _]; try lia.
    apply H in Hrec. destruct Hrec as [Hrec | (_ & H1 & H2)].
    + exact (proj1 (recorded_compatible (_misplaced_letters st) target)
               Hc L p Hrec).
    + rewrite Nat.sub_0_r in H1.
      destruct (Hcons p "-"%char L H1 H2) as (_ & Hp & _).
      now destruct (Hp eq_refl).
  - intros L HL.
    destruct (process_feedback_recorded last_guess result st 0 L 0)
      as [_ H]; try lia.
    apply H in HL. destruct HL as [HL | (q & _ & H1 & H2)].
    + now apply Hd.
    + rewrite Nat.sub_0_r in H1.
      destruct (Hcons q "-"%char L H1 H2) as (_ & Hp & _).
      now destruct (Hp eq_refl).
Qed.

Lemma reachable_misplaced_sound (target manual : str) (words : list str)
    (g : Guesser) :
  reachable (consistent_with target) manual words g ->
  misplaced_compatible g target.
Proof.
  intros Hr.
  induction Hr as [g Hi | g _ _
                  | g fuel hash rnd input result r g' Hr IH Hok Hc].
  - destruct (init_fields manual words g Hi) as (first & _ & ->).
    split; [intros L ps p H; discriminate H | intros L []].
  - split; [intros L ps p H; discriminate H | intros L []].
  - assert (Hsame : forall a b, same_knowledge a b ->
                      misplaced_compatible a target ->
                      misplaced_compatible b target).
    { intros a b (_ & _ & E) H. unfold misplaced_compatible in *.
      now rewrite <- E. }
    destruct (get_guess_knowledge fuel hash rnd input g g' result r Hc)
      as [Hs | (last & Hl & H5 & Hs)].
    + exact (Hsame g g' Hs IH).
    + apply (Hsame _ g' Hs).
      apply consistent_turn_misplaced; try assumption.
      * exact (Hok last Hl).
      * exact (reachable_five_positions _ manual words g Hr).
Qed.

(** X9: in a game over five-letter words whose feedback is consistent with
    a hidden word of the dictionary, the filter loses that word in one way
    only.  In every state the engine reaches, either the hidden word is a
    candidate, or one of its letters is both in [_invalid_letters] and a key
    of [_misplaced_letters] (a letter the guess repeats, marked "+" before
    it was marked "-"), and then no word at all is a candidate. *)
Theorem target_candidate_or_blocked (target manual : str)
    (words : list str) (g : Guesser) :
  five_letter_words words -> In target words ->
  reachable (consistent_with target) manual words g ->
  exists candidates,
    filtered_word_list g = Ok candidates /\
    (In target candidates \/ (candidates = [] /\ blocked target g)).
Proof.
  intros Hws Hin Hr.
  destruct (reachable_tracks target manual words g Hr)
    as [(T1 & T2 & T3 & T4) Hw].
  destruct (reachable_misplaced_sound target manual words g Hr) as [M1 M2].
  assert (Hlen : length target = 5).
  { unfold five_letter_words in Hws. rewrite Forall_forall in Hws. auto. }
  assert (Hf : filtered_word_list g = Ok (filter (keepsb g) words)).
  { unfold filtered_word_list. rewrite Hw. now apply filter_words_total. }
  exists (filter (keepsb g) words). split; [exact Hf |].
  destruct (existsb (fun c => mem c target) (_invalid_letters g)) eqn:E.
  - right. apply existsb_exists in E. destruct E as (c & Hc & Hm).
    apply mem_In in Hm.
    destruct (T1 c Hc Hm) as [last Hl].
    destruct (T2 last Hl c Hc Hm) as [Hk _]. split.
    + exact (filter_words_blocked g c (word_list g) Hc Hk _ Hf).
    + exists c. split; [exact Hm | split; [exact Hc | exact Hk]].
  - left. apply filter_In. split; [exact Hin |].
    apply (keepsb_qualifies g target T4 Hlen).
    unfold qualifies.
    split; [| split; [exact T3 | split; [exact M1 | exact M2]]].
    intros c Hc Ht.
    assert (Hex : existsb (fun c => mem c target) (_invalid_letters g) = true).
    { apply existsb_exists. exists c. split; [exact Hc | now apply mem_In]. }
    congruence.
Qed.

Lemma demo_traced_reachable :
  reachable (consistent_with (s "trace")) (s "auto") demo_words demo_traced.
Proof.
  apply reach_call with (g := demo_first) (fuel := 0) (hash := demo_hash)
    (rnd := demo_rnd) (input := []) (result := s "-ra-e")
    (r := Ok (s "trace")).
  - apply demo_first_reachable. intros last H. discriminate H.
  - intros last H. injection H as <-. exact demo_consistent_feedback.
  - vm_compute. reflexivity.
Defined.

Lemma target_candidate_or_blocked_witness :
  filtered_word_list twin_blocked = Ok [] /\
  exists candidates,
    filtered_word_list twin_blocked = Ok candidates /\
    (In (s "zooms") candidates \/
     (candidates = [] /\ blocked (s "zooms") twin_blocked)).
Proof.
  split; [vm_compute; reflexivity |].
  apply (target_candidate_or_blocked (s "zooms") (s "auto") twin_words
           twin_blocked).
  - repeat constructor.
  - vm_compute. tauto.
  - exact twin_blocked_reachable.
Defined.

(** ** Random choice *)

Lemma choice_In {A : Type} (rnd : nat -> nat) (cursor : nat) (seq : list A)
    (x : A) :
  choice rnd cursor seq = Ok x -> In x seq.
Proof.
  destruct seq as [|y l]; [discriminate |]. intros H.
  assert (Hx : x = nth (rnd cursor mod length (y :: l)) (y :: l) y)
    by (unfold choice in H; congruence).
  rewrite Hx. apply nth_In. apply Nat.mod_upper_bound. discriminate.
Qed.

Lemma choice_nonempty {A : Type} (rnd : nat -> nat) (cursor : nat)
    (seq : list A) :
  seq <> [] -> exists x, choice rnd cursor seq = Ok x.
Proof.
  destruct seq as [|y l]; [congruence |]. intros _. eexists. reflexivity.
Qed.

(** ** The later-turn heuristic *)

Lemma max_from_first (f : str -> nat) (l : list str) :
  forall best : str,
    (max_from (map (fun w => (w, f w)) l) best (f best) = best /\
     forall w, In w l -> f w <= f best) \/
    exists l1 l2,
      l = l1 ++ max_from (map (fun w => (w, f w)) l) best (f best) :: l2 /\
      (forall w, In w l1 ->
                 f w < f (max_from (map (fun w => (w, f w)) l) best (f best)))
      /\ f best < f (max_from (map (fun w => (w, f w)) l) best (f best)) /\
      (forall w, In w l2 ->
                 f w <= f (max_from (map (fun w => (w, f w)) l) best (f best))).
Proof.
  induction l as [|x l IH]; intros best; simpl.
  - left. split; [reflexivity | intros w []].
  - destruct (Nat.ltb_spec (f best) (f x)) as [Hlt | Hge].
    + right. destruct (IH x) as [[E Hall] | (l1 & l2 & E & H1 & H2 & H3)].
      * exists [], l. rewrite E. simpl.
        split; [reflexivity |]. split; [intros w [] |].
        split; [exact Hlt | exact Hall].
      * exists (x :: l1), l2. split; [simpl; f_equal; exact E |].
        split; [| split; [lia | exact H3]].
        intros w [<- | Hw]; [exact H2 | now apply H1].
    + destruct (IH best) as [[E Hall] | (l1 & l2 & E & H1 & H2 & H3)].
      * left. split; [exact E |].
        intros w [<- | Hw]; [exact Hge | now apply Hall].
      * right. exists (x :: l1), l2. split; [simpl; f_equal; exact E |].
        split; [| split; [exact H2 | exact H3]].
        intros w [<- | Hw]; [lia | now apply H1].
Qed.

(** Words equal to one already beaten never become the maximum. *)
Lemma max_from_skip (f : str -> nat) (x : str) (l : list str) :
  forall best : str,
    f x <= f best ->
    max_from (map (fun w => (w, f w))
                (filter (fun v => negb (str_eqb x v)) l)) best (f best)
    = max_from (map (fun w => (w, f w)) l) best (f best).
Proof.
  induction l as [|y l IH]; intros best Hx; simpl; [reflexivity |].
  destruct (str_eqb x y) eqn:E; simpl.
  - apply str_eqb_eq in E. subst y.
    replace (f best <? f x) with false by (symmetry; apply Nat.ltb_ge; lia).
    now apply IH.
  - destruct (Nat.ltb_spec (f best) (f y)); apply IH; lia.
Qed.

Lemma max_from_dedup (f : str -> nat) (l : list str) :
  forall best : str,
    max_from (map (fun w => (w, f w)) (dedup_str l)) best (f best)
    = max_from (map (fun w => (w, f w)) l) best (f best).
Proof.
  induction l as [|y l IH]; intros best; simpl; [reflexivity |].
  destruct (Nat.ltb_spec (f best) (f y)).
  - rewrite max_from_skip by lia. apply IH.
  - rewrite max_from_skip by lia. apply IH.
Qed.

Lemma best_split_unfold (filtered : list str) :
  best_split filtered
  = match filtered with
    | [] => None
    | x :: rest =>
        Some (max_from (map (fun w => (w, word_score filtered w)) rest) x
                (word_score filtered x))
    end.
Proof.
  unfold best_split. destruct filtered as [|x rest]; [reflexivity |].
  cbn [dedup_str map].
  rewrite (max_from_skip (word_score (x :: rest)) x (dedup_str rest) x)
    by lia.
  now rewrite max_from_dedup.
Qed.

(** X10: on a non-empty candidate list the later-turn heuristic picks a
    candidate whose neighbour score is maximal, and among those the first
    one in list order: every candidate before it scores strictly less. *)
Theorem best_split_first_maximal (filtered : list str) :
  filtered <> [] ->
  exists guess before after,
    best_split filtered = Some guess /\
    filtered = before ++ guess :: after /\
    (forall w, In w before ->
               word_score filtered w < word_score filtered guess) /\
    (forall w, In w filtered ->
               word_score filtered w <= word_score filtered guess).
Proof.
  intros Hne. rewrite best_split_unfold.
  destruct filtered as [|x rest]; [congruence |].
  set (f := word_score (x :: rest)).
  destruct (max_from_first f rest x) as [[E Hall] | (l1 & l2 & E & H1 & H2 & H3)].
  - exists x, [], rest. fold f. rewrite E.
    split; [reflexivity |]. split; [reflexivity |].
    split; [intros w [] |].
    intros w [<- | Hw]; [lia | now apply Hall].
  - set (g := max_from (map (fun w => (w, f w)) rest) x (f x)) in *.
    exists g, (x :: l1), l2.
    split; [reflexivity |]. split; [simpl; f_equal; exact E |].
    split.
    + intros w [<- | Hw]; [exact H2 | now apply H1].
    + intros w [<- | Hw]; [lia |].
      rewrite E in Hw. apply in_app_iff in Hw.
      destruct Hw as [Hw | [<- | Hw]].
      * apply Nat.lt_le_incl. now apply H1.
      * lia.
      * now apply H3.
Qed.

Lemma best_split_first_maximal_witness :
  exists guess before after,
    best_split demo_words = Some guess /\
    demo_words = before ++ guess :: after /\
    (forall w, In w before ->
               word_score demo_words w < word_score demo_words guess) /\
    (forall w, In w demo_words ->
               word_score demo_words w <= word_score demo_words guess).
Proof.
  apply (best_split_first_maximal demo_words). discriminate.
Defined.

(** ** The probe for a single open position *)

Lemma pad_random_spec (rnd : nat -> nat) (n : nat) :
  forall (cursor : nat) (guessie : list ascii),
    exists padding,
      pad_random rnd cursor n guessie = Ok (guessie ++ padding, cursor + n) /\
      length padding = n /\
      Forall (fun c => In c alphabet) padding.
Proof.
  induction n as [|n IH]; intros cursor guessie; cbn [pad_random].
  - exists []. rewrite app_nil_r, Nat.add_0_r.
    split; [reflexivity |]. split; [reflexivity | constructor].
  - destruct (choice_nonempty rnd cursor alphabet) as [c Hc];
      [discriminate |].
    rewrite Hc. cbn [bind].
    destruct (IH (S cursor) (guessie ++ [c])) as (padding & E & Hl & Hall).
    exists (c :: padding). rewrite E, <- app_assoc.
    split; [simpl; f_equal; f_equal; lia |].
    split; [simpl; now rewrite Hl |].
    constructor; [exact (choice_In rnd cursor alphabet c Hc) | exact Hall].
Qed.

Lemma letters_at_total (i : nat) (words : list str) :
  Forall (fun w => i < length w) words ->
  exists letters,
    letters_at i words = Ok letters /\
    forall c, In c letters <->
              exists w, In w words /\ nth_error w i = Some c.
Proof.
  induction 1 as [|w rest Hw _ (letters & E & Hin)]; cbn [letters_at].
  - exists []. split; [reflexivity |].
    intros c. split; [intros [] | intros (w & [] & _)].
  - unfold str_get. destruct (nth_error w i) as [c|] eqn:Ec.
    2:{ apply nth_error_None in Ec. lia. }
    rewrite E. cbn [bind]. exists (c :: letters). split; [reflexivity |].
    intros d. simpl. rewrite Hin. split.
    + intros [<- | (v & Hv & Hd)].
      * exists w. split; [now left | exact Ec].
      * exists v. split; [now right | exact Hd].
    + intros (v & [<- | Hv] & Hd).
      * left. congruence.
      * right. exists v. split; assumption.
Qed.

Lemma set_iter_In (hash : ascii -> nat) (l : list ascii) (c : ascii) :
  In c (set_iter hash l) <-> In c l.
Proof.
  unfold set_iter. rewrite sorted_desc_In. apply dedup_In.
Qed.

Lemma set_iter_NoDup (hash : ascii -> nat) (l : list ascii) :
  NoDup (set_iter hash l).
Proof.
  unfold set_iter.
  eapply Permutation_NoDup; [apply Permutation_sym, sorted_desc_perm |].
  apply dedup_NoDup.
Qed.

Lemma firstn_sub {A : Type} (n : nat) (l : list A) (x : A) :
  In x (firstn n l) -> In x l.
Proof.
  intros H. rewrite <- (firstn_skipn n l). apply in_or_app. now left.
Qed.

(** X11: the probe built for a single unresolved position always has
    exactly five characters; each is a letter some candidate has at that
    position or a lowercase filler letter; and when the candidates show at
    most five different letters there, every one of them is in the probe. *)
Theorem single_missing_probe (hash : ascii -> nat) (rnd : nat -> nat)
    (cursor : nat) (self : Guesser) (filtered : list str) (missing : nat)
    (distinct : list ascii) :
  index_empty (_correct_positions self) = Some missing ->
  Forall (fun w => missing < length w) filtered ->
  NoDup distinct ->
  (forall c, In c distinct <->
             exists w, In w filtered /\ nth_error w missing = Some c) ->
  exists guess cursor',
    single_missing hash rnd cursor self filtered = Ok (guess, cursor') /\
    length guess = 5 /\
    (forall c, In c guess -> In c distinct \/ In c alphabet) /\
    (length distinct <= 5 -> forall c, In c distinct -> In c guess).
Proof.
  intros Hidx Hws Hnd Hdist. unfold single_missing. rewrite Hidx.
  destruct (letters_at_total missing filtered Hws) as (letters & E & Hin).
  rewrite E. cbn [bind].
  set (guessie := set_iter hash letters).
  destruct (pad_random_spec rnd (5 - length guessie) cursor guessie)
    as (padding & Ep & Hlen & Hall).
  rewrite Ep. cbn [bind fst snd].
  assert (Hmem : forall c, In c guessie <-> In c distinct).
  { intros c. unfold guessie. rewrite set_iter_In, Hin, Hdist. tauto. }
  assert (Hsize : length guessie = length distinct).
  { apply Permutation_length, NoDup_Permutation;
      [apply set_iter_NoDup | exact Hnd | exact Hmem]. }
  eexists _, _. split; [reflexivity |]. split; [| split].
  - rewrite length_firstn, length_app, Hlen. lia.
  - intros c Hc. apply firstn_sub in Hc. apply in_app_iff in Hc.
    destruct Hc as [Hc | Hc]; [left; now apply Hmem | right].
    rewrite Forall_forall in Hall. now apply Hall.
  - intros H5 c Hc. apply Hmem in Hc.
    rewrite firstn_app.
    apply in_app_iff. left. rewrite firstn_all2 by lia. exact Hc.
Qed.

Lemma single_missing_probe_witness :
  exists guess cursor',
    single_missing demo_hash demo_rnd 0 demo_confirmed
      (map s ["cable"; "cider"; "comet"; "curve"]%string)
    = Ok (guess, cursor') /\
    length guess = 5 /\
    (forall c, In c guess -> In c (s "aiou") \/ In c alphabet) /\
    (length (s "aiou") <= 5 -> forall c, In c (s "aiou") -> In c guess).
Proof.
  apply (single_missing_probe demo_hash demo_rnd 0 demo_confirmed
           (map s ["cable"; "cider"; "comet"; "curve"]%string) 1 (s "aiou")).
  - reflexivity.
  - repeat constructor.
  - repeat constructor; simpl; intuition discriminate.
  - intros c. split.
    + intros [<- | [<- | [<- | [<- | []]]]].
      * exists (s "cable"). split; [simpl; tauto | reflexivity].
      * exists (s "cider"). split; [simpl; tauto | reflexivity].
      * exists (s "comet"). split; [simpl; tauto | reflexivity].
      * exists (s "curve"). split; [simpl; tauto | reflexivity].
    + intros (w & Hw & Hc). simpl in Hw.
      destruct Hw as [<- | [<- | [<- | [<- | []]]]];
        vm_compute in Hc; injection Hc as <-; simpl; tauto.
Defined.

(** ** The shape of the second guess *)

Lemma second_guess_member_or_five (hash : ascii -> nat) (rnd : nat -> nat)
    (cursor cursor' : nat) (self : Guesser) (filtered : list str)
    (guess : str) :
  second_guess hash rnd cursor self filtered = Ok (guess, cursor') ->
  In guess filtered \/ length guess = 5.
Proof.
  unfold second_guess.
  assert (Hsub : forall (f : str -> bool) w l,
            filter f filtered = w :: l -> In w filtered).
  { intros f w l E. assert (Hin : In w (w :: l)) by now left.
    rewrite <- E in Hin. apply filter_In in Hin. tauto. }
  destruct (2 <? length (_misplaced_letters self)).
  - destruct (filter (has_all_misplaced (_misplaced_letters self)) filtered)
      as [|w l] eqn:E; [discriminate |].
    intros H. injection H as <- _. left. exact (Hsub _ w l E).
  - destruct (filter (avoids (first_guess_letters self)) filtered)
      as [|w l] eqn:E.
    + rewrite assemble_probe_firstn;
        [| apply sorted_letters_of_NoDup | intros c [] | cbn [length]; lia].
      rewrite app_nil_l.
      match goal with
      | |- context [length ?p <? 5] =>
          pose proof (firstn_le_length 5
                        (filter
                           (fun c =>
                              negb (mem c (first_guess_letters self)))
                           (sorted_letters_of hash filtered))) as Hle;
          destruct (Nat.ltb_spec (length p) 5) as [Hlt | Hge]
      end.
      * destruct (choice rnd cursor filtered) as [word|e] eqn:Ec;
          [| discriminate].
        cbn [bind]. intros H. injection H as <- _. left.
        exact (choice_In rnd cursor filtered word Ec).
      * intros H. right.
        assert (Hg : guess
                     = firstn 5
                         (filter
                            (fun c =>
                               negb (mem c (first_guess_letters self)))
                            (sorted_letters_of hash filtered)))
          by congruence.
        rewrite Hg. lia.
    + intros H. injection H as <- _. left. exact (Hsub _ w l E).
Qed.

(** X12: when the second-guess branch yields a guess, it is either one of
    the candidates or a probe of exactly five distinct letters, none of
    them a letter of the first guess and each occurring in some candidate. *)
Theorem second_guess_shape (hash : ascii -> nat) (rnd : nat -> nat)
    (cursor cursor' : nat) (self : Guesser) (filtered : list str)
    (guess : str) :
  second_guess hash rnd cursor self filtered = Ok (guess, cursor') ->
  In guess filtered \/
  (length guess = 5 /\ NoDup guess /\
   forall x, In x guess ->
             ~ In x (first_guess_letters self) /\
             exists w, In w filtered /\ In x w).
Proof.
  unfold second_guess.
  destruct (2 <? length (_misplaced_letters self)).
  - destruct (filter (has_all_misplaced (_misplaced_letters self)) filtered)
      as [|w l] eqn:E; [discriminate |].
    intros H. injection H as <- _. left.
    assert (Hin : In w (w :: l)) by now left.
    rewrite <- E in Hin. apply filter_In in Hin. tauto.
  - destruct (filter (avoids (first_guess_letters self)) filtered)
      as [|w l] eqn:E.
    + rewrite assemble_probe_firstn;
        [| apply sorted_letters_of_NoDup | intros c [] | cbn [length]; lia].
      rewrite app_nil_l.
      set (probe := firstn 5
                      (filter
                         (fun c => negb (mem c (first_guess_letters self)))
                         (sorted_letters_of hash filtered))).
      destruct (Nat.ltb_spec (length probe) 5) as [Hlt | Hge].
      * destruct (choice rnd cursor filtered) as [word|e] eqn:Ec;
          [| discriminate].
        cbn [bind]. intros H. injection H as <- _. left.
        exact (choice_In rnd cursor filtered word Ec).
      * intros H. injection H as <- _. right.
        split; [| split].
        -- pose proof (firstn_le_length 5
                         (filter
                            (fun c =>
                               negb (mem c (first_guess_letters self)))
                            (sorted_letters_of hash filtered))) as Hle.
           fold probe in Hle. lia.
        -- apply NoDup_firstn, NoDup_filter, sorted_letters_of_NoDup.
        -- intros x Hx. apply firstn_sub in Hx. apply filter_In in Hx.
           destruct Hx as [Hx1 Hx2]. split.
           ++ apply negb_true_iff in Hx2. now apply mem_false.
           ++ apply sorted_letters_of_In in Hx1. apply in_concat in Hx1.
              destruct Hx1 as (w & H1 & H2). exists w. split; assumption.
    + intros H. injection H as <- _. left.
      assert (Hin : In w (w :: l)) by now left.
      rewrite <- E in Hin. apply filter_In in Hin. tauto.
Qed.

Lemma second_guess_shape_witness :
  exists guess cursor',
    second_guess demo_hash demo_rnd 0 demo_first
      (map s ["could"; "eight"; "tulip"]%string) = Ok (guess, cursor') /\
    (In guess (map s ["could"; "eight"; "tulip"]%string) \/
     (length guess = 5 /\ NoDup guess /\
      forall x, In x guess ->
                ~ In x (first_guess_letters demo_first) /\
                exists w, In w (map s ["could"; "eight"; "tulip"]%string) /\
                          In x w)).
Proof.
  eexists. eexists.
  assert (H : second_guess demo_hash demo_rnd 0 demo_first
                (map s ["could"; "eight"; "tulip"]%string)
              = Ok (s "ulipo", 0)) by (vm_compute; reflexivity).
  split; [exact H |].
  exact (second_guess_shape demo_hash demo_rnd 0 0 demo_first
           (map s ["could"; "eight"; "tulip"]%string) (s "ulipo") H).
Defined.

(** ** When the anti-repeat loop exits *)

Lemma anti_repeat_done (fuel : nat) (rnd : nat -> nat) (cursor : nat)
    (tried : list str) (filtered : option (list str)) (guess : str) :
  ~ In guess tried ->
  anti_repeat fuel rnd cursor tried filtered guess = Some (Ok guess).
Proof.
  intros H.
  assert (E : str_mem guess tried = false).
  { destruct (str_mem guess tried) eqn:E; [| reflexivity].
    apply str_mem_In in E. contradiction. }
  destruct fuel; simpl; rewrite E; reflexivity.
Qed.

Lemma anti_repeat_step (fuel : nat) (rnd : nat -> nat) (cursor : nat)
    (tried words : list str) (guess next : str) :
  In guess tried -> choice rnd cursor words = Ok next ->
  anti_repeat (S fuel) rnd cursor tried (Some words) guess
  = anti_repeat fuel rnd (S cursor) tried (Some words) next.
Proof.
  intros Hin Hc. apply str_mem_In in Hin.
  cbn [anti_repeat]. rewrite Hin, Hc. reflexivity.
Qed.

(** X13: the anti-repeat loop returns the first draw that was not tried
    yet: if the selected guess and the first [n] draws are in [_tried] and
    draw [n] is not, the loop hands back draw [n] as soon as the fuel
    exceeds [n]. *)
Theorem anti_repeat_first_untried (rnd : nat -> nat) (tried words : list str)
    (found : str) (n : nat) :
  forall (fuel cursor : nat) (guess : str),
    In guess tried ->
    (forall k, k < n ->
               exists w, choice rnd (cursor + k) words = Ok w /\ In w tried) ->
    choice rnd (cursor + n) words = Ok found -> ~ In found tried ->
    n < fuel ->
    anti_repeat fuel rnd cursor tried (Some words) guess = Some (Ok found).
Proof.
  induction n as [|n IH]; intros fuel cursor guess Hg Hdraws Hn Hfresh Hfuel;
    (destruct fuel as [|fuel]; [lia |]).
  - rewrite Nat.add_0_r in Hn.
    rewrite (anti_repeat_step fuel rnd cursor tried words guess found Hg Hn).
    now apply anti_repeat_done.
  - destruct (Hdraws 0) as (w & Hw & Hin); [lia |].
    rewrite Nat.add_0_r in Hw.
    rewrite (anti_repeat_step fuel rnd cursor tried words guess w Hg Hw).
    apply IH; try assumption; try lia.
    + intros k Hk. destruct (Hdraws (S k)) as (v & Hv & Hvin); [lia |].
      exists v. split; [| exact Hvin].
      now rewrite Nat.add_succ_r in Hv.
    + now rewrite Nat.add_succ_r in Hn.
Qed.

Lemma anti_repeat_first_untried_witness :
  anti_repeat 3 demo_rnd 0 [s "crate"; s "crane"] (Some demo_words)
    (s "crate")
  = Some (Ok (s "trace")).
Proof.
  apply (anti_repeat_first_untried demo_rnd [s "crate"; s "crane"] demo_words
           (s "trace") 2).
  - now left.
  - intros k Hk. destruct k as [|[|k]]; [| | lia].
    + exists (s "crane"). split; [reflexivity | simpl; tauto].
    + exists (s "crate"). split; [reflexivity | simpl; tauto].
  - reflexivity.
  - simpl. intros [H | [H | []]]; discriminate H.
  - lia.
Defined.

(** X14: when the selected guess and every candidate are already in
    [_tried], the anti-repeat loop has no exit: it draws again whatever the
    oracle and however much fuel it is given. *)
Theorem anti_repeat_exhausted (rnd : nat -> nat) (tried words : list str) :
  words <> [] -> (forall w, In w words -> In w tried) ->
  forall (fuel cursor : nat) (guess : str),
    In guess tried ->
    anti_repeat fuel rnd cursor tried (Some words) guess = None.
Proof.
  intros Hne Hall.
  induction fuel as [|fuel IH]; intros cursor guess Hg.
  - apply str_mem_In in Hg. simpl. now rewrite Hg.
  - destruct (choice_nonempty rnd cursor words Hne) as [w Hw].
    rewrite (anti_repeat_step fuel rnd cursor tried words guess w Hg Hw).
    apply IH. apply Hall. exact (choice_In rnd cursor words w Hw).
Qed.

Lemma anti_repeat_exhausted_witness :
  anti_repeat 7 demo_rnd 0 [s "crate"; s "trace"]
    (Some [s "trace"; s "crate"]) (s "trace")
  = None.
Proof.
  apply (anti_repeat_exhausted demo_rnd [s "crate"; s "trace"]
           [s "trace"; s "crate"]).
  - discriminate.
  - intros w Hw. simpl in *. tauto.
  - right. now left.
Defined.

(** ** The first guess on arbitrary word lists *)

Lemma tally_word_short (word : str) (positions : list nat) :
  forall (lf : list (dict nat)) (ovr : dict nat),
    (exists i, In i positions /\ length word <= i) ->
    tally_word word positions lf ovr = Raise str_index_error.
Proof.
  induction positions as [|i rest IH]; intros lf ovr (j & Hj & Hlen);
    [destruct Hj |].
  cbn [tally_word]. unfold str_get.
  destruct (nth_error word i) as [c|] eqn:Ec; [| reflexivity].
  cbn [bind]. apply IH. exists j. split; [| exact Hlen].
  destruct Hj as [<- | Hj]; [| exact Hj].
  apply nth_error_None in Hlen. congruence.
Qed.

Lemma first_five_positions (w : str) (x : ascii) :
  5 <= length w ->
  (exists i, In i (seq 0 5) /\ nth_error w i = Some x) <->
  In x (firstn 5 w).
Proof.
  intros Hw. split.
  - intros (i & Hi & Hx). apply in_seq in Hi.
    apply nth_error_In with (n := i). rewrite nth_error_firstn.
    replace (i <? 5) with true by (symmetry; apply Nat.ltb_lt; lia).
    exact Hx.
  - intros H. apply In_nth_error in H. destruct H as [i Hi].
    rewrite nth_error_firstn in Hi.
    destruct (Nat.ltb_spec i 5); [| discriminate].
    exists i. split; [apply in_seq; lia | exact Hi].
Qed.

Lemma tally_long (words : list str) :
  forall (lf : list (dict nat)) (ovr : dict nat),
    long_words words ->
    NoDup (dict_keys ovr) ->
    exists lf' ovr',
      tally words lf ovr = Ok (lf', ovr') /\
      NoDup (dict_keys ovr') /\
      (forall x, In x (dict_keys ovr') <->
                 In x (dict_keys ovr) \/
                 exists w, In w words /\ In x (firstn 5 w)).
Proof.
  induction words as [|w rest IH]; intros lf ovr Hws Hnd; cbn [tally].
  - exists lf, ovr. split; [reflexivity |]. split; [exact Hnd |].
    intros x. split; [tauto |]. intros [H | [w [[] _]]]. exact H.
  - inversion Hws as [|? ? Hw Hrest]; subst.
    destruct (tally_word_keys w (seq 0 5) lf ovr)
      as [lf1 [ovr1 [E1 [Hnd1 Hk1]]]].
    + intros i Hi. apply in_seq in Hi. lia.
    + exact Hnd.
    + rewrite E1. cbn [bind fst snd].
      destruct (IH lf1 ovr1 Hrest Hnd1) as [lf' [ovr' [E [Hnd' Hk]]]].
      exists lf', ovr'. split; [exact E |]. split; [exact Hnd' |].
      intros x. rewrite Hk, Hk1, (first_five_positions w x Hw). split.
      * intros [[H | H] | [v [Hv1 Hv2]]].
        -- now left.
        -- right. exists w. split; [now left | exact H].
        -- right. exists v. split; [now right | exact Hv2].
      * intros [H | [v [[<- | Hv1] Hv2]]].
        -- left. now left.
        -- left. now right.
        -- right. exists v. split; assumption.
Qed.

Lemma tally_word_total (word : str) (positions : list nat) :
  forall (lf : list (dict nat)) (ovr : dict nat),
    (forall i, In i positions -> i < length word) ->
    exists p, tally_word word positions lf ovr = Ok p.
Proof.
  induction positions as [|i rest IH]; intros lf ovr Hpos; cbn [tally_word].
  - eexists. reflexivity.
  - unfold str_get. destruct (nth_error word i) as [c|] eqn:Ec.
    + cbn [bind]. apply IH. intros j Hj. apply Hpos. now right.
    + apply nth_error_None in Ec.
      specialize (Hpos i (or_introl eq_refl)). lia.
Qed.

Lemma tally_short (words : list str) :
  forall (lf : list (dict nat)) (ovr : dict nat),
    Exists (fun w => length w < 5) words ->
    tally words lf ovr = Raise str_index_error.
Proof.
  induction words as [|w rest IH]; intros lf ovr Hex;
    [inversion Hex |].
  cbn [tally].
  destruct (Nat.lt_ge_cases (length w) 5) as [Hlt | Hge].
  - rewrite tally_word_short; [reflexivity |].
    exists (length w). split; [apply in_seq; lia | lia].
  - destruct (tally_word_total w (seq 0 5) lf ovr) as [p Hp].
    + intros i Hi. apply in_seq in Hi. lia.
    + rewrite Hp. cbn [bind].
      apply IH. inversion Hex as [? ? H | ? ? H]; subst; [lia | exact H].
Qed.

(** X15: [analysis] raises [IndexError] exactly when some word of the list
    has fewer than five characters, and returns a string otherwise; the
    constructor fails in the same cases. *)
Theorem analysis_raises_iff_short (words : list str) :
  (analysis words = Raise str_index_error
   <-> Exists (fun w => length w < 5) words) /\
  ((exists guess, analysis words = Ok guess) <-> long_words words) /\
  (forall manual,
     init manual words = Raise str_index_error
     <-> Exists (fun w => length w < 5) words).
Proof.
  assert (Hlong : long_words words ->
                  exists guess, analysis words = Ok guess).
  { intros Hws. unfold analysis.
    destruct (tally_long words (repeat [] 5) [] Hws)
      as (lf & ovr & E & _); [constructor |].
    rewrite E. cbn [bind]. eexists. reflexivity. }
  assert (Hshort : Exists (fun w => length w < 5) words ->
                   analysis words = Raise str_index_error).
  { intros Hex. unfold analysis. now rewrite tally_short. }
  assert (Hdec : long_words words \/ Exists (fun w => length w < 5) words).
  { unfold long_words.
    destruct (Forall_Exists_dec (fun w : str => 5 <= length w)
                (fun w => le_dec 5 (length w)) words) as [H | H];
      [now left | right].
    eapply Exists_impl; [| exact H]. simpl. intros w Hw. lia. }
  split; [| split].
  - split; [| exact Hshort]. intros Hr.
    destruct Hdec as [H | H]; [| exact H].
    destruct (Hlong H) as [guess Hg]. congruence.
  - split; [| exact Hlong]. intros [guess Hg].
    destruct Hdec as [H | H]; [exact H |].
    rewrite (Hshort H) in Hg. discriminate.
  - intros manual. unfold init. split.
    + intros Hr. destruct Hdec as [H | H]; [| exact H].
      destruct (Hlong H) as [guess Hg]. rewrite Hg in Hr. discriminate.
    + intros H. now rewrite (Hshort H).
Qed.

Lemma join_set_perm (cw : list (option ascii)) (p : nat) (c : ascii) :
  nth_error cw p = Some None ->
  Permutation (join (list_set cw p (Some c))) (c :: join cw).
Proof.
  revert p. induction cw as [|o cw IH]; intros [|p]; simpl; try discriminate.
  - intros H. injection H as ->. apply Permutation_refl.
  - intros H. destruct o as [a|]; simpl.
    + apply perm_trans with (a :: c :: join cw).
      * apply perm_skip. now apply IH.
      * apply perm_swap.
    + now apply IH.
Qed.

Lemma place_letters_perm (slf : list (dict nat)) (letters : list ascii) :
  forall (cw : list (option ascii)) (used : list ascii),
    NoDup letters -> (forall c, In c used -> ~ In c letters) ->
    length cw = 5 -> Permutation (join cw) used ->
    Permutation (join (fst (place_letters slf letters cw used)))
      (snd (place_letters slf letters cw used)).
Proof.
  induction letters as [|letter rest IH]; intros cw used Hl Hd Hcw Hp;
    cbn [place_letters].
  - exact Hp.
  - inversion Hl as [|? ? Hnot Hrest]; subst.
    destruct (best_position_from slf cw letter (seq 0 5) None (-1)%Z)
      as [p|] eqn:E.
    + apply best_position_from_free in E.
      destruct E as [E | [Hpos Hfree]]; [discriminate |].
      apply in_seq in Hpos.
      assert (Hfresh : ~ In letter used).
      { intros H. apply (Hd letter H). now left. }
      apply IH.
      * exact Hrest.
      * intros c Hc. apply set_add_In in Hc. destruct Hc as [Hc | ->].
        -- intros H. apply (Hd c Hc). now right.
        -- exact Hnot.
      * rewrite list_set_length. exact Hcw.
      * rewrite set_add_fresh by exact Hfresh.
        apply perm_trans with (letter :: join cw).
        -- apply join_set_perm. apply empty_cell; [lia | exact Hfree].
        -- apply perm_trans with (letter :: used).
           ++ now apply perm_skip.
           ++ apply Permutation_cons_append.
    + apply IH; try assumption.
      intros c Hc H. apply (Hd c Hc). now right.
Qed.

Lemma fill_remaining_perm (top : list ascii) (positions : list nat) :
  forall (cw : list (option ascii)) (used : list ascii),
    (forall i, In i positions -> i < length cw) ->
    Permutation (join cw) used ->
    Permutation (join (fst (fill_remaining top positions cw used)))
      (snd (fill_remaining top positions cw used)).
Proof.
  induction positions as [|i rest IH]; intros cw used Hr Hp;
    cbn [fill_remaining].
  - exact Hp.
  - assert (Hrest : forall j, In j rest -> j < length cw).
    { intros j Hj. apply Hr. now right. }
    destruct (nth i cw None) as [c|] eqn:En; [now apply IH |].
    destruct (find (fun letter => negb (mem letter used)) top)
      as [letter|] eqn:Ef; [| now apply IH].
    apply find_some in Ef. destruct Ef as [_ Hfresh].
    apply negb_true_iff, mem_false in Hfresh.
    apply IH.
    + intros j Hj. rewrite list_set_length. now apply Hrest.
    + rewrite set_add_fresh by exact Hfresh.
      apply perm_trans with (letter :: join cw).
      * apply join_set_perm. apply empty_cell; [| exact En].
        apply Hr. now left.
      * apply perm_trans with (letter :: used).
        -- now apply perm_skip.
        -- apply Permutation_cons_append.
Qed.

(** The first guess over words of five characters or more: distinct letters
    of the words' first five positions, as many as there are, up to five. *)
Lemma analysis_shape (words : list str) (letters : list ascii) :
  long_words words -> NoDup letters ->
  (forall c, In c letters <->
             exists w, In w words /\ In c (firstn 5 w)) ->
  exists guess,
    analysis words = Ok guess /\ NoDup guess /\ incl guess letters /\
    length guess = Nat.min 5 (length letters).
Proof.
  intros Hws Hnd Hletters. unfold analysis.
  destruct (tally_long words (repeat [] 5) [] Hws)
    as [lf [ovr [E [Hk1 Hk2]]]]; [constructor |].
  rewrite E. cbn [bind fst snd].
  eexists. split; [reflexivity |].
  destruct (top_five_facts ovr Hk1) as [Htop Hlen].
  assert (Hsame : length (dict_keys ovr) = length letters).
  { apply Permutation_length, NoDup_Permutation; try assumption.
    intros c. rewrite Hk2, Hletters. simpl. tauto. }
  rewrite Hsame in Hlen.
  set (slf := map (sorted_desc snd) lf).
  destruct (place_letters_inv slf (top_five ovr) (repeat None 5) [])
    as (P1 & P2 & P3 & P4);
    [exact Htop | constructor | intros c [] | reflexivity | reflexivity |].
  pose proof (place_letters_perm slf (top_five ovr) (repeat None 5) [] Htop)
    as P5.
  set (placed := place_letters slf (top_five ovr) (repeat None 5) []) in *.
  destruct (fill_remaining_inv (top_five ovr) (seq 0 5) (fst placed)
              (snd placed))
    as (F1 & F2 & F3 & F4 & F5 & F6 & F7); try assumption.
  { intros i Hi. apply in_seq in Hi. lia. }
  { intros c Hc. apply P4 in Hc. destruct Hc as [[] | Hc]. exact Hc. }
  pose proof (fill_remaining_perm (top_five ovr) (seq 0 5) (fst placed)
                (snd placed)) as F8.
  set (filled := fill_remaining (top_five ovr) (seq 0 5) (fst placed)
                   (snd placed)) in *.
  assert (Hperm : Permutation (join (fst filled)) (snd filled)).
  { apply F8.
    - intros i Hi. apply in_seq in Hi. lia.
    - apply P5; [intros c [] | reflexivity | apply Permutation_refl]. }
  split; [| split].
  - eapply Permutation_NoDup; [apply Permutation_sym; exact Hperm | exact F1].
  - intros c Hc. apply (Permutation_in c Hperm) in Hc. apply F3 in Hc.
    unfold top_five in Hc. apply firstn_sub in Hc.
    apply sorted_desc_In in Hc. apply Hletters.
    apply Hk2 in Hc. destruct Hc as [[] | Hc]. exact Hc.
  - rewrite <- F2, <- Hlen.
    apply Nat.le_antisymm.
    + apply NoDup_incl_length; assumption.
    + destruct F7 as [F7 | F7].
      * apply NoDup_incl_length; [exact Htop | exact F7].
      * rewrite F2, join_full.
        -- rewrite F4, P2. rewrite Hlen. apply Nat.le_min_l.
        -- intros i Hi. apply F7. apply in_seq. rewrite F4, P2 in Hi. lia.
Qed.

Lemma letters_of_first_five (words : list str) :
  NoDup (dedup (concat (map (firstn 5) words))) /\
  forall c, In c (dedup (concat (map (firstn 5) words))) <->
            exists w, In w words /\ In c (firstn 5 w).
Proof.
  split; [apply dedup_NoDup |].
  intros c. rewrite dedup_In, in_concat. split.
  - intros (l & Hl & Hc). apply in_map_iff in Hl.
    destruct Hl as (w & <- & Hw). exists w. split; assumption.
  - intros (w & Hw & Hc). exists (firstn 5 w). split; [| exact Hc].
    apply in_map. exact Hw.
Qed.

(** X16: over words of five characters or more, the first guess never
    repeats a letter, and each of its letters occurs among the first five
    characters of some word of the list; it has at most five characters. *)
Theorem analysis_distinct_letters (words : list str) :
  long_words words ->
  exists guess,
    analysis words = Ok guess /\ NoDup guess /\ length guess <= 5 /\
    forall c, In c guess -> exists w, In w words /\ In c (firstn 5 w).
Proof.
  intros Hws.
  destruct (letters_of_first_five words) as [Hnd Hin].
  destruct (analysis_shape words _ Hws Hnd Hin)
    as (guess & E & Hg & Hincl & Hlen).
  exists guess. split; [exact E |]. split; [exact Hg |].
  split; [rewrite Hlen; apply Nat.le_min_l |].
  intros c Hc. apply Hin. now apply Hincl.
Qed.

Lemma analysis_distinct_letters_witness :
  exists guess,
    analysis probe_words = Ok guess /\ NoDup guess /\ length guess <= 5 /\
    forall c, In c guess ->
              exists w, In w probe_words /\ In c (firstn 5 w).
Proof.
  apply (analysis_distinct_letters probe_words).
  repeat constructor.
Defined.

(** ** Every guess has five letters *)

Lemma filter_words_sub (self : Guesser) (words : list str) :
  forall l, filter_words self words = Ok l ->
            forall w, In w l -> In w words /\ keeps self w = Ok true.
Proof.
  induction words as [|x rest IH]; intros l; cbn [filter_words].
  - intros H. injection H as <-. intros w [].
  - destruct (keeps self x) as [b|e] eqn:Ek; [| discriminate].
    cbn [bind]. destruct (filter_words self rest) as [l'|e]; [| discriminate].
    cbn [bind]. intros H. injection H as <-. intros w Hw.
    destruct b.
    + destruct Hw as [<- | Hw].
      * split; [now left | exact Ek].
      * destruct (IH l' eq_refl w Hw). split; [now right | assumption].
    + destruct (IH l' eq_refl w Hw). split; [now right | assumption].
Qed.

Lemma keeps_true_misplaced (self : Guesser) (w : str) :
  keeps self w = Ok true ->
  has_all_misplaced (_misplaced_letters self) w = true.
Proof.
  unfold keeps, has_all_misplaced.
  destruct (existsb _ (_invalid_letters self)); [discriminate |].
  destruct (contradicts_correct (_correct_positions self) w (seq 0 5))
    as [[|]|e]; cbn [bind]; try discriminate.
  destruct (at_excluded_position (_misplaced_letters self) 0 w);
    [discriminate |].
  intros H. injection H as H. exact H.
Qed.

Lemma single_missing_length (hash : ascii -> nat) (rnd : nat -> nat)
    (cursor cursor' : nat) (self : Guesser) (filtered : list str)
    (guess : str) :
  single_missing hash rnd cursor self filtered = Ok (guess, cursor') ->
  length guess = 5.
Proof.
  unfold single_missing.
  destruct (index_empty (_correct_positions self)) as [mp|]; [| discriminate].
  destruct (letters_at mp filtered) as [letters|e]; [| discriminate].
  cbn [bind].
  destruct (pad_random_spec rnd (5 - length (set_iter hash letters)) cursor
              (set_iter hash letters)) as (padding & E & Hlen & _).
  rewrite E. cbn [bind fst snd]. intros H.
  assert (Hg : guess = firstn 5 (set_iter hash letters ++ padding))
    by congruence.
  rewrite Hg, length_firstn, length_app, Hlen. lia.
Qed.

Lemma best_split_In (filtered : list str) (guess : str) :
  best_split filtered = Some guess -> In guess filtered.
Proof.
  rewrite best_split_unfold. destruct filtered as [|x rest]; [discriminate |].
  intros H. injection H as <-.
  destruct (max_from_first (word_score (x :: rest)) rest x)
    as [[E _] | (l1 & l2 & E & _)].
  - rewrite E. now left.
  - right.
    set (g := max_from
                (map (fun w => (w, word_score (x :: rest) w)) rest) x
                (word_score (x :: rest) x)) in *.
    assert (Hin : In g (l1 ++ g :: l2))
      by (apply in_app_iff; right; now left).
    now rewrite <- E in Hin.
Qed.

Lemma select_length (hash : ascii -> nat) (rnd : nat -> nat)
    (cursor cursor' : nat) (self : Guesser) (filtered : list str)
    (guess : str) :
  Forall (fun w => length w = 5) filtered ->
  select hash rnd cursor self filtered = Ok (guess, cursor') ->
  length guess = 5.
Proof.
  intros Hws. rewrite Forall_forall in Hws. unfold select.
  destruct (guess_count self =? 1).
  - intros H. apply second_guess_member_or_five in H.
    destruct H as [H | H]; [now apply Hws | exact H].
  - destruct ((count_empty (_correct_positions self) =? 1)
              && (3 <? length filtered) && (guess_count self <? 6)).
    + apply single_missing_length.
    + destruct (best_split filtered) as [g|] eqn:E.
      * intros H. injection H as <- _. apply Hws. now apply best_split_In.
      * destruct (choice rnd cursor filtered) as [word|e] eqn:Ec;
          [| discriminate].
        cbn [bind]. intros H. injection H as <- _. apply Hws.
        exact (choice_In rnd cursor filtered word Ec).
Qed.

Lemma anti_repeat_result (fuel : nat) (rnd : nat -> nat) (tried : list str)
    (filtered : option (list str)) :
  forall (cursor : nat) (guess guess' : str),
    anti_repeat fuel rnd cursor tried filtered guess = Some (Ok guess') ->
    guess' = guess \/ exists words, filtered = Some words /\ In guess' words.
Proof.
  induction fuel as [|fuel IH]; intros cursor guess guess'; simpl;
    destruct (str_mem guess tried).
  - discriminate.
  - intros H. injection H as <-. now left.
  - destruct filtered as [words|]; [| discriminate].
    destruct (choice rnd cursor words) as [g|e] eqn:Ec; [| discriminate].
    intros H. apply IH in H. right.
    destruct H as [-> | H]; [| exact H].
    exists words. split; [reflexivity |].
    exact (choice_In rnd cursor words g Ec).
  - intros H. injection H as <-. now left.
Qed.

Lemma get_guess_length (fuel : nat) (hash : ascii -> nat) (rnd : nat -> nat)
    (input : str) (g g' : Guesser) (result guess : str) :
  auto_mode g -> five_letter_words (word_list g) ->
  length (first_guess g) = 5 ->
  get_guess fuel hash rnd input g result = Finished (Ok guess) g' ->
  length guess = 5.
Proof.
  unfold auto_mode, get_guess. intros -> Hws Hfirst.
  assert (Hpick : forall g1 w cursor filtered,
            pick hash rnd g result = (g1, Ok (w, cursor, filtered)) ->
            length w = 5 /\
            forall words, filtered = Some words ->
                          Forall (fun v => length v = 5) words).
  { intros g1 w cursor filtered. unfold pick.
    destruct (last_tried (_tried g)) as [last|].
    - destruct (negb (length last =? 5)); [discriminate |].
      pose proof (process_feedback_frame last result g 0) as (Hw & _).
      destruct (process_feedback last g 0 result) as [g2 [e|]];
        [discriminate |].
      simpl in Hw.
      destruct (filtered_word_list g2) as [l|e] eqn:El; [| discriminate].
      cbn [bind].
      assert (Hl : Forall (fun v => length v = 5) l).
      { apply Forall_forall. intros v Hv.
        destruct (filter_words_sub g2 (word_list g2) l El v Hv) as [Hin _].
        rewrite <- Hw in Hin. unfold five_letter_words in Hws.
        rewrite Forall_forall in Hws. now apply Hws. }
      destruct (select hash rnd 0 g2 l) as [[w' c']|e] eqn:Es;
        [| discriminate].
      cbn [bind fst snd]. intros H. injection H as _ <- _ <-.
      split; [exact (select_length hash rnd 0 c' g2 l w' Hl Es) |].
      intros words H. injection H as <-. exact Hl.
    - intros H. injection H as _ <- _ <-.
      split; [exact Hfirst | discriminate]. }
  destruct (pick hash rnd g result) as [g1 [[[w cursor] filtered]|e]];
    [| discriminate].
  destruct (Hpick g1 w cursor filtered eq_refl) as [Hw Hf].
  destruct (anti_repeat fuel rnd cursor (_tried g1) filtered w)
    as [[w'|e]|] eqn:Ea; try discriminate.
  intros H. injection H as <- _.
  apply anti_repeat_result in Ea. destruct Ea as [-> | (words & -> & Hin)];
    [exact Hw |].
  specialize (Hf words eq_refl). rewrite Forall_forall in Hf. now apply Hf.
Qed.

(** X17: over a dictionary of five-letter words that uses at least five
    distinct letters, the first guess and every guess the engine ever
    records have exactly five characters, whatever feedback it is given. *)
Theorem guesses_have_five_letters (manual : str) (words : list str)
    (letters : list ascii) (g : Guesser) :
  five_letter_words words ->
  NoDup letters -> 5 <= length letters ->
  (forall c, In c letters -> exists w, In w words /\ In c w) ->
  reachable any_feedback manual words g ->
  length (first_guess g) = 5 /\ Forall (fun w => length w = 5) (_tried g).
Proof.
  intros Hws Hnd H5 Hocc Hr.
  assert (Hlong : long_words words).
  { unfold long_words, five_letter_words in *.
    eapply Forall_impl; [| exact Hws]. simpl. intros w Hw. lia. }
  assert (Hfirst5 : forall w, In w words -> firstn 5 w = w).
  { intros w Hw. apply firstn_all2. unfold five_letter_words in Hws.
    rewrite Forall_forall in Hws. rewrite (Hws w Hw). lia. }
  destruct (letters_of_first_five words) as [Hdn Hdin].
  destruct (analysis_shape words _ Hlong Hdn Hdin)
    as (first & Ea & _ & _ & Hlen).
  assert (Hcount : 5 <= length (dedup (concat (map (firstn 5) words)))).
  { apply Nat.le_trans with (length letters); [exact H5 |].
    apply NoDup_incl_length; [exact Hnd |].
    intros c Hc. apply Hdin. destruct (Hocc c Hc) as (w & Hw & Hcw).
    exists w. split; [exact Hw |]. now rewrite Hfirst5. }
  assert (Hfirst : length first = 5) by lia.
  assert (Hinit : exists g0, init manual words = Ok g0 /\
                             first_guess g0 = first).
  { unfold init. rewrite Ea. cbn [bind]. eexists. split; reflexivity. }
  destruct Hinit as (g0 & Hg0 & Hf0).
  destruct (reachable_setup any_feedback manual words g0 g Hg0 Hr)
    as (Ew & _ & Ef & _).
  assert (Hfg : length (first_guess g) = 5) by now rewrite <- Ef, Hf0.
  split; [exact Hfg |].
  clear Hfg Ew Ef.
  induction Hr as [g Hi | g _ _ | g fuel hash rnd input result r g' Hr IH _ Hc].
  - destruct (init_fields manual words g Hi) as (f & _ & ->). constructor.
  - constructor.
  - destruct (reachable_setup any_feedback manual words g0 g Hg0 Hr)
      as (Ew & _ & Ef & _).
    destruct (init_fields manual words g0 Hg0) as (f & _ & Hg0').
    assert (Hwl : word_list g = words) by (rewrite <- Ew, Hg0'; reflexivity).
    destruct (str_eqb (_manual g) (s "manual")) eqn:Em.
    { unfold get_guess in Hc. rewrite Em in Hc. injection Hc as _ <-.
      exact IH. }
    destruct r as [guess|e].
    + destruct (get_guess_records fuel hash rnd input g g' result guess
                  Em Hc) as [Ht _].
      rewrite Ht. apply Forall_app. split; [exact IH |].
      constructor; [| constructor].
      apply (get_guess_length fuel hash rnd input g g' result guess Em).
      * now rewrite Hwl.
      * now rewrite <- Ef, Hf0.
      * exact Hc.
    + unfold get_guess in Hc. rewrite Em in Hc.
      pose proof (pick_frame hash rnd g result) as (_ & _ & Ht & _).
      destruct (pick hash rnd g result) as [g1 [[[w cursor] filtered]|e']];
        simpl in Ht.
      * destruct (anti_repeat fuel rnd cursor (_tried g1) filtered w)
          as [[w'|e'']|]; try discriminate.
        injection Hc as _ <-. now rewrite <- Ht.
      * injection Hc as _ <-. now rewrite <- Ht.
Qed.

Lemma guesses_have_five_letters_witness :
  length (first_guess demo_traced) = 5 /\
  Forall (fun w => length w = 5) (_tried demo_traced).
Proof.
  apply (guesses_have_five_letters (s "auto") demo_words (s "crane")
           demo_traced).
  - repeat constructor.
  - repeat constructor; simpl; intuition discriminate.
  - simpl. lia.
  - intros c Hc. exists (s "crane"). split; [now left | exact Hc].
  - apply reach_call with (g := demo_first) (fuel := 0) (hash := demo_hash)
      (rnd := demo_rnd) (input := []) (result := s "-ra-e")
      (r := Ok (s "trace")).
    + apply demo_first_reachable. exact I.
    + exact I.
    + vm_compute. reflexivity.
Defined.

(** ** Calls that cannot raise *)

Lemma index_empty_exists (cp : list (option ascii)) :
  0 < count_empty cp ->
  exists mp, index_empty cp = Some mp /\ mp < length cp.
Proof.
  unfold count_empty. induction cp as [|o cp IH]; simpl; [lia |].
  destruct o as [c|]; simpl.
  - intros H. destruct (IH H) as (mp & E & Hlt). rewrite E.
    exists (S mp). split; [reflexivity | lia].
  - intros _. exists 0. split; [reflexivity | lia].
Qed.

Lemma filter_all {A : Type} (f : A -> bool) (l : list A) :
  (forall x, In x l -> f x = true) -> filter f l = l.
Proof.
  induction l as [|x l IH]; intros H; simpl; [reflexivity |].
  rewrite (H x (or_introl eq_refl)). f_equal. apply IH.
  intros y Hy. apply H. now right.
Qed.

Lemma select_total (hash : ascii -> nat) (rnd : nat -> nat) (cursor : nat)
    (self : Guesser) (filtered : list str) :
  five_positions self ->
  Forall (fun w => length w = 5) filtered -> filtered <> [] ->
  (forall w, In w filtered ->
             has_all_misplaced (_misplaced_letters self) w = true) ->
  exists guess cursor',
    select hash rnd cursor self filtered = Ok (guess, cursor').
Proof.
  intros Hcp Hws Hne Hall. unfold select.
  destruct (guess_count self =? 1).
  - unfold second_guess.
    destruct (2 <? length (_misplaced_letters self)).
    + rewrite (filter_all _ filtered Hall).
      destruct filtered as [|w l]; [congruence |]. eexists _, _. reflexivity.
    + destruct (filter (avoids (first_guess_letters self)) filtered)
        as [|w l]; [| eexists _, _; reflexivity].
      destruct (length _ <? 5); [| eexists _, _; reflexivity].
      destruct (choice_nonempty rnd cursor filtered Hne) as [w Hw].
      rewrite Hw. cbn [bind]. eexists _, _. reflexivity.
  - destruct ((count_empty (_correct_positions self) =? 1)
              && (3 <? length filtered) && (guess_count self <? 6)) eqn:E.
    + apply andb_true_iff in E. destruct E as [E _].
      apply andb_true_iff in E. destruct E as [E _].
      apply Nat.eqb_eq in E.
      destruct (index_empty_exists (_correct_positions self))
        as (mp & Ei & Hlt); [lia |].
      unfold single_missing. rewrite Ei.
      destruct (letters_at_total mp filtered) as (letters & El & _).
      { eapply Forall_impl; [| exact Hws]. simpl. intros w Hw.
        unfold five_positions in Hcp. lia. }
      rewrite El. cbn [bind].
      destruct (pad_random_spec rnd (5 - length (set_iter hash letters))
                  cursor (set_iter hash letters)) as (padding & Ep & _).
      rewrite Ep. cbn [bind]. eexists _, _. reflexivity.
    + rewrite best_split_unfold.
      destruct filtered as [|w l]; [congruence |]. eexists _, _. reflexivity.
Qed.

Lemma anti_repeat_no_raise (fuel : nat) (rnd : nat -> nat)
    (tried words : list str) :
  words <> [] ->
  forall (cursor : nat) (guess : str),
    anti_repeat fuel rnd cursor tried (Some words) guess = None \/
    exists guess',
      anti_repeat fuel rnd cursor tried (Some words) guess
      = Some (Ok guess').
Proof.
  intros Hne. induction fuel as [|fuel IH]; intros cursor guess;
    cbn [anti_repeat]; destruct (str_mem guess tried).
  - now left.
  - right. eexists. reflexivity.
  - destruct (choice_nonempty rnd cursor words Hne) as [w Hw]. rewrite Hw.
    apply IH.
  - right. eexists. reflexivity.
Qed.

(** A later call whose update succeeds and leaves a candidate returns a
    guess or keeps resampling. *)
Lemma later_call_no_raise (fuel : nat) (hash : ascii -> nat)
    (rnd : nat -> nat) (input : str) (g g1 : Guesser)
    (last result : str) (candidates : list str) :
  last_tried (_tried g) = Some last -> length last = 5 ->
  process_feedback last g 0 result = (g1, None) ->
  five_positions g1 -> five_letter_words (word_list g1) ->
  filtered_word_list g1 = Ok candidates -> candidates <> [] ->
  get_guess fuel hash rnd input g result = OutOfFuel \/
  exists guess g',
    get_guess fuel hash rnd input g result = Finished (Ok guess) g'.
Proof.
  intros Hlast Hlen Hfb Hcp Hws Hf Hne. unfold get_guess.
  destruct (str_eqb (_manual g) (s "manual")).
  { right. eexists _, _. reflexivity. }
  rewrite (pick_later hash rnd g g1 result last Hlast Hlen Hfb), Hf.
  cbn [bind].
  assert (Hsub : forall w, In w candidates ->
                           In w (word_list g1) /\ keeps g1 w = Ok true)
    by exact (filter_words_sub g1 (word_list g1) candidates Hf).
  destruct (select_total hash rnd 0 g1 candidates Hcp) as (w & c & Es);
    [| exact Hne | |].
  - apply Forall_forall. intros v Hv. destruct (Hsub v Hv) as [Hin _].
    unfold five_letter_words in Hws. rewrite Forall_forall in Hws. auto.
  - intros v Hv. destruct (Hsub v Hv) as [_ Hk].
    now apply keeps_true_misplaced.
  - rewrite Es. cbn [bind fst snd].
    destruct (anti_repeat_no_raise fuel rnd (_tried g1) candidates Hne c w)
      as [E | (w' & E)]; rewrite E.
    + now left.
    + right. eexists _, _. reflexivity.
Qed.

(** X18: on a later call in auto mode over five-letter words, when the
    feedback is processed and at least one word passes the filter, nothing
    is raised: the call goes on resampling in the anti-repeat loop, or it
    returns a guess, and that guess was not tried before. *)
Theorem nonempty_candidates_no_raise (fuel : nat) (hash : ascii -> nat)
    (rnd : nat -> nat) (input : str) (g g1 : Guesser)
    (last result : str) (candidates : list str) :
  auto_mode g ->
  last_tried (_tried g) = Some last -> length last = 5 ->
  process_feedback last g 0 result = (g1, None) ->
  five_positions g1 -> five_letter_words (word_list g1) ->
  filtered_word_list g1 = Ok candidates -> candidates <> [] ->
  get_guess fuel hash rnd input g result = OutOfFuel \/
  exists guess g',
    get_guess fuel hash rnd input g result = Finished (Ok guess) g' /\
    ~ In guess (_tried g).
Proof.
  intros Hauto Hlast Hlen Hfb Hcp Hws Hf Hne.
  destruct (later_call_no_raise fuel hash rnd input g g1 last result
              candidates Hlast Hlen Hfb Hcp Hws Hf Hne)
    as [E | (guess & g' & E)]; [now left | right].
  exists guess, g'. split; [exact E |].
  exact (get_guess_fresh fuel hash rnd input g g' result guess Hauto E).
Qed.

Lemma nonempty_candidates_no_raise_witness :
  get_guess 4 demo_hash demo_rnd [] demo_first (s "c----") = OutOfFuel \/
  exists guess g',
    get_guess 4 demo_hash demo_rnd [] demo_first (s "c----")
    = Finished (Ok guess) g' /\
    ~ In guess (_tried demo_first).
Proof.
  eapply (nonempty_candidates_no_raise 4 demo_hash demo_rnd [] demo_first _
            (s "crate") (s "c----") [s "caret"]).
  - reflexivity.
  - reflexivity.
  - reflexivity.
  - vm_compute. reflexivity.
  - reflexivity.
  - repeat constructor.
  - vm_compute. reflexivity.
  - discriminate.
Defined.

(** X19: in a game over five-letter words whose feedback is consistent
    with a hidden word of the dictionary, a call that follows a five-letter
    guess raises in one case only: when the update leaves a letter of the
    hidden word both in [_invalid_letters] and among the keys of
    [_misplaced_letters], so that no candidate is left.  In every other
    case the call returns a guess, or goes on resampling. *)
Theorem consistent_game_raises_blocked (fuel : nat) (hash : ascii -> nat)
    (rnd : nat -> nat) (input : str) (target manual : str)
    (words : list str) (g : Guesser) (last result : str) :
  five_letter_words words -> In target words ->
  reachable (consistent_with target) manual words g ->
  last_tried (_tried g) = Some last -> length last = 5 ->
  consistent target last result ->
  get_guess fuel hash rnd input g result = OutOfFuel \/
  (exists guess g',
     get_guess fuel hash rnd input g result = Finished (Ok guess) g') \/
  (exists e g',
     get_guess fuel hash rnd input g result = Finished (Raise e) g' /\
     blocked target g' /\ filtered_word_list g' = Ok []).
Proof.
  intros Hws Hin Hr Hlast Hlen Hcons.
  destruct (reachable_tracks target manual words g Hr)
    as [(_ & T2 & T3 & T4) Hw].
  destruct (consistent_turn target last result g Hcons (T2 last Hlast) T3
              T4 Hlen) as (g1 & E & P & S2 & S3 & _).
  pose proof (consistent_turn_misplaced target last result g Hcons Hlen T4
                (reachable_misplaced_sound target manual words g Hr))
    as [M1 M2].
  rewrite E in M1, M2. simpl in M1, M2.
  assert (Hw1 : word_list g1 = words).
  { pose proof (process_feedback_frame last result g 0) as (Hf & _).
    rewrite E in Hf. simpl in Hf. congruence. }
  assert (Ht : length target = 5).
  { unfold five_letter_words in Hws. rewrite Forall_forall in Hws. auto. }
  assert (Hf : filtered_word_list g1 = Ok (filter (keepsb g1) words)).
  { unfold filtered_word_list. rewrite Hw1. now apply filter_words_total. }
  destruct (existsb (fun c => mem c target) (_invalid_letters g1)) eqn:Eb.
  - apply existsb_exists in Eb. destruct Eb as (c & Hc & Hm).
    apply mem_In in Hm. destruct (P c Hc Hm) as [Hk _].
    rewrite (filter_words_blocked g1 c (word_list g1) Hc Hk _ Hf) in Hf.
    unfold get_guess. destruct (str_eqb (_manual g) (s "manual")).
    { right. left. eexists _, _. reflexivity. }
    right. right.
    rewrite (pick_later hash rnd g g1 result last Hlast Hlen E), Hf.
    cbn [bind].
    destruct (select_nothing hash rnd 0 g1) as [e He]. rewrite He.
    cbn [bind]. exists e, g1. split; [reflexivity |].
    split; [| exact Hf].
    exists c. split; [exact Hm | split; [exact Hc | exact Hk]].
  - destruct (later_call_no_raise fuel hash rnd input g g1 last result
                (filter (keepsb g1) words) Hlast Hlen E S3)
      as [H | H]; [| exact Hf | | now left | right; left; exact H].
    + now rewrite Hw1.
    + intros Hempty.
      assert (Hcand : In target (filter (keepsb g1) words)).
      { apply filter_In. split; [exact Hin |].
        apply (keepsb_qualifies g1 target S3 Ht).
        unfold qualifies.
        split; [| split; [exact S2 | split; [exact M1 | exact M2]]].
        intros d Hd Hdt.
        assert (Hex : existsb (fun c => mem c target) (_invalid_letters g1)
                      = true).
        { apply existsb_exists. exists d.
          split; [exact Hd | now apply mem_In]. }
        congruence. }
      rewrite Hempty in Hcand. destruct Hcand.
Qed.

Lemma consistent_game_raises_blocked_witness :
  get_guess 4 demo_hash demo_rnd [] twin_second (s "+++-+")
  = Finished (Raise choice_empty_error) twin_blocked /\
  (get_guess 4 demo_hash demo_rnd [] twin_second (s "+++-+") = OutOfFuel \/
   (exists guess g',
      get_guess 4 demo_hash demo_rnd [] twin_second (s "+++-+")
      = Finished (Ok guess) g') \/
   (exists e g',
      get_guess 4 demo_hash demo_rnd [] twin_second (s "+++-+")
      = Finished (Raise e) g' /\
      blocked (s "zooms") g' /\ filtered_word_list g' = Ok [])).
Proof.
  split; [vm_compute; reflexivity |].
  apply (consistent_game_raises_blocked 4 demo_hash demo_rnd [] (s "zooms")
           (s "auto") twin_words twin_second (s "fuzzy") (s "+++-+")).
  - repeat constructor.
  - vm_compute. tauto.
  - exact twin_second_reachable.
  - reflexivity.
  - reflexivity.
  - exact twin_absent_then_present.
Defined.

(** ** Where the constraints come from *)

Lemma last_tried_In (tried : list str) (last : str) :
  last_tried tried = Some last -> In last tried.
Proof.
  induction tried as [|w rest IH]; [discriminate |].
  destruct rest as [|v rest'].
  - intros H. injection H as <-. now left.
  - intros H. right. apply IH. exact H.
Qed.

Lemma last_tried_snoc (tried : list str) (w : str) :
  last_tried (tried ++ [w]) = Some w.
Proof.
  induction tried as [|x rest IH]; [reflexivity |].
  simpl. destruct (rest ++ [w]) eqn:E; [| exact IH].
  destruct rest; discriminate.
Qed.

Lemma feedback_char_from_guesses (tried : list str) (last_guess : str)
    (self self' : Guesser) (i : nat) (char : ascii) :
  In last_guess tried ->
  feedback_char last_guess self i char = Ok self' ->
  from_guesses tried self -> from_guesses tried self'.
Proof.
  intros Hin E (P1 & P2 & P3).
  pose proof (feedback_char_cells last_guess self self' i char E) as Hcp.
  pose proof (feedback_char_misplaced last_guess self self' i char E) as Hm.
  unfold from_guesses. split; [| split].
  - revert E. unfold feedback_char, str_get, bind.
    destruct (isalpha char).
    + destruct (nth_error last_guess i) as [c|]; [| discriminate].
      destruct (i <? length (_correct_positions self)); [| discriminate].
      simpl. destruct (mem c (_invalid_letters self));
        intros H; injection H as <-; simpl; [| exact P1].
      intros d Hd. apply set_remove_In in Hd. apply P1. tauto.
    + destruct (Ascii.eqb char "-").
      * destruct (nth_error last_guess i); [| discriminate].
        intros H; injection H as <-. exact P1.
      * destruct (Ascii.eqb char "+").
        -- destruct (nth_error last_guess i) as [c|] eqn:Ec;
             [| discriminate].
           match goal with |- context [if ?b then _ else _] => destruct b end;
             intros H; injection H as <-; [| exact P1].
           simpl. intros d Hd. apply set_add_In in Hd.
           destruct Hd as [Hd | ->]; [now apply P1 |].
           exists last_guess. split; [exact Hin |].
           eapply nth_error_In. exact Ec.
        -- intros H; injection H as <-. exact P1.
  - intros j c. rewrite Hcp. destruct (isalpha char); [| apply P2].
    destruct (nth_error last_guess i) as [d|] eqn:Ed; [| apply P2].
    destruct (Nat.lt_ge_cases i (length (_correct_positions self)))
      as [Hlt | Hge].
    + rewrite nth_error_list_set by exact Hlt.
      destruct (j =? i) eqn:Eji; [| apply P2].
      apply Nat.eqb_eq in Eji. subst j. intros H. injection H as <-.
      exists last_guess. split; assumption.
    + assert (Hsame : list_set (_correct_positions self) i (Some d)
                      = _correct_positions self).
      { clear - Hge. revert i Hge.
        induction (_correct_positions self) as [|o l IH]; intros i Hge;
          [destruct i; reflexivity |].
        destruct i as [|i]; simpl in *; [lia |].
        f_equal. apply IH. lia. }
      rewrite Hsame. apply P2.
  - intros L p. rewrite Hm. destruct (Ascii.eqb char "-"); [| apply P3].
    destruct (nth_error last_guess i) as [d|] eqn:Ed; [| apply P3].
    intros Hrec. apply misplaced_add_recorded in Hrec.
    destruct Hrec as [Hrec | [-> ->]]; [now apply P3 |].
    exists last_guess. split; assumption.
Qed.

Lemma process_feedback_from_guesses (tried : list str) (last_guess : str)
    (result : str) :
  In last_guess tried ->
  forall (self : Guesser) (i : nat),
    from_guesses tried self ->
    from_guesses tried (fst (process_feedback last_guess self i result)).
Proof.
  intros Hin. induction result as [|char rest IH]; intros self i H; simpl.
  - exact H.
  - destruct (feedback_char last_guess self i char) as [self'|e] eqn:E.
    + apply IH. eapply feedback_char_from_guesses; eassumption.
    + exact H.
Qed.

Lemma from_guesses_more (tried tried' : list str) (a b : Guesser) :
  incl tried tried' -> same_knowledge a b ->
  from_guesses tried a -> from_guesses tried' b.
Proof.
  intros Hincl (E1 & E2 & E3) (P1 & P2 & P3).
  unfold from_guesses. rewrite <- E1, <- E2, <- E3.
  split; [| split].
  - intros c Hc. destruct (P1 c Hc) as (w & Hw & H). exists w. auto.
  - intros i c Hc. destruct (P2 i c Hc) as (w & Hw & H). exists w. auto.
  - intros L p Hc. destruct (P3 L p Hc) as (w & Hw & H). exists w. auto.
Qed.

Lemma get_guess_tried_grows (fuel : nat) (hash : ascii -> nat)
    (rnd : nat -> nat) (input : str) (g g' : Guesser) (result : str)
    (r : res str) :
  get_guess fuel hash rnd input g result = Finished r g' ->
  incl (_tried g) (_tried g').
Proof.
  unfold get_guess.
  destruct (str_eqb (_manual g) (s "manual")).
  { intros H. injection H as _ <-. apply incl_refl. }
  pose proof (pick_frame hash rnd g result) as (_ & _ & Ht & _).
  destruct (pick hash rnd g result) as [g1 [[[w cursor] filtered]|e]];
    simpl in Ht.
  - destruct (anti_repeat fuel rnd cursor (_tried g1) filtered w)
      as [[w'|e]|]; try discriminate; intros H; injection H as _ <-.
    + simpl. rewrite <- Ht. apply incl_appl, incl_refl.
    + rewrite <- Ht. apply incl_refl.
  - intros H. injection H as _ <-. rewrite <- Ht. apply incl_refl.
Qed.

(** X20: whatever the feedback, the engine only records facts about its
    own guesses: every invalid letter is a letter of some recorded guess,
    every confirmed letter stands at its position in some recorded guess,
    and every position excluded for a misplaced letter is a position where
    some recorded guess has that letter. *)
Theorem constraints_come_from_guesses (manual : str) (words : list str)
    (g : Guesser) :
  reachable any_feedback manual words g -> from_guesses (_tried g) g.
Proof.
  induction 1 as [g Hi | g _ _ | g fuel hash rnd input result r g' _ IH _ Hc].
  - destruct (init_fields manual words g Hi) as (first & _ & ->).
    split; [intros c [] | split].
    + intros i c H. simpl in H. exfalso.
      do 5 (destruct i as [|i]; [discriminate |]). destruct i; discriminate.
    + intros L p (ps & H & _). discriminate H.
  - split; [intros c [] | split].
    + intros i c H. simpl in H. exfalso.
      do 5 (destruct i as [|i]; [discriminate |]). destruct i; discriminate.
    + intros L p (ps & H & _). discriminate H.
  - pose proof (get_guess_tried_grows fuel hash rnd input g g' result r Hc)
      as Hincl.
    destruct (get_guess_knowledge fuel hash rnd input g g' result r Hc)
      as [Hs | (last & Hl & _ & Hs)].
    + exact (from_guesses_more _ _ g g' Hincl Hs IH).
    + apply (from_guesses_more (_tried g) _ _ g' Hincl Hs).
      apply process_feedback_from_guesses; [| exact IH].
      now apply last_tried_In.
Qed.

Lemma constraints_come_from_guesses_witness :
  from_guesses (_tried demo_traced) demo_traced.
Proof.
  apply (constraints_come_from_guesses (s "auto") demo_words demo_traced).
  apply reach_call with (g := demo_first) (fuel := 0) (hash := demo_hash)
    (rnd := demo_rnd) (input := []) (result := s "-ra-e")
    (r := Ok (s "trace")).
  - apply demo_first_reachable. exact I.
  - exact I.
  - vm_compute. reflexivity.
Defined.

(** X21: a call in auto mode that returns a guess leaves that guess as the
    last element of [_tried], after the guesses recorded before, so the next
    feedback is read against the guess just returned. *)
Theorem returned_guess_is_last (fuel : nat) (hash : ascii -> nat)
    (rnd : nat -> nat) (input : str) (g g' : Guesser) (result guess : str) :
  auto_mode g ->
  get_guess fuel hash rnd input g result = Finished (Ok guess) g' ->
  _tried g' = _tried g ++ [guess] /\ last_tried (_tried g') = Some guess.
Proof.
  intros Hauto Hc.
  destruct (get_guess_records fuel hash rnd input g g' result guess Hauto Hc)
    as [Ht _].
  split; [exact Ht |]. rewrite Ht. apply last_tried_snoc.
Qed.

Lemma returned_guess_is_last_witness :
  _tried demo_second = _tried demo_first ++ [s "fuzzy"] /\
  last_tried (_tried demo_second) = Some (s "fuzzy").
Proof.
  apply (returned_guess_is_last 0 demo_hash demo_rnd [] demo_first
           demo_second (s "+++++") (s "fuzzy")).
  - reflexivity.
  - apply demo_second_call.
Defined.
